(** * rig-go: the RPC runtime (mrpc, jrpc) and the hook orderer

    A shallow embedding of
      - rig/mrpc/mrpc.go and rig/mrpc/internal/protocol (MessagePack RPC),
      - rig/jrpc/jrpc.go and rig/jrpc/internal/protocol (JSON RPC),
      - rig/hook/hook.go (dependency ordering of hooks),
    followed by the properties of the specification that concern them.

    Conventions.  A Go [string] is a [string]; a [[]byte] is a [list byte];
    a Go [error] is represented by its message; a nil-able [func] value is
    an [option]; a Go [map[string]T] is a [gmap string T].  A handler
    receives a [*Scope] and writes to the websocket connection: it is a
    function on the pair of the scope and the connection, and its outcome
    is either a normal return with the updated pair or a run-time panic. *)

From Stdlib Require Import ZArith List Ascii String Lia Permutation.
From Stdlib.Strings Require Import Byte.
From stdpp Require Import base option list sorting gmap strings pretty.

Open Scope string_scope.
Open Scope list_scope.
Open Scope Z_scope.

(** ** Go values shared by the packages *)

Definition bytes := list byte.

(** A Go [error], identified with the text its [Error()] method returns. *)
Definition error := string.

(** A call that returns [(T, error)]. *)
Inductive result (A : Type) : Type :=
| Ok (a : A)
| Err (e : error).
Arguments Ok {A} a.
Arguments Err {A} e.

(** [[]byte(s)] and [string(b)]. *)
Definition bytes_of_string (s : string) : bytes := list_byte_of_string s.
Definition string_of_bytes (b : bytes) : string := string_of_list_byte b.

(** [len(s)] as a Go [int]. *)
Definition len (s : string) : Z := Z.of_nat (String.length s).

(** Conversion of an integer to [uint8] (wrap-around). *)
Definition u8 (z : Z) : byte :=
  match Byte.of_N (Z.to_N (z mod 256)) with
  | Some b => b
  | None => x00
  end.

(** ** The websocket connection (nhooyr.io/websocket), seen from the server

    The runtime uses three operations: [Read], [Write] and [CloseStatus].
    A connection is the list of the messages written so far together with
    its health: [Write] on a broken connection returns the error and sends
    nothing. *)

Inductive MessageType : Type := MessageText | MessageBinary.

Definition MessageType_eqb (a b : MessageType) : bool :=
  match a, b with
  | MessageText, MessageText | MessageBinary, MessageBinary => true
  | _, _ => false
  end.

Record Conn : Type := mkConn {
  written : list (MessageType * bytes);
  broken : option error
}.

Definition Conn_Write (mt : MessageType) (bin : bytes) (c : Conn)
  : option error * Conn :=
  match broken c with
  | Some e => (Some e, c)
  | None => (None, mkConn (written c ++ [(mt, bin)]) None)
  end.

(** What [c.Read(ctx)] returns: a message, or an error with the value that
    [websocket.CloseStatus] gives for it ([-1] when the error is not a close
    frame). *)
Inductive ReadEvent : Type :=
| ReadMsg (mt : MessageType) (msg : bytes)
| ReadErr (err : error) (closeStatus : Z).

(** How a connection loop stands after it has consumed the reads it was
    given: still reading, or returned with or without an error. *)
Inductive LoopExit : Type :=
| Reading
| Returned (err : option error).

(** ** Handlers as state transformers *)

Inductive outcome (S A : Type) : Type :=
| Done (a : A) (st : S)
| Panic (msg : string) (st : S).
Arguments Done {S A} a st.
Arguments Panic {S A} msg st.

Definition M (S A : Type) : Type := S -> outcome S A.

Definition ret {S A} (a : A) : M S A := fun st => Done a st.

Definition bind {S A B} (m : M S A) (k : A -> M S B) : M S B :=
  fun st =>
    match m st with
    | Done a st' => k a st'
    | Panic msg st' => Panic msg st'
    end.

Definition get {S} : M S S := fun st => Done st st.
Definition put {S} (st : S) : M S unit := fun _ => Done tt st.
Definition panic {S A} (msg : string) : M S A := fun st => Panic msg st.

Declare Scope go_scope.
Delimit Scope go_scope with go.
Notation "'do' x <- m ; k" := (bind m (fun x => k))
  (at level 10, x name, m at level 100, k at level 200) : go_scope.
Notation "'run' m ; k" := (bind m (fun _ => k))
  (at level 10, m at level 100, k at level 200) : go_scope.
Open Scope go_scope.

(** The final state of an outcome, whichever way it ended. *)
Definition final {S A} (o : outcome S A) : S :=
  match o with
  | Done _ st => st
  | Panic _ st => st
  end.

(** ** github.com/tinylib/msgp/msgp: the encoders and decoders used

    Big-endian integers of 1, 2, 4 and 8 bytes. *)
Module msgp.

Definition be16 (z : Z) : bytes := [u8 (Z.shiftr z 8); u8 z].
Definition be32 (z : Z) : bytes :=
  [u8 (Z.shiftr z 24); u8 (Z.shiftr z 16); u8 (Z.shiftr z 8); u8 z].
Definition be64 (z : Z) : bytes :=
  be32 (Z.shiftr z 32) ++ be32 z.

Definition AppendNil (b : bytes) : bytes := b ++ [xc0].

(** [AppendArrayHeader(b, sz)] with [sz : uint32]. *)
Definition AppendArrayHeader (b : bytes) (sz : Z) : bytes :=
  if sz <=? 15 then b ++ [u8 (Z.lor 144 sz)]
  else if sz <=? 65535 then b ++ xdc :: be16 sz
  else b ++ xdd :: be32 sz.

Definition AppendString (b : bytes) (s : string) : bytes :=
  let sz := len s in
  if sz <=? 31 then b ++ u8 (Z.lor 160 sz) :: bytes_of_string s
  else if sz <=? 255 then b ++ xd9 :: u8 sz :: bytes_of_string s
  else if sz <=? 65535 then b ++ xda :: be16 sz ++ bytes_of_string s
  else b ++ xdb :: be32 sz ++ bytes_of_string s.

(** [AppendInt(b, i)]: the shortest signed form that holds [i]. *)
Definition AppendInt (b : bytes) (i : Z) : bytes :=
  if 0 <=? i then
    if i <=? 127 then b ++ [u8 i]
    else if i <=? 32767 then b ++ xd1 :: be16 i
    else if i <=? 2147483647 then b ++ xd2 :: be32 i
    else b ++ xd3 :: be64 i
  else
    if -32 <=? i then b ++ [u8 i]
    else if -128 <=? i then b ++ [xd0; u8 i]
    else if -32768 <=? i then b ++ xd1 :: be16 i
    else if -2147483648 <=? i then b ++ xd2 :: be32 i
    else b ++ xd3 :: be64 i.

(** *** Decoding *)

Definition ErrShortBytes : error := "msgp: too few bytes left to read object".

(** A byte as an unsigned number, and big-endian numbers of a prefix. *)
Definition uint (b : byte) : Z := Z.of_N (Byte.to_N b).

Fixpoint big (n : nat) (b : bytes) : Z :=
  match n, b with
  | S n', x :: b' => uint x * 2 ^ (8 * Z.of_nat n') + big n' b'
  | _, _ => 0
  end.

(** [b[n:]] when [len(b) >= n]. *)
Definition from (n : Z) (b : bytes) : bytes := drop (Z.to_nat n) b.
Definition upto (n : Z) (b : bytes) : bytes := take (Z.to_nat n) b.
Definition blen (b : bytes) : Z := Z.of_nat (length b).

Definition ReadArrayHeaderBytes (b : bytes) : result (Z * bytes) :=
  match b with
  | [] => Err ErrShortBytes
  | lead :: rest =>
      let l := uint lead in
      if (144 <=? l) && (l <=? 159) then Ok (Z.land l 15, rest)
      else if l =? 220 then
        if blen b <? 3 then Err ErrShortBytes else Ok (big 2 rest, from 3 b)
      else if l =? 221 then
        if blen b <? 5 then Err ErrShortBytes else Ok (big 4 rest, from 5 b)
      else Err "msgp: attempted to decode a value that is not an array with method for array"
  end.

Definition ReadStringBytes (b : bytes) : result (string * bytes) :=
  match b with
  | [] => Err ErrShortBytes
  | lead :: rest =>
      let l := uint lead in
      let hdr : result (Z * bytes) :=
        if (160 <=? l) && (l <=? 191) then Ok (Z.land l 31, rest)
        else if l =? 217 then
          if blen b <? 2 then Err ErrShortBytes else Ok (big 1 rest, from 2 b)
        else if l =? 218 then
          if blen b <? 3 then Err ErrShortBytes else Ok (big 2 rest, from 3 b)
        else if l =? 219 then
          if blen b <? 5 then Err ErrShortBytes else Ok (big 4 rest, from 5 b)
        else Err "msgp: attempted to decode a value that is not a str with method for str" in
      match hdr with
      | Err e => Err e
      | Ok (read, b') =>
          if blen b' <? read then Err ErrShortBytes
          else Ok (string_of_bytes (upto read b'), from read b')
      end
  end.

(** [getSize]: the number of bytes of the object that starts [b], without
    the objects nested in it, and the number of those nested objects. *)
Definition getSize (b : bytes) : result (Z * Z) :=
  match b with
  | [] => Err ErrShortBytes
  | lead :: rest =>
      let l := uint lead in
      let fixed (n : Z) : result (Z * Z) := Ok (n, 0) in
      let extra (hdr : nat) (add : Z) : result (Z * Z) :=
        if blen rest <? Z.of_nat hdr then Err ErrShortBytes
        else Ok (big hdr rest + add, 0) in
      let nested (hdr : nat) (per : Z) : result (Z * Z) :=
        if blen rest <? Z.of_nat hdr then Err ErrShortBytes
        else Ok (1 + Z.of_nat hdr, per * big hdr rest) in
      if l <=? 127 then fixed 1
      else if l <=? 143 then Ok (1, 2 * Z.land l 15)
      else if l <=? 159 then Ok (1, Z.land l 15)
      else if l <=? 191 then fixed (1 + Z.land l 31)
      else if l =? 192 then fixed 1
      else if l =? 193 then Err "msgp: unrecognized type byte"
      else if l <=? 195 then fixed 1
      else if l =? 196 then extra 1%nat 2
      else if l =? 197 then extra 2%nat 3
      else if l =? 198 then extra 4%nat 5
      else if l =? 199 then extra 1%nat 3
      else if l =? 200 then extra 2%nat 4
      else if l =? 201 then extra 4%nat 6
      else if l =? 202 then fixed 5
      else if l =? 203 then fixed 9
      else if l =? 204 then fixed 2
      else if l =? 205 then fixed 3
      else if l =? 206 then fixed 5
      else if l =? 207 then fixed 9
      else if l =? 208 then fixed 2
      else if l =? 209 then fixed 3
      else if l =? 210 then fixed 5
      else if l =? 211 then fixed 9
      else if l =? 212 then fixed 3
      else if l =? 213 then fixed 4
      else if l =? 214 then fixed 6
      else if l =? 215 then fixed 10
      else if l =? 216 then fixed 18
      else if l =? 217 then extra 1%nat 2
      else if l =? 218 then extra 2%nat 3
      else if l =? 219 then extra 4%nat 5
      else if l =? 220 then nested 2%nat 1
      else if l =? 221 then nested 4%nat 1
      else if l =? 222 then nested 2%nat 2
      else if l =? 223 then nested 4%nat 2
      else fixed 1
  end.

(** [Skip]: drop one whole object from the front of [b].  The library
    recurses into the nested objects; here [n] counts the objects still to
    drop, and the fuel bounds the number of steps (every object takes at
    least one byte, so [length b] steps are enough). *)
Fixpoint skip_objects (fuel : nat) (n : Z) (b : bytes) : result bytes :=
  if n <=? 0 then Ok b
  else
    match fuel with
    | O => Err ErrShortBytes
    | S fuel' =>
        match getSize b with
        | Err e => Err e
        | Ok (sz, asz) =>
            if blen b <? sz then Err ErrShortBytes
            else skip_objects fuel' (n - 1 + asz) (from sz b)
        end
    end.

Definition Skip (b : bytes) : result bytes :=
  skip_objects (length b) 1 b.

(** [IsNil]: the next object is nil. *)
Definition IsNil (b : bytes) : bool :=
  match b with
  | xc0 :: _ => true
  | _ => false
  end.

(** [msgp.Raw]: an object kept in its encoded form.  [Raw.UnmarshalMsg]
    copies the bytes of the next object, and keeps none for nil: the [Raw]
    then has length 0. *)
Definition Raw := bytes.

Definition Raw_UnmarshalMsg (b : bytes) : result (Raw * bytes) :=
  match Skip b with
  | Err e => Err e
  | Ok out =>
      let rlen := blen b - blen out in
      let rlen := if IsNil (upto rlen b) then 0 else rlen in
      Ok (upto rlen b, out)
  end.

(** The interface [msgp.MarshalSizer], as far as the runtime calls it. *)
Record MarshalSizer : Type := mkMarshalSizer {
  MarshalMsg : bytes -> result bytes
}.

(** The interface [msgp.Unmarshaler] for a pointer to [I]: decode one value
    from the front of the bytes and return the rest. *)
Class Unmarshaler (I : Type) : Type := {
  UnmarshalMsg : bytes -> result (I * bytes)
}.

(** A type whose pointer is a [msgp.MarshalSizer]. *)
Class Marshaler (O : Type) : Type := {
  marshal : O -> MarshalSizer
}.

End msgp.

(** ** rig/mrpc/internal/protocol *)
Module mrpc_protocol.

Record Request : Type := mkRequest {
  ID : string;
  Method : string;
  Function : string;
  Input : msgp.Raw
}.

Record Response : Type := mkResponse {
  rsID : string;
  rsMethod : string;
  Output : option msgp.MarshalSizer
}.

Record Fail : Type := mkFail {
  Code : Z;
  Msg : string
}.

(** [Response.MarshalMsg]. *)
Definition Response_MarshalMsg (rs : Response) (b : bytes) : result bytes :=
  let b := msgp.AppendArrayHeader b 3 in
  let b := msgp.AppendString b (rsID rs) in
  let b := msgp.AppendString b (rsMethod rs) in
  match Output rs with
  | None => Ok (msgp.AppendNil b)
  | Some output => msgp.MarshalMsg output b
  end.

(** Modelled from the spec: the generated [Fail.MarshalMsg] is not among the
    sources.  The directive [//msgp:tuple Request Fail] asks for the tuple
    form, a two-element array of the code and the message. *)
Definition Fail_MarshalMsg (z : Fail) (b : bytes) : result bytes :=
  let o := msgp.AppendArrayHeader b 2 in
  let o := msgp.AppendInt o (Code z) in
  Ok (msgp.AppendString o (Msg z)).

#[global] Instance Fail_Marshaler : msgp.Marshaler Fail :=
  {| msgp.marshal z := msgp.mkMarshalSizer (Fail_MarshalMsg z) |}.

(** Modelled from the spec: the generated [Request.UnmarshalMsg] is not among
    the sources.  A request is the 4-tuple of its id, kind, function and
    opaque input. *)
Definition Request_UnmarshalMsg (bts : bytes) : result (Request * bytes) :=
  match msgp.ReadArrayHeaderBytes bts with
  | Err e => Err e
  | Ok (sz, bts) =>
      if negb (sz =? 4) then Err "msgp: wanted array of size 4"
      else
        match msgp.ReadStringBytes bts with
        | Err e => Err e
        | Ok (id, bts) =>
            match msgp.ReadStringBytes bts with
            | Err e => Err e
            | Ok (method, bts) =>
                match msgp.ReadStringBytes bts with
                | Err e => Err e
                | Ok (function, bts) =>
                    match msgp.Raw_UnmarshalMsg bts with
                    | Err e => Err e
                    | Ok (input, bts) =>
                        Ok (mkRequest id method function input, bts)
                    end
                end
            end
        end
  end.

End mrpc_protocol.

(** ** rig/mrpc *)
Module mrpc.
Import mrpc_protocol.

(** The send function of a scope: a closure over the connection. *)
Definition SendFn : Type := bytes -> Conn -> option error * Conn.

(** A [Scope] embeds the request; [send] is [None] when the Go field is
    [nil].  The embedded [context.Context] carries cancellation and logging
    values only and is left out. *)
Record Scope : Type := mkScope {
  Request : mrpc_protocol.Request;
  send : option SendFn
}.

(** What a handler works on: the scope it was given a pointer to, and the
    connection its send function writes to. *)
Definition State : Type := (Scope * Conn)%type.

Definition Handler : Type := M State unit.

Definition For (req : mrpc_protocol.Request) (send : option SendFn) : Scope :=
  mkScope req send.

(** [ctx.send = nil] *)
Definition clear_send : M State unit :=
  fun st => Done tt (mkScope (Request (fst st)) None, snd st).

(** [ctx.send(msg)], for a send function known not to be nil. *)
Definition call_send (f : SendFn) (msg : bytes) : M State (option error) :=
  fun st => let (err, c) := f msg (snd st) in Done err (fst st, c).

Definition Respond (method : string) (output : option msgp.MarshalSizer)
  : M State (option error) :=
  do st <- get;
  match send (fst st) with
  | None => ret (Some "response not supported")
  | Some f =>
      let r := mkResponse (ID (Request (fst st))) method output in
      match Response_MarshalMsg r [] with
      | Err err => ret (Some (err +:+ " while encoding response"))
      | Ok msg => call_send f msg
      end
  end.

Definition Succ (output : option msgp.MarshalSizer) : M State (option error) :=
  Respond "succ" output.

Definition Yield (output : option msgp.MarshalSizer) : M State (option error) :=
  Respond "yield" output.

Definition End : M State (option error) :=
  do err <- Respond "end" None;
  run clear_send;
  ret err.

Definition Fail (code : Z) (msg : string) : M State (option error) :=
  do err <- Respond "fail" (Some (msgp.marshal (mkFail code msg)));
  run clear_send;
  ret err.

(** The two handler tables of a [config]. *)
Record Tables : Type := mkTables {
  startHandlers : gmap string Handler;
  callHandlers : gmap string Handler
}.

(** [init] stores in [cfg.handler] the method value [cfg.handleRequest]: it
    is bound to the pointer [cfg] and reads the tables when a request is
    handled, after every option has been applied.  The handler of a
    [config] is therefore a function of the tables. *)
Record config : Type := mkConfig {
  handler : Tables -> Handler;
  tables : Tables
}.

Definition Option : Type := config -> config.

Definition Use (fn : Handler -> Handler) : Option :=
  fun cfg => mkConfig (fun t => fn (handler cfg t)) (tables cfg).

Section dispatch.

(** The verb [%q] of [fmt.Sprintf] on a string, that is [strconv.Quote]. *)
Variable Quote : string -> string.

Definition handleRequest (t : Tables) : Handler :=
  do st <- get;
  let ctx := Request (fst st) in
  let lookup (table : gmap string Handler) : Handler :=
    match table !! Function ctx with
    | None =>
        run Fail 404 ("function " +:+ Quote (Function ctx) +:+ " not found");
        ret tt
    | Some handler => handler
    end in
  if String.eqb (Method ctx) "call" then lookup (callHandlers t)
  else if String.eqb (Method ctx) "start" then lookup (startHandlers t)
  else run Fail 404 "method not found"; ret tt.

Definition init (options : list Option) : config :=
  fold_left (fun cfg opt => opt cfg) options
    (mkConfig handleRequest (mkTables ∅ ∅)).

End dispatch.

(** The closure that [CallFn] stores; the type parameters [PI] and [PO] are
    the two instances. *)
Definition CallFn_handler {I O : Type} `{msgp.Unmarshaler I} `{msgp.Marshaler O}
    (fn : I -> M State (result O)) : Handler :=
  do st <- get;
  match msgp.UnmarshalMsg (Input (Request (fst st))) with
  | Err err =>
      run Fail 406 (err +:+ " while decoding input");
      ret tt
  | Ok (input, _) =>
      do r <- fn input;
      match r with
      | Err err => run Fail 500 err; ret tt
      | Ok out => run Succ (Some (msgp.marshal out)); ret tt
      end
  end.

(** [cfg.callHandlers[function] = func(ctx *Scope) {...}] *)
Definition CallFn {I O : Type} `{msgp.Unmarshaler I} `{msgp.Marshaler O}
    (function : string) (fn : I -> M State (result O)) : Option :=
  fun cfg =>
    mkConfig (handler cfg)
      (mkTables (startHandlers (tables cfg))
                (<[function := CallFn_handler fn]> (callHandlers (tables cfg)))).

(** The closure that [StartFn] stores: the input is decoded to check it,
    and [fn] gets the scope only. *)
Definition StartFn_handler {I : Type} `{msgp.Unmarshaler I}
    (fn : M State (option error)) : Handler :=
  do st <- get;
  match msgp.UnmarshalMsg (Input (Request (fst st))) with
  | Err err =>
      run Fail 406 (err +:+ " while decoding input");
      ret tt
  | Ok _ =>
      do err <- fn;
      match err with
      | Some e => run Fail 500 e; ret tt
      | None => run End; ret tt
      end
  end.

Definition StartFn {I : Type} `{msgp.Unmarshaler I}
    (function : string) (fn : M State (option error)) : Option :=
  fun cfg =>
    mkConfig (handler cfg)
      (mkTables (<[function := StartFn_handler fn]> (startHandlers (tables cfg)))
                (callHandlers (tables cfg))).

(** *** The connection loop

    [serveHTTP] reads until [Read] fails.  Every request it decodes is handed
    to a goroutine of its own; the loop itself writes nothing.  Its model
    consumes the results of the successive [Read] calls and returns the
    scopes it has dispatched, in order, and how the loop stands at the end. *)
Definition send_binary : SendFn := Conn_Write MessageBinary.

Fixpoint serve_loop (reads : list ReadEvent) : list Scope * LoopExit :=
  match reads with
  | [] => ([], Reading)
  | ReadErr err closeStatus :: _ =>
      if closeStatus <? 0 then ([], Returned (Some err))
      else ([], Returned None)
  | ReadMsg mt msg :: reads' =>
      if negb (MessageType_eqb mt MessageBinary) then serve_loop reads'
      else
        match Request_UnmarshalMsg msg with
        | Err err => ([], Returned (Some err))
        | Ok (req, _) =>
            let (spawned, exit) := serve_loop reads' in
            (For req (Some send_binary) :: spawned, exit)
        end
  end.

(** [accept] is the error of [websocket.Accept], if any. *)
Definition serveHTTP (accept : option error) (reads : list ReadEvent)
  : list Scope * LoopExit :=
  match accept with
  | Some err => ([], Returned (Some err))
  | None => serve_loop reads
  end.

(** One schedule of the goroutines: each handler runs to its end, in the
    order of dispatch.  The result is the connection afterwards.  Nothing
    recovers a panic of a handler, so it ends the process: the handlers
    after it do not run and the connection is left as it was then. *)
Fixpoint run_handlers (handle : Handler) (scopes : list Scope) (c : Conn)
  : Conn :=
  match scopes with
  | [] => c
  | ctx :: scopes' =>
      match handle (ctx, c) with
      | Done _ st => run_handlers handle scopes' (snd st)
      | Panic _ st => snd st
      end
  end.

(** A whole connection under that schedule: what has been written when the
    loop has consumed [reads] and every handler has finished. *)
Definition serve (cfg : config) (reads : list ReadEvent) (c : Conn)
  : Conn * LoopExit :=
  let (spawned, exit) := serveHTTP None reads in
  (run_handlers (handler cfg (tables cfg)) spawned c, exit).

End mrpc.

(** ** rig/jrpc/internal/protocol

    [any] is the type of the Go values a handler may hand over as a result,
    as parameters of a notification or as error data. *)
Module jrpc_protocol.

Record Request : Type := mkRequest {
  ID : string;
  Method : string;
  Params : bytes
}.

Record Error (any : Type) : Type := mkError {
  Code : Z;
  Message : string;
  Data : option any
}.
Arguments mkError {any} _ _ _.
Arguments Code {any} _.
Arguments Message {any} _.
Arguments Data {any} _.

Record Response (any : Type) : Type := mkResponse {
  rsID : string;
  Result : option any;
  rsError : option (Error any);
  End : bool
}.
Arguments mkResponse {any} _ _ _ _.
Arguments rsID {any} _.
Arguments Result {any} _.
Arguments rsError {any} _.
Arguments End {any} _.

Record Notification (any : Type) : Type := mkNotification {
  nMethod : string;
  nParams : option any
}.
Arguments mkNotification {any} _ _.

(** [json.Unmarshal(data, in)] for [in] a pointer to [I]. *)
Class Unmarshal (I : Type) : Type := {
  json_Unmarshal : bytes -> result I
}.

End jrpc_protocol.

(** ** rig/jrpc *)
Module jrpc.
Import jrpc_protocol.

Definition SendFn : Type := bytes -> Conn -> option error * Conn.

Record Scope : Type := mkScope {
  Request : jrpc_protocol.Request;
  send : option SendFn
}.

Definition State : Type := (Scope * Conn)%type.

Definition Handler : Type := M State unit.

Definition For (req : jrpc_protocol.Request) (send : option SendFn) : Scope :=
  mkScope req send.

Definition clear_send : M State unit :=
  fun st => Done tt (mkScope (Request (fst st)) None, snd st).

(** [ctx.send(msg)]: calling a nil function value panics. *)
Definition call_send (msg : bytes) : M State (option error) :=
  fun st =>
    match send (fst st) with
    | None => panic "runtime error: invalid memory address or nil pointer dereference" st
    | Some f => let (err, c) := f msg (snd st) in Done err (fst st, c)
    end.

Record Tables : Type := mkTables {
  procHandlers : gmap string Handler;
  callHandlers : gmap string Handler
}.

Record config : Type := mkConfig {
  handler : Tables -> Handler;
  readLimit : Z;
  tables : Tables
}.

Definition Option : Type := config -> config.

Definition ReadLimit (limit : Z) : Option :=
  fun cfg => mkConfig (handler cfg) limit (tables cfg).

Definition Use (fn : Handler -> Handler) : Option :=
  fun cfg => mkConfig (fun t => fn (handler cfg t)) (readLimit cfg) (tables cfg).

Section runtime.

Context {any : Type}.

(** The calls of [encoding/json] that the package makes.  The encoder and
    the decoder are the standard library's and are parameters here. *)
Variable Marshal_Response : Response any -> result bytes.
Variable Marshal_Notification : Notification any -> result bytes.
Variable Marshal_any : option any -> result bytes.
Variable Marshal_Request : jrpc_protocol.Request -> result bytes.
Variable Unmarshal_Request : bytes -> result jrpc_protocol.Request.

(** [respond]; the [println] of the message goes to the standard error
    stream and is not part of the state. *)
Definition respond (r : Response any) : M State (option error) :=
  do st <- get;
  match send (fst st) with
  | None => ret (Some "response not supported")
  | Some _ =>
      let r := mkResponse (ID (Request (fst st))) (Result r)
                          (rsError r) (End r) in
      match Marshal_Response r with
      | Err err => ret (Some (err +:+ " while encoding response"))
      | Ok msg => call_send msg
      end
  end.

Definition Succ (result : option any) : M State (option error) :=
  respond (mkResponse "" result None false).

Definition Fail (code : Z) (msg : string) : M State (option error) :=
  do err <- respond (mkResponse "" None (Some (mkError code msg None)) false);
  run clear_send;
  ret err.

Definition Notify (method : string) (params : option any)
  : M State (option error) :=
  match Marshal_Notification (mkNotification method params) with
  | Err err => ret (Some err)
  | Ok js => call_send js
  end.

Definition Call (method : string) (params : option any)
  : M State (option error) :=
  match Marshal_any params with
  | Err err => ret (Some err)
  | Ok js =>
      match Marshal_Request (mkRequest "" method js) with
      | Err err => ret (Some err)
      | Ok js => call_send js
      end
  end.

(** The verb [%q] of [fmt.Sprintf] on a string, that is [strconv.Quote]. *)
Variable Quote : string -> string.

Definition handleRequest (t : Tables) : Handler :=
  do st <- get;
  let ctx := Request (fst st) in
  let table :=
    if String.eqb (ID ctx) "" then procHandlers t else callHandlers t in
  match table !! Method ctx with
  | None =>
      run Fail 404 ("function " +:+ Quote (Method ctx) +:+ " not found");
      ret tt
  | Some handler => handler
  end.

Definition init (options : list Option) : config :=
  fold_left (fun cfg opt => opt cfg) options
    (mkConfig handleRequest (-1) (mkTables ∅ ∅)).

(** The closure that [Proc] stores. *)
Definition Proc_handler {I : Type} `{Unmarshal I}
    (fn : I -> M State unit) : Handler :=
  do st <- get;
  match json_Unmarshal (Params (Request (fst st))) with
  | Err err =>
      run Fail 406 (err +:+ " while decoding input");
      ret tt
  | Ok input => fn input
  end.

Definition Proc {I : Type} `{Unmarshal I}
    (function : string) (fn : I -> M State unit) : Option :=
  fun cfg =>
    mkConfig (handler cfg) (readLimit cfg)
      (mkTables (<[function := Proc_handler fn]> (procHandlers (tables cfg)))
                (callHandlers (tables cfg))).

(** The closure that [Fn] stores.  The output of type [O] is passed to
    [Succ] as an [any], so the user function is taken to return one ([None]
    for a nil interface value). *)
Definition Fn_handler {I : Type} `{Unmarshal I}
    (fn : I -> M State (result (option any))) : Handler :=
  do st <- get;
  match json_Unmarshal (Params (Request (fst st))) with
  | Err err =>
      run Fail 406 (err +:+ " while decoding input");
      ret tt
  | Ok input =>
      do r <- fn input;
      match r with
      | Err err => run Fail 500 err; ret tt
      | Ok out => run Succ out; ret tt
      end
  end.

Definition Fn {I : Type} `{Unmarshal I}
    (function : string) (fn : I -> M State (result (option any))) : Option :=
  fun cfg =>
    mkConfig (handler cfg) (readLimit cfg)
      (mkTables (procHandlers (tables cfg))
                (<[function := Fn_handler fn]> (callHandlers (tables cfg)))).

(** *** The connection loop, as for mrpc *)

Definition send_text : SendFn := Conn_Write MessageText.

Fixpoint serve_loop (reads : list ReadEvent) : list Scope * LoopExit :=
  match reads with
  | [] => ([], Reading)
  | ReadErr err closeStatus :: _ =>
      if closeStatus <? 0 then ([], Returned (Some err))
      else ([], Returned None)
  | ReadMsg mt msg :: reads' =>
      if negb (MessageType_eqb mt MessageText) then serve_loop reads'
      else
        match Unmarshal_Request msg with
        | Err err => ([], Returned (Some err))
        | Ok req =>
            let (spawned, exit) := serve_loop reads' in
            (For req (Some send_text) :: spawned, exit)
        end
  end.

Definition serveHTTP (accept : option error) (reads : list ReadEvent)
  : list Scope * LoopExit :=
  match accept with
  | Some err => ([], Returned (Some err))
  | None => serve_loop reads
  end.

Fixpoint run_handlers (handle : Handler) (scopes : list Scope) (c : Conn)
  : Conn :=
  match scopes with
  | [] => c
  | ctx :: scopes' =>
      match handle (ctx, c) with
      | Done _ st => run_handlers handle scopes' (snd st)
      | Panic _ st => snd st
      end
  end.

Definition serve (cfg : config) (reads : list ReadEvent) (c : Conn)
  : Conn * LoopExit :=
  let (spawned, exit) := serveHTTP None reads in
  (run_handlers (handler cfg (tables cfg)) spawned c, exit).

End runtime.

End jrpc.

(** ** rig/hook *)
Module hook.

(** Run [f] over the items from left to right, stopping at a failure. *)
Fixpoint each {S : Type} (f : nat -> S -> option S) (items : list nat) (st : S)
  : option S :=
  match items with
  | [] => Some st
  | j :: items' =>
      match f j st with
      | None => None
      | Some st' => each f items' st'
      end
  end.

Section Order.

(** A hook is any value.  [Provides h] is [Some names] when [h] implements
    [Provider], and likewise [DependsOn] for [Dependent]. *)
Context {A : Type}.
Variable Provides : A -> option (list string).
Variable DependsOn : A -> option (list string).

(** [dependencies[name] = append(dependencies[name], i)] *)
Definition provide (i : nat) (dependencies : gmap string (list nat))
    (name : string) : gmap string (list nat) :=
  <[name := default [] (dependencies !! name) ++ [i]]> dependencies.

(** The first loop of [Order], from index [i] on. *)
Fixpoint collect (i : nat) (hooks : list A)
    (dependencies : gmap string (list nat)) : gmap string (list nat) :=
  match hooks with
  | [] => dependencies
  | hook :: hooks' =>
      let dependencies :=
        match Provides hook with
        | Some names => fold_left (provide i) names dependencies
        | None => dependencies
        end in
      collect (S i) hooks' dependencies
  end.

(** [sort.Ints] *)
Definition sort_Ints (items : list nat) : list nat := merge_sort Nat.le items.

(** The indices gathered for a dependent hook, before they are sorted. *)
Definition gather (dependencies : gmap string (list nat))
    (names : list string) : list nat :=
  fold_left (fun items name => items ++ default [] (dependencies !! name))
    names [].

Section place.

Variable hooks : list A.
Variable dependencies : gmap string (list nat).

(** The variables [placed] and [order] that the closure [place] updates. *)
Definition state : Type := (list bool * list A)%type.

(** [place(i)].  An index out of range panics: the result is [None].  The
    closure is recursive; [fuel] bounds the depth of the calls, and [None]
    is also the result when it runs out. *)
Fixpoint place (fuel : nat) (i : nat) (st : state) : option state :=
  match fuel with
  | O => None
  | S fuel' =>
      let (placed, order) := st in
      match placed !! i with
      | None => None
      | Some true => Some st
      | Some false =>
          let placed := <[i := true]> placed in
          match hooks !! i with
          | None => None
          | Some hook =>
              let placed_all :=
                match DependsOn hook with
                | Some names =>
                    let items := sort_Ints (gather dependencies names) in
                    each (place fuel') items (placed, order)
                | None => Some (placed, order)
                end in
              match placed_all with
              | None => None
              | Some (placed, order) => Some (placed, order ++ [hook])
              end
          end
      end
  end.

End place.

(** [Order].  Every call of [place] that goes one level deeper has marked
    one more hook, so the depth never exceeds the number of hooks. *)
Definition Order (hooks : list A) : option (list A) :=
  let dependencies := collect 0 hooks ∅ in
  let fuel := S (length hooks) in
  match each (place hooks dependencies fuel) (seq 0 (length hooks))
             (replicate (length hooks) false, []) with
  | None => None
  | Some (_, order) => Some order
  end.

End Order.

End hook.


(** ** rig: the configuration and its options

    The file [rig/rig.go] holds the package twice; the definitions follow
    the second, later text (the [Config] with the field [worker]), whose
    [Config.Apply] reorders the hooks and which alone has [rig.Apply].
    [New], [Config.Hook] and [Watch] read the same in both. *)
Module rig.

Section Config.

(** The hooks are values of any type; [Provides] and [DependsOn] are the
    type assertions of [hook.Order]. *)
Context {A : Type}.
Variable Provides : A -> option (list string).
Variable DependsOn : A -> option (list string).

(** A [Config], without the channel [done]. *)
Record Config : Type := mkConfig {
  serve : bool;
  serving : bool;
  worker : bool;
  hooks : list A;
  watch : list (string * list string)
}.

(** An option works on a pointer to the configuration and returns an
    error. *)
Definition Option : Type := Config -> option error * Config.

Definition Hook (new : list A) (cfg : Config) : Config :=
  mkConfig (serve cfg) (serving cfg) (worker cfg) (hooks cfg ++ new) (watch cfg).

Definition Watch (dir : string) (patterns : list string) : Option :=
  fun cfg =>
    (None,
     mkConfig (serve cfg) (serving cfg) (worker cfg) (hooks cfg)
       (watch cfg ++ [(dir, patterns)])).

(** The loop over the options that [Apply] and [Config.Apply] both have:
    each option in turn, returning the first error. *)
Fixpoint each_option (options : list Option) (cfg : Config)
  : option error * Config :=
  match options with
  | [] => (None, cfg)
  | option :: options' =>
      match option cfg with
      | (Some err, cfg') => (Some err, cfg')
      | (None, cfg') => each_option options' cfg'
      end
  end.

(** [rig.Apply]: an option that applies a set of options. *)
Definition Apply (options : list Option) : Option := each_option options.

(** [Config.Apply].  The result is [None] if [hook.Order] panics. *)
Definition Config_Apply (options : list Option) (cfg : Config)
  : option (option error * Config) :=
  if serving cfg then
    Some (Some "cannot apply options while a rig is running", cfg)
  else if serve cfg then
    Some (Some "cannot apply options after a rig has been run", cfg)
  else
    match each_option options cfg with
    | (Some err, cfg') => Some (Some err, cfg')
    | (None, cfg') =>
        match hook.Order Provides DependsOn (hooks cfg') with
        | None => None
        | Some ordered =>
            Some (None,
                  mkConfig (serve cfg') (serving cfg') (worker cfg') ordered
                    (watch cfg'))
        end
    end.

(** [new(Config)] *)
Definition zero : Config := mkConfig false false false [] [].

(** [New]: the configuration, or the error of [Apply]. *)
Definition New (options : list Option) : option (result Config) :=
  match Config_Apply options zero with
  | None => None
  | Some (Some err, _) => Some (Err err)
  | Some (None, cfg) => Some (Ok cfg)
  end.

End Config.

End rig.

(** ** rig/api: HTTP handlers and their middleware

    [H] stands for [http.Handler]. *)
Module api.

Section api.

Variable H : Type.

Record config : Type := mkConfig {
  middleware : list (H -> H);
  patternHandlers : list (string * H);
  err : option error
}.

Definition Option : Type := config -> option error * config.

Definition Use (fn : H -> H) : Option :=
  fun cfg =>
    (None, mkConfig (middleware cfg ++ [fn]) (patternHandlers cfg) (err cfg)).

(** The closure that [Handle] returns.  The loop runs over the middleware
    from the last index down to the first, and it assigns the wrapped
    handler to the variable [handler] that the closure has captured: one
    call of the closure takes the value the variable holds and returns,
    first, the value it holds afterwards. *)
Definition Handle_closure (pattern : string) (handler : H) (cfg : config)
  : H * (option error * config) :=
  let handler := fold_left (fun h fn => fn h) (rev (middleware cfg)) handler in
  (handler,
   (None,
    mkConfig (middleware cfg) (patternHandlers cfg ++ [(pattern, handler)])
      (err cfg))).

(** [Handle]: the option, at the first call of its closure, when the
    variable holds the handler given. *)
Definition Handle (pattern : string) (handler : H) : Option :=
  fun cfg => snd (Handle_closure pattern handler cfg).

(** [FS]; [fs] is the file server [http.FileServer(http.FS(filesystem))]. *)
Definition FS (fs : H) (patterns : list string) : Option :=
  fun cfg =>
    (None,
     mkConfig (middleware cfg)
       (fold_left (fun phs pattern => phs ++ [(pattern, fs)]) patterns
          (patternHandlers cfg))
       (err cfg)).

(** The loop of [Group] over its options. *)
Fixpoint group_each (options : list Option) (cfg : config)
  : option error * config :=
  match options with
  | [] => (None, cfg)
  | option :: options' =>
      match option cfg with
      | (Some e, cfg') => (Some e, cfg')
      | (None, cfg') => group_each options' cfg'
      end
  end.

(** [Group]: the deferred function puts the middleware back, whichever way
    the loop ends. *)
Definition Group (options : list Option) : Option :=
  fun cfg =>
    let old := middleware cfg in
    let (e, cfg') := group_each options cfg in
    (e, mkConfig old (patternHandlers cfg') (err cfg')).

(** [config.apply] *)
Fixpoint apply (options : list Option) (cfg : config) : config :=
  match options with
  | [] => cfg
  | option :: options' =>
      match err cfg with
      | Some _ => cfg
      | None =>
          let (e, cfg') := option cfg in
          apply options' (mkConfig (middleware cfg') (patternHandlers cfg') e)
      end
  end.

(** The zero value [var cfg config]. *)
Definition zero : config := mkConfig [] [] None.

(** [config.rigOption]: the configuration is added to the hooks of the rig
    and the result is nil. *)
Definition rigOption (cfg : config) : @rig.Option config :=
  fun r => (None, rig.Hook [cfg] r).

(** [Rig] *)
Definition Rig (options : list Option) : @rig.Option config :=
  rigOption (apply options zero).

End api.

End api.

(** ** rig/watcher: which file names raise an alert

    [Glob] stands for [glob.Glob] and [Match] for its method. *)
Module watcher.

Section watcher.

Variable Glob : Type.
Variable Match : Glob -> string -> bool.

Definition shouldInclude (includes excludes : list Glob) (name : string)
  : bool :=
  let included :=
    (Nat.eqb (length includes) 0 || existsb (fun rx => Match rx name) includes)%bool in
  if negb included then false
  else negb (existsb (fun rx => Match rx name) excludes).

End watcher.

End watcher.

(** ** Sample instances

    Concrete payload types and encoders, for the examples below. *)
Module sample.

(** The double quote character. *)
Definition dq : string := String (ascii_of_nat 34) EmptyString.
Definition backslash : string := String (ascii_of_nat 92) EmptyString.

(** Escape the double quote and the backslash, and leave every other
    character as it is. *)
Fixpoint escape (s : string) : string :=
  match s with
  | EmptyString => EmptyString
  | String a s' =>
      if (Ascii.eqb a (ascii_of_nat 34) || Ascii.eqb a (ascii_of_nat 92))%bool
      then backslash +:+ String a (escape s')
      else String a (escape s')
  end.

(** [strconv.Quote] on strings of printable ASCII characters; the escapes
    of the other characters are not modelled. *)
Definition Quote (s : string) : string := dq +:+ escape s +:+ dq.

(** A payload type [type Text string] with the code msgp generates for it. *)
#[global] Instance Text_Unmarshaler : msgp.Unmarshaler string :=
  {| msgp.UnmarshalMsg := msgp.ReadStringBytes |}.

#[global] Instance Text_Marshaler : msgp.Marshaler string :=
  {| msgp.marshal s :=
       msgp.mkMarshalSizer (fun b => Ok (msgp.AppendString b s)) |}.

(** JSON values that are handed over already encoded ([json.RawMessage]). *)
Definition RawMessage : Type := bytes.

Definition json_string (s : string) : string := dq +:+ escape s +:+ dq.

Definition json_int (z : Z) : string :=
  pretty z.

Definition json_raw (v : option RawMessage) : string :=
  match v with
  | None => "null"
  | Some raw => string_of_bytes raw
  end.

Definition json_field (name : string) (value : string) : string :=
  dq +:+ name +:+ dq +:+ ":" +:+ value.

Definition json_Error (e : option (jrpc_protocol.Error RawMessage)) : string :=
  match e with
  | None => "null"
  | Some e =>
      "{" +:+ json_field "code" (json_int (jrpc_protocol.Code e)) +:+ ","
          +:+ json_field "message" (json_string (jrpc_protocol.Message e))
          +:+ match jrpc_protocol.Data e with
              | None => ""
              | Some raw => "," +:+ json_field "data" (string_of_bytes raw)
              end
          +:+ "}"
  end.

(** [json.Marshal] of a response whose strings are printable ASCII without
    the characters that the encoder writes as [\u] escapes. *)
Definition Marshal_Response (r : jrpc_protocol.Response RawMessage)
  : result bytes :=
  Ok (bytes_of_string
        ("{" +:+ json_field "id" (json_string (jrpc_protocol.rsID r)) +:+ ","
             +:+ json_field "result" (json_raw (jrpc_protocol.Result r)) +:+ ","
             +:+ json_field "error" (json_Error (jrpc_protocol.rsError r)) +:+ ","
             +:+ json_field "end" (if jrpc_protocol.End r then "true" else "false")
             +:+ "}")).

Definition Marshal_Notification (n : jrpc_protocol.Notification RawMessage)
  : result bytes :=
  Ok (bytes_of_string
        ("{" +:+ json_field "method" (json_string (jrpc_protocol.nMethod RawMessage n)) +:+ ","
             +:+ json_field "params" (json_raw (jrpc_protocol.nParams RawMessage n))
             +:+ "}")).

(** A parameter type that [json.Unmarshal] fills with the raw bytes; the
    empty input is not a JSON document. *)
#[global] Instance Raw_Unmarshal : jrpc_protocol.Unmarshal RawMessage :=
  {| jrpc_protocol.json_Unmarshal b :=
       match b with
       | [] => Err "unexpected end of JSON input"
       | _ => Ok b
       end |}.

(** [s] without the prefix [p], when it has that prefix. *)
Fixpoint strip (p s : string) : option string :=
  match p, s with
  | EmptyString, _ => Some s
  | String a p', String b s' => if Ascii.eqb a b then strip p' s' else None
  | String _ _, EmptyString => None
  end.

(** A string literal without escapes at the front of [s], up to its closing
    quote, and what follows it. *)
Fixpoint until_quote (s : string) : option (string * string) :=
  match s with
  | EmptyString => None
  | String a s' =>
      if Ascii.eqb a (ascii_of_nat 34) then Some (EmptyString, s')
      else if Ascii.eqb a (ascii_of_nat 92) then None
      else
        match until_quote s' with
        | None => None
        | Some (lit, rest) => Some (String a lit, rest)
        end
  end.

(** The last character removed, when it is the closing brace. *)
Fixpoint strip_brace (s : string) : option string :=
  match s with
  | EmptyString => None
  | String a EmptyString =>
      if Ascii.eqb a (ascii_of_nat 125) then Some EmptyString else None
  | String a s' =>
      match strip_brace s' with
      | None => None
      | Some r => Some (String a r)
      end
  end.

(** The member [id] at the front of an object, when there is one. *)
Definition optional_id (s : string) : string * string :=
  match strip (dq +:+ "id" +:+ dq +:+ ":" +:+ dq) s with
  | None => (EmptyString, s)
  | Some s1 =>
      match until_quote s1 with
      | None => (EmptyString, s)
      | Some (id, s2) =>
          match strip "," s2 with
          | None => (EmptyString, s)
          | Some s3 => (id, s3)
          end
      end
  end.

(** [json.Unmarshal] into a request, for the documents in the form the
    encoder writes them: the members [id] (optional), [method] and [params]
    in this order, without spaces and without escapes.  Other documents are
    rejected here, which the library need not do. *)
Definition Unmarshal_Request (msg : bytes) : result jrpc_protocol.Request :=
  let s := string_of_bytes msg in
  let rejected : result jrpc_protocol.Request :=
    Err "invalid character looking for beginning of value" in
  if String.eqb s "" then Err "unexpected end of JSON input"
  else
    match strip "{" s with
    | None => rejected
    | Some s =>
        let (id, s) := optional_id s in
        match strip (dq +:+ "method" +:+ dq +:+ ":" +:+ dq) s with
        | None => rejected
        | Some s =>
            match until_quote s with
            | None => rejected
            | Some (method, s) =>
                match strip ("," +:+ dq +:+ "params" +:+ dq +:+ ":") s with
                | None => rejected
                | Some s =>
                    match strip_brace s with
                    | None => rejected
                    | Some params =>
                        Ok (jrpc_protocol.mkRequest id method
                              (bytes_of_string params))
                    end
                end
            end
        end
    end.

End sample.

(** ** Vocabulary of the properties *)

(** The state a handler starts in when the connection loop of mrpc (jrpc)
    dispatches [req]: the scope [For(ctx, req, send)] and a healthy
    connection on which the messages [w] have been written. *)
Definition mrpc_dispatched (req : mrpc_protocol.Request)
    (w : list (MessageType * bytes)) : mrpc.State :=
  (mrpc.For req (Some mrpc.send_binary), mkConn w None).

Definition jrpc_dispatched (req : jrpc_protocol.Request)
    (w : list (MessageType * bytes)) : jrpc.State :=
  (jrpc.For req (Some jrpc.send_text), mkConn w None).

(** The same, once the scope has sent its terminal response: the send
    function is nil. *)
Definition mrpc_ended (req : mrpc_protocol.Request)
    (w : list (MessageType * bytes)) : mrpc.State :=
  (mrpc.For req None, mkConn w None).

Definition jrpc_ended (req : jrpc_protocol.Request)
    (w : list (MessageType * bytes)) : jrpc.State :=
  (jrpc.For req None, mkConn w None).

(** The binary frame of a response of mrpc whose output is encoded as [out]:
    the 3-tuple of the id, the method and the output. *)
Definition mrpc_frame (id method : string) (out : bytes) : MessageType * bytes :=
  (MessageBinary,
   msgp.AppendString (msgp.AppendString (msgp.AppendArrayHeader [] 3) id) method
     ++ out).

(** The encoding of [protocol.Fail{code, msg}]. *)
Definition mrpc_fail (code : Z) (msg : string) : bytes :=
  msgp.AppendString (msgp.AppendInt (msgp.AppendArrayHeader [] 2) code) msg.

Definition not_supported : option error := Some "response not supported".

(** Every response operation of a scope of mrpc reports the error and leaves
    the scope and the connection as they are. *)
Definition mrpc_sends_disabled (st : mrpc.State) : Prop :=
  (forall method output, mrpc.Respond method output st = Done not_supported st)
  /\ (forall output, mrpc.Succ output st = Done not_supported st)
  /\ (forall output, mrpc.Yield output st = Done not_supported st)
  /\ mrpc.End st = Done not_supported st
  /\ (forall code msg, mrpc.Fail code msg st = Done not_supported st).

(** The same for the response operations of a scope of jrpc. *)
Definition jrpc_sends_disabled {any : Type}
    (Marshal_Response : jrpc_protocol.Response any -> result bytes)
    (st : jrpc.State) : Prop :=
  (forall r, jrpc.respond Marshal_Response r st = Done not_supported st)
  /\ (forall result, jrpc.Succ Marshal_Response result st = Done not_supported st)
  /\ (forall code msg, jrpc.Fail Marshal_Response code msg st = Done not_supported st).

(** The message of the failure for an unknown function. *)
Definition function_not_found (Quote : string -> string) (name : string)
  : string :=
  "function " +:+ Quote name +:+ " not found".

(** The response of jrpc that [Fail(code, msg)] encodes for the request
    [id]. *)
Definition jrpc_failure {any : Type} (id : string) (code : Z) (msg : string)
  : jrpc_protocol.Response any :=
  jrpc_protocol.mkResponse id None
    (Some (jrpc_protocol.mkError code msg None)) false.

(** Scenario B of the specification: a call of the unknown function
    [nope]. *)
Definition scenario_B : mrpc_protocol.Request :=
  mrpc_protocol.mkRequest "2" "call" "nope" [].

Definition scenario_B_json : jrpc_protocol.Request :=
  jrpc_protocol.mkRequest "2" "nope" (bytes_of_string "null").

(** The message of the failure for an input that does not decode. *)
Definition while_decoding (err : error) : string :=
  err +:+ " while decoding input".

(** Sample user functions on text: an echo, and one that always fails. *)
Definition echo (input : string) : M mrpc.State (result string) :=
  ret (Ok input).

Definition boom (input : string) : M mrpc.State (result string) :=
  ret (Err "boom").

Definition echo_json (input : sample.RawMessage)
  : M jrpc.State (result (option sample.RawMessage)) :=
  ret (Ok (Some input)).

Definition boom_json (input : sample.RawMessage)
  : M jrpc.State (result (option sample.RawMessage)) :=
  ret (Err "boom").

(** A call of [echo] with the string [hi], and one whose input was nil on
    the wire: the request holds no bytes for it. *)
Definition call_echo_hi : mrpc_protocol.Request :=
  mrpc_protocol.mkRequest "1" "call" "echo" (msgp.AppendString [] "hi").

Definition call_echo_nil : mrpc_protocol.Request :=
  mrpc_protocol.mkRequest "1" "call" "echo" [].

Definition call_echo_json (params : bytes) : jrpc_protocol.Request :=
  jrpc_protocol.mkRequest "1" "echo" params.

(** The bytes of Scenario B's request, and the same call as a JSON
    document. *)
Definition scenario_B_bytes : bytes :=
  msgp.AppendNil
    (msgp.AppendString
       (msgp.AppendString
          (msgp.AppendString (msgp.AppendArrayHeader [] 4) "2") "call") "nope").

Definition scenario_B_text : bytes :=
  bytes_of_string
    ("{" +:+ sample.json_field "id" (sample.json_string "2") +:+ ","
     +:+ sample.json_field "method" (sample.json_string "nope") +:+ ","
     +:+ sample.json_field "params" "null" +:+ "}").

(** Modelled from the spec: how a client reads the frame of a response, the
    3-tuple of the id, the method and the output, which is kept in its
    encoded form.  The repository has no decoder of responses: its browser
    client hands the frame to a MessagePack library. *)
Definition decode_response (frame : bytes)
  : result (string * string * msgp.Raw) :=
  match msgp.ReadArrayHeaderBytes frame with
  | Err e => Err e
  | Ok (sz, b) =>
      if negb (sz =? 3) then Err "msgp: wanted array of size 3"
      else
        match msgp.ReadStringBytes b with
        | Err e => Err e
        | Ok (id, b) =>
            match msgp.ReadStringBytes b with
            | Err e => Err e
            | Ok (method, b) =>
                match msgp.Raw_UnmarshalMsg b with
                | Err e => Err e
                | Ok (output, _) => Ok (id, method, output)
                end
            end
        end
  end.

(** Middleware, composed in the two possible orders: the first of the list
    outermost, as the specification words it, and the last of the list
    outermost. *)
Definition first_outermost {H : Type} (fs : list (H -> H)) (base : H) : H :=
  fold_right (fun f h => f h) base fs.

Definition last_outermost {H : Type} (fs : list (H -> H)) (base : H) : H :=
  fold_left (fun h f => f h) fs base.

(** A middleware of mrpc that sends a response of the method [name] and
    then calls the next handler. *)
Definition tag (name : string) : mrpc.Handler -> mrpc.Handler :=
  fun next => run mrpc.Respond name None; next.

(** The messages of the other type are the ones a loop drops. *)
Definition is_text (r : ReadEvent) : bool :=
  match r with
  | ReadMsg MessageText _ => true
  | _ => false
  end.

Definition is_binary (r : ReadEvent) : bool :=
  match r with
  | ReadMsg MessageBinary _ => true
  | _ => false
  end.

(** *** The ordering in the words of the specification

    For each item in original order, place every item that provides any
    name the item depends on, in ascending order of the original indices,
    before placing the item itself; items already placed are skipped. *)
Section hook_specification.

Context {A : Type}.
Variable Provides : A -> option (list string).
Variable DependsOn : A -> option (list string).
Variable hooks : list A.

(** The item at index [j] provides one of the names. *)
Definition provides_any (names : list string) (j : nat) : bool :=
  match hooks !! j with
  | Some h =>
      match Provides h with
      | Some ps => existsb (fun name => bool_decide (name ∈ ps)) names
      | None => false
      end
  | None => false
  end.

(** The items that provide one of the names, in ascending index order. *)
Definition providers (names : list string) : list nat :=
  List.filter (provides_any names) (seq 0 (length hooks)).

Fixpoint place_in_words (fuel : nat) (i : nat) (st : list bool * list A)
  : option (list bool * list A) :=
  match fuel with
  | O => None
  | S fuel' =>
      match fst st !! i, hooks !! i with
      | Some true, _ => Some st
      | Some false, Some item =>
          match hook.each (place_in_words fuel')
                  (providers (default [] (DependsOn item)))
                  (<[i := true]> (fst st), snd st) with
          | None => None
          | Some (placed, order) => Some (placed, order ++ [item])
          end
      | _, _ => None
      end
  end.

Definition Order_in_words : option (list A) :=
  match hook.each (place_in_words (S (length hooks))) (seq 0 (length hooks))
          (replicate (length hooks) false, []) with
  | None => None
  | Some (_, order) => Some order
  end.

End hook_specification.

(** The marks of [placed]: the number of hooks not placed yet, and the
    order in which marks only get added. *)
Fixpoint free (placed : list bool) : nat :=
  match placed with
  | [] => O
  | b :: placed' => ((if b then 0 else 1) + free placed')%nat
  end.

Definition marked (placed : list bool) (k : nat) : Prop :=
  placed !! k = Some true.

Definition grows (p p' : list bool) : Prop :=
  Forall2 (fun b b' => b = true -> b' = true) p p'.

(** *** Hooks and their dependencies *)
Section hook_vocabulary.

Context {A : Type}.
Variable Provides : A -> option (list string).
Variable DependsOn : A -> option (list string).
Variable hooks : list A.

(** The hook at index [i] depends on a name that the hook at index [j]
    provides. *)
Definition depends (i j : nat) : Prop :=
  exists hi hj ds ps name,
    hooks !! i = Some hi /\ hooks !! j = Some hj
    /\ DependsOn hi = Some ds /\ Provides hj = Some ps
    /\ name ∈ ds /\ name ∈ ps.

(** No hook depends on itself, directly or through other hooks. *)
Definition acyclic : Prop := forall i, ~ tc depends i i.

(** [out] is the list of the hooks at the indices [idxs]. *)
Definition picks (idxs : list nat) (out : list A) : Prop :=
  Forall2 (fun i h => hooks !! i = Some h) idxs out.

(** In [idxs], the index [j] stands before the index [i]. *)
Definition before (j i : nat) (idxs : list nat) : Prop :=
  exists a b, idxs !! b = Some j /\ idxs !! a = Some i /\ (b < a)%nat.

(** Every index of the list has its dependencies before it. *)
Definition ordered (idxs : list nat) : Prop :=
  forall a k, idxs !! a = Some k ->
    forall j, depends k j -> exists b, (b < a)%nat /\ idxs !! b = Some j.

(** While [Order] runs: [placed] has one mark per hook, [order] holds the
    hooks at the indices [idxs], no index twice, and all of them marked. *)
Definition placing (p : list bool) (idxs : list nat) (o : list A) : Prop :=
  length p = length hooks /\ picks idxs o /\ NoDup idxs
  /\ (forall k, k ∈ idxs -> marked p k).

(** The hooks that are marked and not yet in the order: the calls of
    [place] that have not returned. *)
Definition gray (p : list bool) (idxs : list nat) (g : nat) : Prop :=
  marked p g /\ g ∉ idxs.

(** Visiting the targets [T] from the state [(p, idxs)] keeps the order:
    without cycles, and when every unfinished hook reaches every target
    through dependencies, [idxs'] is ordered if [idxs] was. *)
Definition keeps_order (p : list bool) (idxs T idxs' : list nat) : Prop :=
  acyclic ->
  (forall g t, gray p idxs g -> t ∈ T -> tc depends g t) ->
  ordered idxs -> ordered idxs'.

(** What visiting the targets [T] from [(p, idxs, o)] has done when it ends
    in the marks [p'] with the indices [new_i] and the hooks [new_o]
    appended. *)
Definition placed_after (p : list bool) (idxs : list nat) (o : list A)
    (T : list nat) (p' : list bool) (new_i : list nat) (new_o : list A)
  : Prop :=
  placing p' (idxs ++ new_i) (o ++ new_o)
  /\ grows p p'
  /\ (forall k, marked p' k <-> marked p k \/ k ∈ new_i)
  /\ (forall k, k ∈ new_i -> ~ marked p k)
  /\ (forall t, t ∈ T -> marked p' t)
  /\ keeps_order p idxs T (idxs ++ new_i).

(** [place] with this fuel succeeds on every index in range, from every
    state in which fewer hooks are unmarked than there is fuel. *)
Definition place_ok (fuel : nat) : Prop :=
  forall i p o idxs,
    (i < length hooks)%nat -> placing p idxs o -> (free p < fuel)%nat ->
    exists p' new_i new_o,
      hook.place DependsOn hooks (hook.collect Provides 0 hooks ∅) fuel i (p, o)
      = Some (p', o ++ new_o)
      /\ placed_after p idxs o [i] p' new_i new_o.

End hook_vocabulary.

(** Sample hooks: each names what it provides and what it depends on.  The
    server needs the multiplexer, which needs the logger. *)
Record named_hook : Type := mkHook {
  hook_name : string;
  hook_provides : list string;
  hook_depends : list string
}.

Definition sample_hooks : list named_hook :=
  [mkHook "server" ["server"] ["mux"];
   mkHook "mux" ["mux"] ["log"];
   mkHook "log" ["log"] []].

Definition sample_Provides (h : named_hook) : option (list string) :=
  Some (hook_provides h).

Definition sample_DependsOn (h : named_hook) : option (list string) :=
  Some (hook_depends h).

(** *** Further vocabulary: outputs and streaming *)

(** The output encodes as the bytes [enc], appended to the buffer it is
    given; a nil output is encoded as nil. *)
Definition encodes_as (output : option msgp.MarshalSizer) (enc : bytes) : Prop :=
  match output with
  | None => enc = [xc0]
  | Some m => forall b, msgp.MarshalMsg m b = Ok (b ++ enc)
  end.

(** A streaming function: yield each output in turn, stop at the first
    error. *)
Fixpoint yield_each (outputs : list (option msgp.MarshalSizer))
  : M mrpc.State (option error) :=
  match outputs with
  | [] => ret None
  | output :: outputs' =>
      do err <- mrpc.Yield output;
      match err with
      | Some e => ret (Some e)
      | None => yield_each outputs'
      end
  end.

(** An output whose encoder fails, and a payload type whose values all
    encode that way. *)
Definition unencodable : msgp.MarshalSizer :=
  msgp.mkMarshalSizer (fun _ => Err "cannot encode").

Record Opaque : Type := mkOpaque { }.

#[global] Instance Opaque_Marshaler : msgp.Marshaler Opaque :=
  {| msgp.marshal _ := unencodable |}.

Definition opaque_fn (input : string) : M mrpc.State (result Opaque) :=
  ret (Ok mkOpaque).

(** An encoder of JSON responses that rejects every response, as
    [json.Marshal] does for a result it has no encoding for. *)
Definition Marshal_unsupported (r : jrpc_protocol.Response sample.RawMessage)
  : result bytes :=
  Err "json: unsupported type".

(** The text of a string as a JSON string, for a text payload. *)
Definition text_output (s : string) : option msgp.MarshalSizer :=
  Some (msgp.marshal s).

(** A call of the stream [ticks]. *)
Definition start_ticks : mrpc_protocol.Request :=
  mrpc_protocol.mkRequest "7" "start" "ticks" (msgp.AppendString [] "go").

(** A send function that always fails, as on a closed connection. *)
Definition send_closed : mrpc.SendFn :=
  fun _ c => (Some "use of closed network connection", c).

(** The sample hooks with every provider before its dependents. *)
Definition ordered_hooks : list named_hook :=
  [mkHook "log" ["log"] [];
   mkHook "mux" ["mux"] ["log"];
   mkHook "server" ["server"] ["mux"]].

(** An option of a rig that adds hooks, as the options of the packages do
    through [Config.Hook]. *)
Definition hook_option {A : Type} (new : list A) : @rig.Option A :=
  fun cfg => (None, rig.Hook new cfg).

(** An option that fails and leaves the configuration alone. *)
Definition failing_option {A : Type} (err : error) : @rig.Option A :=
  fun cfg => (Some err, cfg).

(** A user function of a call that reports a bad input itself, with
    [Fail], and then returns an error, as a Go function does that answers
    and bails out. *)
Definition fail_then_error (input : string) : M mrpc.State (result string) :=
  run mrpc.Fail 400 "bad input";
  ret (Err "boom").

(** * Properties *)

(** ** Scopes: responding and its end *)

Lemma mrpc_Respond_nil (st : mrpc.State) method output :
  mrpc.send (fst st) = None ->
  mrpc.Respond method output st = Done not_supported st.
Proof.
  intros Hnil. unfold mrpc.Respond, bind, get. simpl. rewrite Hnil. reflexivity.
Qed.

Lemma mrpc_clear_send_nil (st : mrpc.State) :
  mrpc.send (fst st) = None ->
  mrpc.clear_send st = Done tt st.
Proof.
  destruct st as [[req snd] c]. simpl. intros ->. reflexivity.
Qed.

Lemma mrpc_nil_sends_disabled (st : mrpc.State) :
  mrpc.send (fst st) = None -> mrpc_sends_disabled st.
Proof.
  intros Hnil. unfold mrpc_sends_disabled, mrpc.Succ, mrpc.Yield, mrpc.End, mrpc.Fail.
  repeat split; intros; unfold bind;
    rewrite ?mrpc_Respond_nil by exact Hnil; try reflexivity;
    rewrite mrpc_clear_send_nil by exact Hnil; reflexivity.
Qed.

(** [Respond] never panics, and it leaves the scope as it is. *)
Lemma mrpc_Respond_scope (st : mrpc.State) method output :
  exists err c, mrpc.Respond method output st = Done err (fst st, c).
Proof.
  destruct st as [[req snd] c]. unfold mrpc.Respond, bind, get. simpl.
  destruct snd as [f|]; [|eauto].
  destruct (mrpc_protocol.Response_MarshalMsg _ _); [|unfold ret; eauto].
  unfold mrpc.call_send. simpl. destruct (f a c). eauto.
Qed.

Lemma mrpc_Fail_clears (st : mrpc.State) code msg :
  exists err c, mrpc.Fail code msg st
                = Done err (mrpc.For (mrpc.Request (fst st)) None, c).
Proof.
  unfold mrpc.Fail, bind.
  destruct (mrpc_Respond_scope st "fail"
              (Some (msgp.marshal (mrpc_protocol.mkFail code msg))))
    as (err & c & ->).
  simpl. eauto.
Qed.

Lemma mrpc_End_clears (st : mrpc.State) :
  exists err c, mrpc.End st = Done err (mrpc.For (mrpc.Request (fst st)) None, c).
Proof.
  unfold mrpc.End, bind.
  destruct (mrpc_Respond_scope st "end" None) as (err & c & ->).
  simpl. eauto.
Qed.

(** A response on a dispatched scope whose output encodes as [out]. *)
Lemma mrpc_Respond_dispatched req w method (output : option msgp.MarshalSizer) out :
  match output with
  | None => out = [xc0]
  | Some m =>
      forall b, msgp.MarshalMsg m b = Ok (b ++ out)
  end ->
  mrpc.Respond method output (mrpc_dispatched req w)
  = Done None (mrpc_dispatched req
                 (w ++ [mrpc_frame (mrpc_protocol.ID req) method out])).
Proof.
  intros Hout. unfold mrpc.Respond, mrpc_dispatched, bind, get. simpl.
  unfold mrpc_protocol.Response_MarshalMsg, mrpc_frame. simpl.
  destruct output as [m|].
  - rewrite Hout. reflexivity.
  - subst out. reflexivity.
Qed.

Lemma mrpc_fail_marshal code msg b :
  msgp.MarshalMsg (msgp.marshal (mrpc_protocol.mkFail code msg)) b
  = Ok (b ++ mrpc_fail code msg).
Proof.
  simpl. unfold mrpc_protocol.Fail_MarshalMsg, mrpc_fail. simpl.
  f_equal.
  unfold msgp.AppendString, msgp.AppendInt, msgp.AppendArrayHeader. simpl.
  repeat match goal with
         | |- context [if ?c then _ else _] => destruct c
         end; rewrite <- ?app_assoc; reflexivity.
Qed.

Lemma mrpc_Fail_dispatched req w code msg :
  mrpc.Fail code msg (mrpc_dispatched req w)
  = Done None (mrpc_ended req
                 (w ++ [mrpc_frame (mrpc_protocol.ID req) "fail"
                          (mrpc_fail code msg)])).
Proof.
  unfold mrpc.Fail, bind.
  rewrite (mrpc_Respond_dispatched req w "fail" _ (mrpc_fail code msg))
    by (intros b; apply mrpc_fail_marshal).
  reflexivity.
Qed.

Lemma mrpc_End_dispatched req w :
  mrpc.End (mrpc_dispatched req w)
  = Done None (mrpc_ended req
                 (w ++ [mrpc_frame (mrpc_protocol.ID req) "end" [xc0]])).
Proof.
  unfold mrpc.End, bind.
  rewrite (mrpc_Respond_dispatched req w "end" None [xc0]) by reflexivity.
  reflexivity.
Qed.

Lemma jrpc_respond_nil {any} (MR : jrpc_protocol.Response any -> result bytes)
    (st : jrpc.State) r :
  jrpc.send (fst st) = None ->
  jrpc.respond MR r st = Done not_supported st.
Proof.
  intros Hnil. unfold jrpc.respond, bind, get. simpl. rewrite Hnil. reflexivity.
Qed.

Lemma jrpc_nil_sends_disabled {any}
    (MR : jrpc_protocol.Response any -> result bytes) (st : jrpc.State) :
  jrpc.send (fst st) = None -> jrpc_sends_disabled MR st.
Proof.
  intros Hnil. unfold jrpc_sends_disabled, jrpc.Succ, jrpc.Fail.
  repeat split; intros; unfold bind;
    rewrite ?jrpc_respond_nil by exact Hnil; try reflexivity.
  destruct st as [[req snd] c]. simpl in *. subst snd. reflexivity.
Qed.

Lemma jrpc_respond_scope {any}
    (MR : jrpc_protocol.Response any -> result bytes) (st : jrpc.State) r :
  exists err c, jrpc.respond MR r st = Done err (fst st, c).
Proof.
  destruct st as [[req snd] c]. unfold jrpc.respond, bind, get. simpl.
  destruct snd as [f|] eqn:Hs; [|eauto].
  destruct (MR _); [|unfold ret; eauto].
  unfold jrpc.call_send. simpl. destruct (f a c). eauto.
Qed.

Lemma jrpc_Fail_clears {any}
    (MR : jrpc_protocol.Response any -> result bytes) (st : jrpc.State) code msg :
  exists err c, jrpc.Fail MR code msg st
                = Done err (jrpc.For (jrpc.Request (fst st)) None, c).
Proof.
  unfold jrpc.Fail, bind.
  destruct (jrpc_respond_scope MR st
              (jrpc_protocol.mkResponse "" None
                 (Some (jrpc_protocol.mkError code msg None)) false))
    as (err & c & ->).
  simpl. eauto.
Qed.

Lemma jrpc_respond_dispatched {any}
    (MR : jrpc_protocol.Response any -> result bytes) req w r js :
  MR (jrpc_protocol.mkResponse (jrpc_protocol.ID req) (jrpc_protocol.Result r)
        (jrpc_protocol.rsError r) (jrpc_protocol.End r)) = Ok js ->
  jrpc.respond MR r (jrpc_dispatched req w)
  = Done None (jrpc_dispatched req (w ++ [(MessageText, js)])).
Proof.
  intros Hjs. unfold jrpc.respond, jrpc_dispatched, bind, get. simpl.
  rewrite Hjs. reflexivity.
Qed.

(** C5, as the code has it.  Once a handler has called [Fail] or [End] on a
    scope, whatever the state it was called in, every further response
    through that scope ([Respond], [Succ], [Yield], [End], [Fail] in mrpc;
    [respond], [Succ], [Fail] in jrpc) returns the error "response not
    supported" to its caller, and the scope and the connection are exactly
    as they were.  The two other sends of a scope of jrpc are not refused:
    [Notify] and [Call] call the send function without the nil check that
    [respond] makes, so after [Fail] they panic as soon as their message
    is encoded, instead of returning the error. *)
Theorem sends_after_Fail_or_End :
  (forall st code msg,
      mrpc_sends_disabled (final (mrpc.Fail code msg st)))
  /\ (forall st, mrpc_sends_disabled (final (mrpc.End st)))
  /\ (forall (any : Type) (MR : jrpc_protocol.Response any -> result bytes)
             st code msg,
        jrpc_sends_disabled MR (final (jrpc.Fail MR code msg st)))
  /\ (forall (any : Type) (MR : jrpc_protocol.Response any -> result bytes)
             (MN : jrpc_protocol.Notification any -> result bytes)
             st code msg method params js,
        MN (jrpc_protocol.mkNotification method params) = Ok js ->
        jrpc.Notify MN method params (final (jrpc.Fail MR code msg st))
        = Panic "runtime error: invalid memory address or nil pointer dereference"
            (final (jrpc.Fail MR code msg st)))
  /\ (forall (any : Type) (MR : jrpc_protocol.Response any -> result bytes)
             (MA : option any -> result bytes)
             (MQ : jrpc_protocol.Request -> result bytes)
             st code msg method params js1 js2,
        MA params = Ok js1 ->
        MQ (jrpc_protocol.mkRequest "" method js1) = Ok js2 ->
        jrpc.Call MA MQ method params (final (jrpc.Fail MR code msg st))
        = Panic "runtime error: invalid memory address or nil pointer dereference"
            (final (jrpc.Fail MR code msg st))).
Proof.
  split; [|split; [|split; [|split]]].
  - intros st code msg.
    destruct (mrpc_Fail_clears st code msg) as (err & c & ->).
    apply mrpc_nil_sends_disabled. reflexivity.
  - intros st.
    destruct (mrpc_End_clears st) as (err & c & ->).
    apply mrpc_nil_sends_disabled. reflexivity.
  - intros any MR st code msg.
    destruct (jrpc_Fail_clears MR st code msg) as (err & c & ->).
    apply jrpc_nil_sends_disabled. reflexivity.
  - intros any MR MN st code msg method params js Hjs.
    destruct (jrpc_Fail_clears MR st code msg) as (err & c & ->).
    cbn [final]. unfold jrpc.Notify. rewrite Hjs. reflexivity.
  - intros any MR MA MQ st code msg method params js1 js2 H1 H2.
    destruct (jrpc_Fail_clears MR st code msg) as (err & c & ->).
    cbn [final]. unfold jrpc.Call. rewrite H1, H2. reflexivity.
Qed.

(** A handler of jrpc that answers Scenario B's request with a failure and
    then notifies the client: the notification is not refused, it
    panics. *)
Lemma sends_after_Fail_or_End_witness :
  jrpc.Notify sample.Marshal_Notification "tick" None
    (final (jrpc.Fail sample.Marshal_Response 500 "boom"
              (jrpc_dispatched scenario_B_json [])))
  = Panic "runtime error: invalid memory address or nil pointer dereference"
      (final (jrpc.Fail sample.Marshal_Response 500 "boom"
                (jrpc_dispatched scenario_B_json []))).
Proof.
  destruct sends_after_Fail_or_End as (_ & _ & _ & Hnotify & _).
  eapply (Hnotify sample.RawMessage sample.Marshal_Response
            sample.Marshal_Notification).
  reflexivity.
Defined.

(** [Succ] leaves the scope as it found it. *)
Lemma mrpc_Succ_scope (st : mrpc.State) output :
  fst (final (mrpc.Succ output st)) = fst st.
Proof.
  unfold mrpc.Succ.
  destruct (mrpc_Respond_scope st "succ" output) as (err & c & ->).
  reflexivity.
Qed.

Lemma jrpc_Succ_scope {any}
    (MR : jrpc_protocol.Response any -> result bytes) (st : jrpc.State) result :
  fst (final (jrpc.Succ MR result st)) = fst st.
Proof.
  unfold jrpc.Succ.
  destruct (jrpc_respond_scope MR st
              (jrpc_protocol.mkResponse "" result None false))
    as (err & c & ->).
  reflexivity.
Qed.

(** C1.  What the code does where the specification expects the second
    send to be refused: [Succ] does not clear the send function (in either package the
    scope after [Succ] is the scope before it), so on a dispatched scope of
    mrpc a [Yield] that follows a [Succ] returns no error and a second frame
    is written; in jrpc a second [Succ] writes a second frame likewise. *)
Theorem Succ_leaves_sends_enabled :
  (forall st output, fst (final (mrpc.Succ output st)) = fst st)
  /\ (forall req w,
        (run mrpc.Succ None; mrpc.Yield None) (mrpc_dispatched req w)
        = Done None
            (mrpc_dispatched req
               (w ++ [mrpc_frame (mrpc_protocol.ID req) "succ" [xc0];
                      mrpc_frame (mrpc_protocol.ID req) "yield" [xc0]])))
  /\ (forall (any : Type) (MR : jrpc_protocol.Response any -> result bytes)
             st result,
        fst (final (jrpc.Succ MR result st)) = fst st)
  /\ (forall req w,
        exists js,
          (run jrpc.Succ sample.Marshal_Response None;
           jrpc.Succ sample.Marshal_Response None) (jrpc_dispatched req w)
          = Done None
              (jrpc_dispatched req (w ++ [(MessageText, js); (MessageText, js)]))).
Proof.
  split; [|split; [|split]].
  - intros. apply mrpc_Succ_scope.
  - intros req w. unfold bind, mrpc.Succ, mrpc.Yield.
    rewrite (mrpc_Respond_dispatched req w "succ" None [xc0]) by reflexivity.
    rewrite (mrpc_Respond_dispatched req _ "yield" None [xc0]) by reflexivity.
    rewrite <- app_assoc. reflexivity.
  - intros. apply jrpc_Succ_scope.
  - intros req w. eexists. unfold bind, jrpc.Succ.
    erewrite jrpc_respond_dispatched by reflexivity.
    erewrite jrpc_respond_dispatched by reflexivity.
    rewrite <- app_assoc. reflexivity.
Qed.

(** In jrpc the out-of-band sends [Notify] and [Call] call the send function
    without the nil check of [respond]: after [Fail] they panic. *)
Lemma jrpc_Notify_after_Fail_panics req w :
  exists msg st,
    (run jrpc.Fail sample.Marshal_Response 500 "boom";
     jrpc.Notify sample.Marshal_Notification "tick" None) (jrpc_dispatched req w)
    = Panic msg st.
Proof.
  unfold bind, jrpc.Fail, bind.
  erewrite jrpc_respond_dispatched by reflexivity.
  simpl. unfold jrpc.Notify. simpl. unfold jrpc.call_send. simpl. eauto.
Qed.

(** ** The binary frames *)

#[local] Abbreviation uint_of := msgp.uint.

Lemma uint_u8 z : uint_of (u8 z) = z mod 256.
Proof.
  unfold uint_of, u8.
  assert (Hlt : 0 <= z mod 256 < 256) by (apply Z.mod_pos_bound; lia).
  destruct (Byte.of_N (Z.to_N (z mod 256))) as [b|] eqn:Hb.
  - apply Byte.to_of_N in Hb. rewrite Hb. lia.
  - apply Byte.of_N_None_iff in Hb. lia.
Qed.

Lemma length_bytes_of_string s :
  length (bytes_of_string s) = String.length s.
Proof.
  unfold bytes_of_string, list_byte_of_string.
  rewrite length_map. induction s; simpl; auto.
Qed.

Lemma fixstr_lead n :
  0 <= n <= 31 ->
  uint_of (u8 (Z.lor 160 n)) = 160 + n /\ Z.land (160 + n) 31 = n.
Proof.
  intros Hn. replace n with (Z.of_nat (Z.to_nat n)) by lia.
  assert (Hk : (Z.to_nat n < 32)%nat) by lia.
  remember (Z.to_nat n) as k eqn:Ek. clear Ek Hn n.
  do 32 (destruct k as [|k]; [vm_compute; split; reflexivity|]).
  lia.
Qed.

Lemma big_be16 n rest :
  0 <= n < 65536 -> msgp.big 2 (msgp.be16 n ++ rest) = n.
Proof.
  intros Hn. unfold msgp.be16. cbn [app msgp.big].
  fold uint_of. rewrite !uint_u8, Z.shiftr_div_pow2 by lia.
  change (2 ^ 8) with 256. change (2 ^ (8 * Z.of_nat 1)) with 256.
  change (2 ^ (8 * Z.of_nat 0)) with 1.
  rewrite (Z.mod_small (n / 256) 256)
    by (split; [apply Z.div_pos; lia|apply Z.div_lt_upper_bound; lia]).
  pose proof (Z.div_mod n 256). lia.
Qed.

Lemma big_be32 n rest :
  0 <= n < 4294967296 -> msgp.big 4 (msgp.be32 n ++ rest) = n.
Proof.
  intros Hn. unfold msgp.be32. cbn [app msgp.big].
  fold uint_of. rewrite !uint_u8, !Z.shiftr_div_pow2 by lia.
  change (2 ^ 8) with 256. change (2 ^ 16) with (256 * 256).
  change (2 ^ 24) with (256 * 256 * 256).
  change (2 ^ (8 * Z.of_nat 3)) with (256 * 256 * 256).
  change (2 ^ (8 * Z.of_nat 2)) with (256 * 256).
  change (2 ^ (8 * Z.of_nat 1)) with 256.
  change (2 ^ (8 * Z.of_nat 0)) with 1.
  rewrite <- !Z.div_div by lia.
  pose proof (Z.div_mod n 256). pose proof (Z.div_mod (n / 256) 256).
  pose proof (Z.div_mod (n / 256 / 256) 256).
  assert (0 <= n / 256 < 16777216)
    by (split; [apply Z.div_pos; lia|apply Z.div_lt_upper_bound; lia]).
  assert (0 <= n / 256 / 256 < 65536)
    by (split; [apply Z.div_pos; lia|apply Z.div_lt_upper_bound; lia]).
  assert (0 <= n / 256 / 256 / 256 < 256)
    by (split; [apply Z.div_pos; lia|apply Z.div_lt_upper_bound; lia]).
  rewrite (Z.mod_small (n / 256 / 256 / 256) 256) by lia.
  lia.
Qed.

Lemma AppendString_app b s :
  msgp.AppendString b s = b ++ msgp.AppendString [] s.
Proof.
  unfold msgp.AppendString.
  repeat match goal with
         | |- context [if ?c then _ else _] => destruct c
         end; reflexivity.
Qed.

(** Reading back a string that was appended. *)
Lemma ReadStringBytes_AppendString s rest :
  len s < 4294967296 ->
  msgp.ReadStringBytes (msgp.AppendString [] s ++ rest) = Ok (s, rest).
Proof.
  intros Hlen.
  assert (Hpayload : forall b',
             b' = bytes_of_string s ++ rest ->
             (if msgp.blen b' <? len s then Err msgp.ErrShortBytes
              else Ok (string_of_bytes (msgp.upto (len s) b'),
                       msgp.from (len s) b'))
             = Ok (s, rest)).
  { intros b' ->. unfold msgp.blen, msgp.upto, msgp.from, len.
    rewrite length_app, length_bytes_of_string, Nat2Z.id.
    destruct (Z.ltb_spec (Z.of_nat (String.length s + length rest))
                (Z.of_nat (String.length s))) as [Hlt|_]; [lia|].
    rewrite take_app_length', drop_app_length'
      by (symmetry; apply length_bytes_of_string).
    unfold string_of_bytes, bytes_of_string.
    rewrite string_of_list_byte_of_string. reflexivity. }
  assert (Hpos : 0 <= len s) by (unfold len; lia).
  unfold msgp.AppendString. cbn zeta.
  destruct (Z.leb_spec (len s) 31) as [H31|H31].
  - destruct (fixstr_lead (len s)) as [Hlead Hland]; [lia|].
    cbn [app]. unfold msgp.ReadStringBytes. fold uint_of. rewrite Hlead, Hland.
    destruct (Z.leb_spec 160 (160 + len s)); [|lia].
    destruct (Z.leb_spec (160 + len s) 191); [|lia].
    cbn [andb]. apply Hpayload. reflexivity.
  - destruct (Z.leb_spec (len s) 255) as [H255|H255].
    + cbn [app]. unfold msgp.ReadStringBytes. fold uint_of.
      change (uint_of xd9) with 217. cbn [Z.leb Z.eqb andb Z.compare Pos.compare
        Pos.compare_cont Pos.eqb].
      unfold msgp.blen. cbn [length msgp.from drop Z.to_nat Pos.to_nat
        Pos.iter_op Nat.add msgp.big].
      fold uint_of. rewrite uint_u8, Z.mod_small by lia.
      destruct (Z.ltb_spec
                  (Z.of_nat (S (S (length (bytes_of_string s ++ rest))))) 2);
        [lia|].
      replace (len s * 2 ^ (8 * Z.of_nat 0) + 0) with (len s)
        by (change (2 ^ (8 * Z.of_nat 0)) with 1; lia).
      apply Hpayload. reflexivity.
    + destruct (Z.leb_spec (len s) 65535) as [H16|H16].
      * cbn [app]. rewrite <- app_assoc. unfold msgp.ReadStringBytes. fold uint_of.
        change (uint_of xda) with 218. cbn [Z.leb Z.eqb andb Z.compare Pos.compare
          Pos.compare_cont Pos.eqb].
        unfold msgp.blen. cbn [length].
        destruct (Z.ltb_spec
                    (Z.of_nat (S (length (msgp.be16 (len s)
                                          ++ bytes_of_string s ++ rest)))) 3)
          as [Hshort|_].
        { unfold msgp.be16 in Hshort. cbn [app length] in Hshort. lia. }
        rewrite big_be16 by lia.
        apply Hpayload. reflexivity.
      * cbn [app]. rewrite <- app_assoc. unfold msgp.ReadStringBytes. fold uint_of.
        change (uint_of xdb) with 219. cbn [Z.leb Z.eqb andb Z.compare Pos.compare
          Pos.compare_cont Pos.eqb].
        unfold msgp.blen. cbn [length].
        destruct (Z.ltb_spec
                    (Z.of_nat (S (length (msgp.be32 (len s)
                                          ++ bytes_of_string s ++ rest)))) 5)
          as [Hshort|_].
        { unfold msgp.be32 in Hshort. cbn [app length] in Hshort. lia. }
        rewrite big_be32 by lia.
        apply Hpayload. reflexivity.
Qed.

(** The frame of a response reads back as its id, its method and the
    bytes of its output (none for nil), for ids and methods of fewer than
    2^32 bytes and an output that is one complete MessagePack object. *)
Lemma mrpc_frame_decodes id method enc :
  len id < 4294967296 ->
  len method < 4294967296 ->
  msgp.Skip enc = Ok [] ->
  decode_response (snd (mrpc_frame id method enc))
  = Ok (id, method, if msgp.IsNil enc then [] else enc).
Proof.
  intros Hid Hmethod Henc. unfold mrpc_frame. cbn [snd].
  rewrite (AppendString_app _ method), (AppendString_app _ id).
  rewrite <- !app_assoc.
  unfold decode_response.
  change (msgp.ReadArrayHeaderBytes (msgp.AppendArrayHeader [] 3 ++ ?b))
    with (Ok (A := Z * bytes) (3, b)).
  cbn [Z.eqb Pos.eqb negb].
  rewrite ReadStringBytes_AppendString by exact Hid.
  rewrite ReadStringBytes_AppendString by exact Hmethod.
  unfold msgp.Raw_UnmarshalMsg. rewrite Henc.
  unfold msgp.upto, msgp.blen. cbv zeta. cbn [length].
  rewrite Z.sub_0_r, Nat2Z.id, (take_ge enc (length enc)) by lia.
  destruct (msgp.IsNil enc); [|rewrite Nat2Z.id, take_ge by lia]; reflexivity.
Qed.

Example scenario_B_frame_decodes :
  decode_response
    (snd (mrpc_frame "2" "fail"
            (mrpc_fail 404 (function_not_found sample.Quote "nope"))))
  = Ok ("2", "fail", mrpc_fail 404 (function_not_found sample.Quote "nope")).
Proof. apply mrpc_frame_decodes; reflexivity. Qed.

(** ** Dispatch *)

Lemma mrpc_handleRequest_call Quote t (st : mrpc.State) :
  mrpc_protocol.Method (mrpc.Request (fst st)) = "call" ->
  mrpc.handleRequest Quote t st
  = match mrpc.callHandlers t !! mrpc_protocol.Function (mrpc.Request (fst st)) with
    | Some h => h st
    | None =>
        (run mrpc.Fail 404
               ("function "
                +:+ Quote (mrpc_protocol.Function (mrpc.Request (fst st)))
                +:+ " not found");
         ret tt) st
    end.
Proof.
  intros Hm. unfold mrpc.handleRequest at 1. unfold bind at 1. unfold get.
  rewrite Hm. simpl.
  destruct (mrpc.callHandlers t !! _); reflexivity.
Qed.

Lemma mrpc_handleRequest_start Quote t (st : mrpc.State) :
  mrpc_protocol.Method (mrpc.Request (fst st)) = "start" ->
  mrpc.handleRequest Quote t st
  = match mrpc.startHandlers t !! mrpc_protocol.Function (mrpc.Request (fst st)) with
    | Some h => h st
    | None =>
        (run mrpc.Fail 404
               ("function "
                +:+ Quote (mrpc_protocol.Function (mrpc.Request (fst st)))
                +:+ " not found");
         ret tt) st
    end.
Proof.
  intros Hm. unfold mrpc.handleRequest at 1. unfold bind at 1. unfold get.
  rewrite Hm. simpl.
  destruct (mrpc.startHandlers t !! _); reflexivity.
Qed.

Lemma mrpc_handleRequest_other Quote t (st : mrpc.State) :
  mrpc_protocol.Method (mrpc.Request (fst st)) <> "call" ->
  mrpc_protocol.Method (mrpc.Request (fst st)) <> "start" ->
  mrpc.handleRequest Quote t st
  = (run mrpc.Fail 404 "method not found"; ret tt) st.
Proof.
  intros Hc Hs. unfold mrpc.handleRequest at 1. unfold bind at 1. unfold get.
  apply String.eqb_neq in Hc, Hs. rewrite Hc, Hs. reflexivity.
Qed.

Lemma jrpc_handleRequest_table {any}
    (MR : jrpc_protocol.Response any -> result bytes) Quote t (st : jrpc.State) :
  jrpc.handleRequest MR Quote t st
  = match (if String.eqb (jrpc_protocol.ID (jrpc.Request (fst st))) ""
           then jrpc.procHandlers t else jrpc.callHandlers t)
          !! jrpc_protocol.Method (jrpc.Request (fst st)) with
    | Some h => h st
    | None =>
        (run jrpc.Fail MR 404
               ("function "
                +:+ Quote (jrpc_protocol.Method (jrpc.Request (fst st)))
                +:+ " not found");
         ret tt) st
    end.
Proof.
  unfold jrpc.handleRequest at 1. unfold bind at 1. unfold get.
  destruct (_ !! _); reflexivity.
Qed.

Lemma jrpc_Fail_dispatched {any}
    (MR : jrpc_protocol.Response any -> result bytes) req w code msg js :
  MR (jrpc_protocol.mkResponse (jrpc_protocol.ID req) None
        (Some (jrpc_protocol.mkError code msg None)) false) = Ok js ->
  jrpc.Fail MR code msg (jrpc_dispatched req w)
  = Done None (jrpc_ended req (w ++ [(MessageText, js)])).
Proof.
  intros Hjs. unfold jrpc.Fail, bind.
  erewrite jrpc_respond_dispatched by exact Hjs.
  reflexivity.
Qed.

(** Project the request out of a dispatched state. *)
Ltac scope_simpl :=
  cbn [fst snd mrpc_dispatched mrpc_ended mrpc.For mrpc.Request mrpc.send
       jrpc_dispatched jrpc_ended jrpc.For jrpc.Request jrpc.send];
  unfold mrpc.Handler, jrpc.Handler, M in *.

(** C4.  The default handler picks the table by the kind of the request
    (mrpc: the method "call" or "start") or by the presence of an id (jrpc:
    no id selects the proc table, an id the call table) and runs the handler
    registered under the function name.  An unknown kind and an unknown
    function each end the request with one failure response of code 404
    (for the function, with the message [function "<name>" not found]); the
    handler returns normally and the connection stays healthy, and how the
    connection loop stands does not depend on what the handlers do. *)
Theorem handleRequest_routes_or_fails_404 :
  (forall Quote t req w,
      (mrpc_protocol.Method req = "call" ->
       forall h, mrpc.callHandlers t !! mrpc_protocol.Function req = Some h ->
         mrpc.handleRequest Quote t (mrpc_dispatched req w)
         = h (mrpc_dispatched req w))
      /\ (mrpc_protocol.Method req = "start" ->
          forall h, mrpc.startHandlers t !! mrpc_protocol.Function req = Some h ->
            mrpc.handleRequest Quote t (mrpc_dispatched req w)
            = h (mrpc_dispatched req w))
      /\ (mrpc_protocol.Method req = "call" ->
          mrpc.callHandlers t !! mrpc_protocol.Function req = None ->
          mrpc.handleRequest Quote t (mrpc_dispatched req w)
          = Done tt
              (mrpc_ended req
                 (w ++ [mrpc_frame (mrpc_protocol.ID req) "fail"
                          (mrpc_fail 404
                             (function_not_found Quote
                                (mrpc_protocol.Function req)))])))
      /\ (mrpc_protocol.Method req = "start" ->
          mrpc.startHandlers t !! mrpc_protocol.Function req = None ->
          mrpc.handleRequest Quote t (mrpc_dispatched req w)
          = Done tt
              (mrpc_ended req
                 (w ++ [mrpc_frame (mrpc_protocol.ID req) "fail"
                          (mrpc_fail 404
                             (function_not_found Quote
                                (mrpc_protocol.Function req)))])))
      /\ (mrpc_protocol.Method req <> "call" ->
          mrpc_protocol.Method req <> "start" ->
          mrpc.handleRequest Quote t (mrpc_dispatched req w)
          = Done tt
              (mrpc_ended req
                 (w ++ [mrpc_frame (mrpc_protocol.ID req) "fail"
                          (mrpc_fail 404 "method not found")]))))
  /\ (forall (any : Type) (MR : jrpc_protocol.Response any -> result bytes)
             Quote t req w,
        (jrpc_protocol.ID req = "" ->
         forall h, jrpc.procHandlers t !! jrpc_protocol.Method req = Some h ->
           jrpc.handleRequest MR Quote t (jrpc_dispatched req w)
           = h (jrpc_dispatched req w))
        /\ (jrpc_protocol.ID req <> "" ->
            forall h, jrpc.callHandlers t !! jrpc_protocol.Method req = Some h ->
              jrpc.handleRequest MR Quote t (jrpc_dispatched req w)
              = h (jrpc_dispatched req w))
        /\ (forall js,
              (if String.eqb (jrpc_protocol.ID req) ""
               then jrpc.procHandlers t else jrpc.callHandlers t)
                !! jrpc_protocol.Method req = None ->
              MR (jrpc_failure (jrpc_protocol.ID req) 404
                    (function_not_found Quote (jrpc_protocol.Method req)))
              = Ok js ->
              jrpc.handleRequest MR Quote t (jrpc_dispatched req w)
              = Done tt (jrpc_ended req (w ++ [(MessageText, js)]))))
  /\ (forall cfg reads c,
        snd (mrpc.serve cfg reads c) = snd (mrpc.serveHTTP None reads))
  /\ (forall (UR : bytes -> result jrpc_protocol.Request) cfg reads c,
        snd (jrpc.serve UR cfg reads c) = snd (jrpc.serveHTTP UR None reads)).
Proof.
  split; [|split; [|split]];
    [| |intros cfg reads c; unfold mrpc.serve;
        destruct (mrpc.serveHTTP None reads); reflexivity
       |intros UR cfg reads c; unfold jrpc.serve;
        destruct (jrpc.serveHTTP UR None reads); reflexivity].
  - intros Quote t req w. repeat split.
    + intros Hm h Hh. rewrite mrpc_handleRequest_call by exact Hm.
      scope_simpl. rewrite Hh. reflexivity.
    + intros Hm h Hh. rewrite mrpc_handleRequest_start by exact Hm.
      scope_simpl. rewrite Hh. reflexivity.
    + intros Hm Hh. rewrite mrpc_handleRequest_call by exact Hm.
      scope_simpl. rewrite Hh. unfold bind. rewrite mrpc_Fail_dispatched. reflexivity.
    + intros Hm Hh. rewrite mrpc_handleRequest_start by exact Hm.
      scope_simpl. rewrite Hh. unfold bind. rewrite mrpc_Fail_dispatched. reflexivity.
    + intros Hc Hs. rewrite mrpc_handleRequest_other by assumption.
      unfold bind. rewrite mrpc_Fail_dispatched. reflexivity.
  - intros any MR Quote t req w. repeat split.
    + intros Hid h Hh. rewrite jrpc_handleRequest_table. scope_simpl.
      rewrite Hid. simpl. rewrite Hh. reflexivity.
    + intros Hid h Hh. rewrite jrpc_handleRequest_table. scope_simpl.
      apply String.eqb_neq in Hid. rewrite Hid, Hh. reflexivity.
    + intros js Hh Hjs. rewrite jrpc_handleRequest_table. scope_simpl.
      rewrite Hh. unfold bind.
      erewrite jrpc_Fail_dispatched by exact Hjs. reflexivity.
Qed.

(** Scenario B: the call of [nope] on a server without functions, in both
    encodings. *)
Lemma handleRequest_routes_or_fails_404_witness :
  mrpc.handleRequest sample.Quote (mrpc.mkTables ∅ ∅)
    (mrpc_dispatched scenario_B [])
  = Done tt
      (mrpc_ended scenario_B
         [mrpc_frame "2" "fail"
            (mrpc_fail 404 (function_not_found sample.Quote "nope"))])
  /\ jrpc.handleRequest sample.Marshal_Response sample.Quote
       (jrpc.mkTables ∅ ∅) (jrpc_dispatched scenario_B_json [])
     = Done tt
         (jrpc_ended scenario_B_json
            [(MessageText,
              bytes_of_string
                ("{" +:+ sample.json_field "id" (sample.json_string "2") +:+ ","
                 +:+ sample.json_field "result" "null" +:+ ","
                 +:+ sample.json_field "error"
                       ("{" +:+ sample.json_field "code" "404" +:+ ","
                        +:+ sample.json_field "message"
                              (sample.json_string
                                 (function_not_found sample.Quote "nope"))
                        +:+ "}") +:+ ","
                 +:+ sample.json_field "end" "false" +:+ "}"))]).
Proof.
  split.
  - destruct (proj1 handleRequest_routes_or_fails_404
                sample.Quote (mrpc.mkTables ∅ ∅) scenario_B [])
      as (_ & _ & Hnone & _).
    apply Hnone; reflexivity.
  - destruct (proj1 (proj2 handleRequest_routes_or_fails_404)
                sample.RawMessage sample.Marshal_Response
                sample.Quote (jrpc.mkTables ∅ ∅) scenario_B_json [])
      as (_ & _ & Hnone).
    apply Hnone; reflexivity.
Defined.

(** ** Registered handlers *)

(** A response whose output does not encode is not sent. *)
Lemma mrpc_Respond_unencodable req w method (m : msgp.MarshalSizer) e :
  (forall b, msgp.MarshalMsg m b = Err e) ->
  mrpc.Respond method (Some m) (mrpc_dispatched req w)
  = Done (Some (e +:+ " while encoding response")) (mrpc_dispatched req w).
Proof.
  intros He. unfold mrpc.Respond, mrpc_dispatched, bind, get. simpl.
  unfold mrpc_protocol.Response_MarshalMsg. simpl. rewrite He. reflexivity.
Qed.

Lemma jrpc_respond_unencodable {any}
    (MR : jrpc_protocol.Response any -> result bytes) req w r e :
  MR (jrpc_protocol.mkResponse (jrpc_protocol.ID req)
        (jrpc_protocol.Result r) (jrpc_protocol.rsError r)
        (jrpc_protocol.End r)) = Err e ->
  jrpc.respond MR r (jrpc_dispatched req w)
  = Done (Some (e +:+ " while encoding response")) (jrpc_dispatched req w).
Proof.
  intros He. unfold jrpc.respond, jrpc_dispatched, bind, get. simpl.
  rewrite He. reflexivity.
Qed.

(** C6, as the code has it.  The handler that [CallFn] (mrpc) or [Fn]
    (jrpc) registers, run on a dispatched scope.  If the input does not
    decode, the outcome is the same whatever the user function is, so it is
    never invoked, and the one frame written is a failure of code 406.
    Otherwise the user function runs and the handler answers through the
    scope as the function has left it.  When the scope can still send, an
    error gives a failure of code 500 with the message of the error, and an
    output that encodes gives a success response that carries it; an
    output that does not encode gives no response at all, the error of
    [Succ] being discarded.  When the function has ended the scope itself
    (it called [Fail] or [End]) nothing more is written, whatever it
    returns.  A panic of the function is a panic of the handler. *)
Theorem call_handler_outcomes :
  (forall (I O : Type) (UI : msgp.Unmarshaler I) (MO : msgp.Marshaler O)
          (fn : I -> M mrpc.State (result O)) req w,
      (forall e,
          msgp.UnmarshalMsg (mrpc_protocol.Input req) = Err e ->
          mrpc.CallFn_handler fn (mrpc_dispatched req w)
          = Done tt
              (mrpc_ended req
                 (w ++ [mrpc_frame (mrpc_protocol.ID req) "fail"
                          (mrpc_fail 406 (while_decoding e))])))
      /\ (forall input rest e w',
             msgp.UnmarshalMsg (mrpc_protocol.Input req) = Ok (input, rest) ->
             fn input (mrpc_dispatched req w)
             = Done (Err e) (mrpc_dispatched req w') ->
             mrpc.CallFn_handler fn (mrpc_dispatched req w)
             = Done tt
                 (mrpc_ended req
                    (w' ++ [mrpc_frame (mrpc_protocol.ID req) "fail"
                              (mrpc_fail 500 e)])))
      /\ (forall input rest out w' enc,
             msgp.UnmarshalMsg (mrpc_protocol.Input req) = Ok (input, rest) ->
             fn input (mrpc_dispatched req w)
             = Done (Ok out) (mrpc_dispatched req w') ->
             (forall b, msgp.MarshalMsg (msgp.marshal out) b = Ok (b ++ enc)) ->
             mrpc.CallFn_handler fn (mrpc_dispatched req w)
             = Done tt
                 (mrpc_dispatched req
                    (w' ++ [mrpc_frame (mrpc_protocol.ID req) "succ" enc])))
      /\ (forall input rest out w' e,
             msgp.UnmarshalMsg (mrpc_protocol.Input req) = Ok (input, rest) ->
             fn input (mrpc_dispatched req w)
             = Done (Ok out) (mrpc_dispatched req w') ->
             (forall b, msgp.MarshalMsg (msgp.marshal out) b = Err e) ->
             mrpc.CallFn_handler fn (mrpc_dispatched req w)
             = Done tt (mrpc_dispatched req w'))
      /\ (forall input rest r w',
             msgp.UnmarshalMsg (mrpc_protocol.Input req) = Ok (input, rest) ->
             fn input (mrpc_dispatched req w) = Done r (mrpc_ended req w') ->
             mrpc.CallFn_handler fn (mrpc_dispatched req w)
             = Done tt (mrpc_ended req w'))
      /\ (forall input rest msg st,
             msgp.UnmarshalMsg (mrpc_protocol.Input req) = Ok (input, rest) ->
             fn input (mrpc_dispatched req w) = Panic msg st ->
             mrpc.CallFn_handler fn (mrpc_dispatched req w) = Panic msg st))
  /\ (forall (any : Type) (MR : jrpc_protocol.Response any -> result bytes)
             (I : Type) (UI : jrpc_protocol.Unmarshal I)
             (fn : I -> M jrpc.State (result (option any))) req w,
        (forall e js,
            jrpc_protocol.json_Unmarshal (jrpc_protocol.Params req) = Err e ->
            MR (jrpc_failure (jrpc_protocol.ID req) 406 (while_decoding e))
            = Ok js ->
            jrpc.Fn_handler MR fn (jrpc_dispatched req w)
            = Done tt (jrpc_ended req (w ++ [(MessageText, js)])))
        /\ (forall input e w' js,
               jrpc_protocol.json_Unmarshal (jrpc_protocol.Params req)
               = Ok input ->
               fn input (jrpc_dispatched req w)
               = Done (Err e) (jrpc_dispatched req w') ->
               MR (jrpc_failure (jrpc_protocol.ID req) 500 e) = Ok js ->
               jrpc.Fn_handler MR fn (jrpc_dispatched req w)
               = Done tt (jrpc_ended req (w' ++ [(MessageText, js)])))
        /\ (forall input out w' js,
               jrpc_protocol.json_Unmarshal (jrpc_protocol.Params req)
               = Ok input ->
               fn input (jrpc_dispatched req w)
               = Done (Ok out) (jrpc_dispatched req w') ->
               MR (jrpc_protocol.mkResponse (jrpc_protocol.ID req) out
                     None false) = Ok js ->
               jrpc.Fn_handler MR fn (jrpc_dispatched req w)
               = Done tt (jrpc_dispatched req (w' ++ [(MessageText, js)])))
        /\ (forall input out w' e,
               jrpc_protocol.json_Unmarshal (jrpc_protocol.Params req)
               = Ok input ->
               fn input (jrpc_dispatched req w)
               = Done (Ok out) (jrpc_dispatched req w') ->
               MR (jrpc_protocol.mkResponse (jrpc_protocol.ID req) out
                     None false) = Err e ->
               jrpc.Fn_handler MR fn (jrpc_dispatched req w)
               = Done tt (jrpc_dispatched req w'))
        /\ (forall input r w',
               jrpc_protocol.json_Unmarshal (jrpc_protocol.Params req)
               = Ok input ->
               fn input (jrpc_dispatched req w) = Done r (jrpc_ended req w') ->
               jrpc.Fn_handler MR fn (jrpc_dispatched req w)
               = Done tt (jrpc_ended req w'))
        /\ (forall input msg st,
               jrpc_protocol.json_Unmarshal (jrpc_protocol.Params req)
               = Ok input ->
               fn input (jrpc_dispatched req w) = Panic msg st ->
               jrpc.Fn_handler MR fn (jrpc_dispatched req w) = Panic msg st)).
Proof.
  split.
  - intros I O UI MO fn req w.
    split; [|split; [|split; [|split; [|split]]]].
    + intros e He. unfold mrpc.CallFn_handler, bind at 1, get. scope_simpl.
      rewrite He. unfold bind. rewrite mrpc_Fail_dispatched. reflexivity.
    + intros input rest e w' Hin Hfn.
      unfold mrpc.CallFn_handler, bind at 1, get. scope_simpl.
      rewrite Hin. unfold bind at 1. rewrite Hfn.
      unfold bind. rewrite mrpc_Fail_dispatched. reflexivity.
    + intros input rest out w' enc Hin Hfn Henc.
      unfold mrpc.CallFn_handler, bind at 1, get. scope_simpl.
      rewrite Hin. unfold bind at 1. rewrite Hfn.
      unfold bind, mrpc.Succ.
      rewrite (mrpc_Respond_dispatched req w' "succ" _ enc) by exact Henc.
      reflexivity.
    + intros input rest out w' e Hin Hfn Henc.
      unfold mrpc.CallFn_handler, bind at 1, get. scope_simpl.
      rewrite Hin. unfold bind at 1. rewrite Hfn.
      unfold bind, mrpc.Succ.
      rewrite (mrpc_Respond_unencodable req w' "succ" _ e Henc). reflexivity.
    + intros input rest r w' Hin Hfn.
      destruct (mrpc_nil_sends_disabled (mrpc_ended req w') eq_refl)
        as (_ & Hsucc & _ & _ & Hfail).
      unfold mrpc.CallFn_handler, bind at 1, get. scope_simpl.
      rewrite Hin. unfold bind at 1. rewrite Hfn.
      destruct r as [out|e]; unfold bind.
      * rewrite Hsucc. reflexivity.
      * rewrite Hfail. reflexivity.
    + intros input rest msg st Hin Hfn.
      unfold mrpc.CallFn_handler, bind at 1, get. scope_simpl.
      rewrite Hin. unfold bind at 1. rewrite Hfn. reflexivity.
  - intros any MR I UI fn req w.
    split; [|split; [|split; [|split; [|split]]]].
    + intros e js He Hjs. unfold jrpc.Fn_handler, bind at 1, get. scope_simpl.
      rewrite He. unfold bind.
      erewrite jrpc_Fail_dispatched by exact Hjs. reflexivity.
    + intros input e w' js Hin Hfn Hjs.
      unfold jrpc.Fn_handler, bind at 1, get. scope_simpl.
      rewrite Hin. unfold bind at 1. rewrite Hfn.
      unfold bind.
      erewrite jrpc_Fail_dispatched by exact Hjs. reflexivity.
    + intros input out w' js Hin Hfn Hjs.
      unfold jrpc.Fn_handler, bind at 1, get. scope_simpl.
      rewrite Hin. unfold bind at 1. rewrite Hfn.
      unfold bind, jrpc.Succ.
      erewrite jrpc_respond_dispatched by exact Hjs. reflexivity.
    + intros input out w' e Hin Hfn He.
      unfold jrpc.Fn_handler, bind at 1, get. scope_simpl.
      rewrite Hin. unfold bind at 1. rewrite Hfn.
      unfold bind, jrpc.Succ.
      rewrite (jrpc_respond_unencodable MR req w'
                 (jrpc_protocol.mkResponse "" out None false) e He).
      reflexivity.
    + intros input r w' Hin Hfn.
      destruct (jrpc_nil_sends_disabled MR (jrpc_ended req w') eq_refl)
        as (_ & Hsucc & Hfail).
      unfold jrpc.Fn_handler, bind at 1, get. scope_simpl.
      rewrite Hin. unfold bind at 1. rewrite Hfn.
      destruct r as [out|e]; unfold bind.
      * rewrite Hsucc. reflexivity.
      * rewrite Hfail. reflexivity.
    + intros input msg st Hin Hfn.
      unfold jrpc.Fn_handler, bind at 1, get. scope_simpl.
      rewrite Hin. unfold bind at 1. rewrite Hfn. reflexivity.
Qed.

(** The three outcomes on a call of [echo], in both encodings: an input
    that holds no string (406), [boom] fails (500), and [echo] answers its
    input. *)
Lemma call_handler_outcomes_witness :
  (mrpc.CallFn_handler echo (mrpc_dispatched call_echo_nil [])
   = Done tt
       (mrpc_ended call_echo_nil
          [mrpc_frame "1" "fail"
             (mrpc_fail 406
                (while_decoding msgp.ErrShortBytes))])
   /\ mrpc.CallFn_handler boom (mrpc_dispatched call_echo_hi [])
      = Done tt
          (mrpc_ended call_echo_hi
             [mrpc_frame "1" "fail" (mrpc_fail 500 "boom")])
   /\ mrpc.CallFn_handler echo (mrpc_dispatched call_echo_hi [])
      = Done tt
          (mrpc_dispatched call_echo_hi
             [mrpc_frame "1" "succ" (msgp.AppendString [] "hi")]))
  /\ (jrpc.Fn_handler sample.Marshal_Response echo_json
        (jrpc_dispatched (call_echo_json []) [])
      = Done tt
          (jrpc_ended (call_echo_json [])
             [(MessageText,
               match sample.Marshal_Response
                       (jrpc_failure "1" 406
                          (while_decoding "unexpected end of JSON input")) with
               | Ok js => js
               | Err _ => []
               end)])
      /\ jrpc.Fn_handler sample.Marshal_Response boom_json
           (jrpc_dispatched (call_echo_json (bytes_of_string "7")) [])
         = Done tt
             (jrpc_ended (call_echo_json (bytes_of_string "7"))
                [(MessageText,
                  match sample.Marshal_Response (jrpc_failure "1" 500 "boom") with
                  | Ok js => js
                  | Err _ => []
                  end)])
      /\ jrpc.Fn_handler sample.Marshal_Response echo_json
           (jrpc_dispatched (call_echo_json (bytes_of_string "7")) [])
         = Done tt
             (jrpc_dispatched (call_echo_json (bytes_of_string "7"))
                [(MessageText,
                  match sample.Marshal_Response
                          (jrpc_protocol.mkResponse "1"
                             (Some (bytes_of_string "7")) None false) with
                  | Ok js => js
                  | Err _ => []
                  end)])).
Proof.
  split; [split; [|split] | split; [|split]].
  - destruct (proj1 call_handler_outcomes string string _ _ echo
                call_echo_nil []) as (H406 & _).
    apply H406. reflexivity.
  - destruct (proj1 call_handler_outcomes string string _ _ boom
                call_echo_hi []) as (_ & H500 & _).
    apply (H500 "hi" [] "boom" []); reflexivity.
  - destruct (proj1 call_handler_outcomes string string _ _ echo
                call_echo_hi []) as (_ & _ & Hsucc & _).
    apply (Hsucc "hi" [] "hi" [] (msgp.AppendString [] "hi")); reflexivity.
  - destruct (proj2 call_handler_outcomes sample.RawMessage
                sample.Marshal_Response sample.RawMessage _ echo_json
                (call_echo_json []) []) as (H406 & _).
    apply (H406 "unexpected end of JSON input"); reflexivity.
  - destruct (proj2 call_handler_outcomes sample.RawMessage
                sample.Marshal_Response sample.RawMessage _ boom_json
                (call_echo_json (bytes_of_string "7")) []) as (_ & H500 & _).
    apply (H500 (bytes_of_string "7") "boom" []); reflexivity.
  - destruct (proj2 call_handler_outcomes sample.RawMessage
                sample.Marshal_Response sample.RawMessage _ echo_json
                (call_echo_json (bytes_of_string "7")) []) as (_ & _ & Hsucc & _).
    apply (Hsucc (bytes_of_string "7") (Some (bytes_of_string "7")) []);
      reflexivity.
Defined.

(** C6, as the specification has it, fails.  A user function that answers
    the call itself with a failure of code 400 and then returns the error
    [boom]: the function has returned an error, and the connection holds
    the frame of code 400 only; the failure of code 500 with the message
    [boom] is not emitted, the [Fail] of the handler being refused by the
    ended scope.  And a user function whose output does not encode returns
    without an error, and no response is emitted at all. *)
Lemma call_handler_error_without_500 :
  fail_then_error "hi" (mrpc_dispatched call_echo_hi [])
  = Done (Err "boom")
      (mrpc_ended call_echo_hi
         [mrpc_frame "1" "fail" (mrpc_fail 400 "bad input")])
  /\ mrpc.CallFn_handler fail_then_error (mrpc_dispatched call_echo_hi [])
     = Done tt
         (mrpc_ended call_echo_hi
            [mrpc_frame "1" "fail" (mrpc_fail 400 "bad input")])
  /\ (mrpc_frame "1" "fail" (mrpc_fail 500 "boom")
      ∉ [mrpc_frame "1" "fail" (mrpc_fail 400 "bad input")])
  /\ opaque_fn "hi" (mrpc_dispatched call_echo_hi [])
     = Done (Ok mkOpaque) (mrpc_dispatched call_echo_hi [])
  /\ mrpc.CallFn_handler opaque_fn (mrpc_dispatched call_echo_hi [])
     = Done tt (mrpc_dispatched call_echo_hi []).
Proof.
  split; [reflexivity|]. split; [reflexivity|]. split; [|split; reflexivity].
  intros Hin. apply list_elem_of_singleton in Hin.
  vm_compute in Hin. discriminate Hin.
Qed.

(** ** The registry *)

Lemma mrpc_init_app Quote (opts opts' : list mrpc.Option) :
  mrpc.init Quote (opts ++ opts')
  = fold_left (fun cfg opt => opt cfg) opts' (mrpc.init Quote opts).
Proof. unfold mrpc.init. apply fold_left_app. Qed.

Lemma jrpc_init_app {any} (MR : jrpc_protocol.Response any -> result bytes)
    Quote (opts opts' : list jrpc.Option) :
  jrpc.init MR Quote (opts ++ opts')
  = fold_left (fun cfg opt => opt cfg) opts' (jrpc.init MR Quote opts).
Proof. unfold jrpc.init. apply fold_left_app. Qed.

(** C7.  Registering a second handler under a name that the table of the
    same kind already holds overwrites the first: the tables are those that
    the second registration alone would give, a lookup of the name returns
    the handler of the second function, also when the two registrations end
    the list of options given to [init], and a request for the name is
    dispatched to it.  This holds for [CallFn] and [StartFn] of mrpc and for
    [Fn] and [Proc] of jrpc. *)
Theorem registration_last_write_wins :
  (forall (I1 O1 I2 O2 : Type)
          (U1 : msgp.Unmarshaler I1) (M1 : msgp.Marshaler O1)
          (U2 : msgp.Unmarshaler I2) (M2 : msgp.Marshaler O2)
          (f : string) (h1 : I1 -> M mrpc.State (result O1))
          (h2 : I2 -> M mrpc.State (result O2)) cfg Quote opts id input w,
      mrpc.tables (mrpc.CallFn f h2 (mrpc.CallFn f h1 cfg))
      = mrpc.tables (mrpc.CallFn f h2 cfg)
      /\ mrpc.callHandlers (mrpc.tables (mrpc.CallFn f h2 (mrpc.CallFn f h1 cfg)))
           !! f = Some (mrpc.CallFn_handler h2)
      /\ mrpc.callHandlers
           (mrpc.tables
              (mrpc.init Quote (opts ++ [mrpc.CallFn f h1; mrpc.CallFn f h2])))
           !! f = Some (mrpc.CallFn_handler h2)
      /\ mrpc.handleRequest Quote
           (mrpc.tables (mrpc.CallFn f h2 (mrpc.CallFn f h1 cfg)))
           (mrpc_dispatched (mrpc_protocol.mkRequest id "call" f input) w)
         = mrpc.CallFn_handler h2
             (mrpc_dispatched (mrpc_protocol.mkRequest id "call" f input) w))
  /\ (forall (I1 I2 : Type) (U1 : msgp.Unmarshaler I1) (U2 : msgp.Unmarshaler I2)
             (f : string) (h1 h2 : M mrpc.State (option error)) cfg Quote opts,
        mrpc.tables (mrpc.StartFn (I:=I2) f h2 (mrpc.StartFn (I:=I1) f h1 cfg))
        = mrpc.tables (mrpc.StartFn (I:=I2) f h2 cfg)
        /\ mrpc.startHandlers
             (mrpc.tables (mrpc.StartFn (I:=I2) f h2 (mrpc.StartFn (I:=I1) f h1 cfg)))
             !! f = Some (mrpc.StartFn_handler (I:=I2) h2)
        /\ mrpc.startHandlers
             (mrpc.tables
                (mrpc.init Quote
                   (opts ++ [mrpc.StartFn (I:=I1) f h1; mrpc.StartFn (I:=I2) f h2])))
             !! f = Some (mrpc.StartFn_handler (I:=I2) h2))
  /\ (forall (any : Type) (MR : jrpc_protocol.Response any -> result bytes)
             (I1 I2 : Type) (U1 : jrpc_protocol.Unmarshal I1)
             (U2 : jrpc_protocol.Unmarshal I2) (f : string)
             (h1 : I1 -> M jrpc.State (result (option any)))
             (h2 : I2 -> M jrpc.State (result (option any))) cfg Quote opts,
        jrpc.tables (jrpc.Fn MR f h2 (jrpc.Fn MR f h1 cfg))
        = jrpc.tables (jrpc.Fn MR f h2 cfg)
        /\ jrpc.callHandlers (jrpc.tables (jrpc.Fn MR f h2 (jrpc.Fn MR f h1 cfg)))
             !! f = Some (jrpc.Fn_handler MR h2)
        /\ jrpc.callHandlers
             (jrpc.tables
                (jrpc.init MR Quote (opts ++ [jrpc.Fn MR f h1; jrpc.Fn MR f h2])))
             !! f = Some (jrpc.Fn_handler MR h2))
  /\ (forall (any : Type) (MR : jrpc_protocol.Response any -> result bytes)
             (I1 I2 : Type) (U1 : jrpc_protocol.Unmarshal I1)
             (U2 : jrpc_protocol.Unmarshal I2) (f : string)
             (h1 : I1 -> M jrpc.State unit) (h2 : I2 -> M jrpc.State unit)
             cfg Quote opts,
        jrpc.tables (jrpc.Proc MR f h2 (jrpc.Proc MR f h1 cfg))
        = jrpc.tables (jrpc.Proc MR f h2 cfg)
        /\ jrpc.procHandlers (jrpc.tables (jrpc.Proc MR f h2 (jrpc.Proc MR f h1 cfg)))
             !! f = Some (jrpc.Proc_handler MR h2)
        /\ jrpc.procHandlers
             (jrpc.tables
                (jrpc.init MR Quote (opts ++ [jrpc.Proc MR f h1; jrpc.Proc MR f h2])))
             !! f = Some (jrpc.Proc_handler MR h2)).
Proof.
  split; [|split; [|split]].
  - intros. repeat split.
    + unfold mrpc.CallFn. simpl. f_equal. apply insert_insert_eq.
    + unfold mrpc.CallFn. simpl. apply lookup_insert_eq.
    + rewrite mrpc_init_app. simpl. apply lookup_insert_eq.
    + rewrite mrpc_handleRequest_call by reflexivity.
      scope_simpl. unfold mrpc.CallFn. simpl.
      unfold mrpc.Handler, M. rewrite lookup_insert_eq. reflexivity.
  - intros. repeat split.
    + unfold mrpc.StartFn. simpl. f_equal. apply insert_insert_eq.
    + unfold mrpc.StartFn. simpl. apply lookup_insert_eq.
    + rewrite mrpc_init_app. simpl. apply lookup_insert_eq.
  - intros. repeat split.
    + unfold jrpc.Fn. simpl. f_equal. apply insert_insert_eq.
    + unfold jrpc.Fn. simpl. apply lookup_insert_eq.
    + rewrite jrpc_init_app. simpl. apply lookup_insert_eq.
  - intros. repeat split.
    + unfold jrpc.Proc. simpl. f_equal. apply insert_insert_eq.
    + unfold jrpc.Proc. simpl. apply lookup_insert_eq.
    + rewrite jrpc_init_app. simpl. apply lookup_insert_eq.
Qed.

(** ** Middleware *)

Lemma mrpc_Use_fold (fs : list (mrpc.Handler -> mrpc.Handler)) cfg t :
  mrpc.handler (fold_left (fun cfg opt => opt cfg) (map mrpc.Use fs) cfg) t
  = last_outermost fs (mrpc.handler cfg t).
Proof.
  revert cfg. induction fs as [|f fs IH]; intros cfg; simpl.
  - reflexivity.
  - rewrite IH. reflexivity.
Qed.

Lemma jrpc_Use_fold (fs : list (jrpc.Handler -> jrpc.Handler)) cfg t :
  jrpc.handler (fold_left (fun cfg opt => opt cfg) (map jrpc.Use fs) cfg) t
  = last_outermost fs (jrpc.handler cfg t).
Proof.
  revert cfg. induction fs as [|f fs IH]; intros cfg; simpl.
  - reflexivity.
  - rewrite IH. reflexivity.
Qed.

Lemma last_outermost_rev {H : Type} (fs : list (H -> H)) (base : H) :
  last_outermost fs base = first_outermost (rev fs) base.
Proof.
  unfold last_outermost, first_outermost.
  rewrite <- fold_left_rev_right. reflexivity.
Qed.

(** C3, as the code has it.  After [Use(f1)], ..., [Use(fn)] in this order,
    the dispatch function is [fn(...(f2(f1(base))))], where [base] is the
    default handler: every [Use] wraps what is there, so the last middleware
    registered is the outermost wrapper and the first one the innermost.
    This is the composition of the reversed list with its first element
    outermost.  The same holds in jrpc. *)
Theorem Use_last_registered_is_outermost :
  (forall Quote (fs : list (mrpc.Handler -> mrpc.Handler)) t,
      mrpc.handler (mrpc.init Quote (map mrpc.Use fs)) t
      = last_outermost fs (mrpc.handleRequest Quote t)
      /\ last_outermost fs (mrpc.handleRequest Quote t)
         = first_outermost (rev fs) (mrpc.handleRequest Quote t))
  /\ (forall Quote f1 f2 t,
        mrpc.handler (mrpc.init Quote [mrpc.Use f1; mrpc.Use f2]) t
        = f2 (f1 (mrpc.handleRequest Quote t)))
  /\ (forall (any : Type) (MR : jrpc_protocol.Response any -> result bytes)
             Quote (fs : list (jrpc.Handler -> jrpc.Handler)) t,
        jrpc.handler (jrpc.init MR Quote (map jrpc.Use fs)) t
        = last_outermost fs (jrpc.handleRequest MR Quote t)
        /\ last_outermost fs (jrpc.handleRequest MR Quote t)
           = first_outermost (rev fs) (jrpc.handleRequest MR Quote t))
  /\ (forall (any : Type) (MR : jrpc_protocol.Response any -> result bytes)
             Quote f1 f2 t,
        jrpc.handler (jrpc.init MR Quote [jrpc.Use f1; jrpc.Use f2]) t
        = f2 (f1 (jrpc.handleRequest MR Quote t))).
Proof.
  split; [|split; [|split]].
  - intros Quote fs t. split.
    + unfold mrpc.init. rewrite mrpc_Use_fold. reflexivity.
    + apply last_outermost_rev.
  - reflexivity.
  - intros any MR Quote fs t. split.
    + unfold jrpc.init. rewrite jrpc_Use_fold. reflexivity.
    + apply last_outermost_rev.
  - reflexivity.
Qed.

(** C3, as the specification has it, fails.  With two middlewares that each send a
    tagged response before they call the next handler, registered as
    [Use(tag f1)] and then [Use(tag f2)], the tag [f2] is written first: the
    dispatch function is not [f1(f2(base))], whose first frame would be the
    tag [f1]. *)
Lemma Use_first_registered_is_not_outermost :
  written (snd (final
    (mrpc.handler (mrpc.init sample.Quote [mrpc.Use (tag "f1"); mrpc.Use (tag "f2")])
       (mrpc.mkTables ∅ ∅) (mrpc_dispatched scenario_B []))))
  = [mrpc_frame "2" "f2" [xc0]; mrpc_frame "2" "f1" [xc0];
     mrpc_frame "2" "fail"
       (mrpc_fail 404 (function_not_found sample.Quote "nope"))]
  /\ written (snd (final
       (first_outermost [tag "f1"; tag "f2"]
          (mrpc.handleRequest sample.Quote (mrpc.mkTables ∅ ∅))
          (mrpc_dispatched scenario_B []))))
     = [mrpc_frame "2" "f1" [xc0]; mrpc_frame "2" "f2" [xc0];
        mrpc_frame "2" "fail"
          (mrpc_fail 404 (function_not_found sample.Quote "nope"))]
  /\ mrpc.handler (mrpc.init sample.Quote [mrpc.Use (tag "f1"); mrpc.Use (tag "f2")])
       (mrpc.mkTables ∅ ∅) (mrpc_dispatched scenario_B [])
     <> first_outermost [tag "f1"; tag "f2"]
          (mrpc.handleRequest sample.Quote (mrpc.mkTables ∅ ∅))
          (mrpc_dispatched scenario_B []).
Proof.
  assert (Hcode :
    written (snd (final
      (mrpc.handler (mrpc.init sample.Quote [mrpc.Use (tag "f1"); mrpc.Use (tag "f2")])
         (mrpc.mkTables ∅ ∅) (mrpc_dispatched scenario_B []))))
    = [mrpc_frame "2" "f2" [xc0]; mrpc_frame "2" "f1" [xc0];
       mrpc_frame "2" "fail"
         (mrpc_fail 404 (function_not_found sample.Quote "nope"))])
    by reflexivity.
  assert (Hspec :
    written (snd (final
      (first_outermost [tag "f1"; tag "f2"]
         (mrpc.handleRequest sample.Quote (mrpc.mkTables ∅ ∅))
         (mrpc_dispatched scenario_B []))))
    = [mrpc_frame "2" "f1" [xc0]; mrpc_frame "2" "f2" [xc0];
       mrpc_frame "2" "fail"
         (mrpc_fail 404 (function_not_found sample.Quote "nope"))])
    by reflexivity.
  split; [exact Hcode | split; [exact Hspec |]].
  intros Heq. rewrite Heq, Hspec in Hcode. discriminate Hcode.
Qed.

(** ** The connection loop *)

Lemma mrpc_serve_loop_app (pre rest : list ReadEvent) :
  snd (mrpc.serve_loop pre) = Reading ->
  mrpc.serve_loop (pre ++ rest)
  = (fst (mrpc.serve_loop pre) ++ fst (mrpc.serve_loop rest),
     snd (mrpc.serve_loop rest)).
Proof.
  induction pre as [|r pre IH]; simpl.
  - intros _. destruct (mrpc.serve_loop rest). reflexivity.
  - destruct r as [mt msg|err status].
    + destruct (negb (MessageType_eqb mt MessageBinary)); [exact IH|].
      destruct (mrpc_protocol.Request_UnmarshalMsg msg) as [[req b]|e];
        [|discriminate].
      destruct (mrpc.serve_loop pre) as [sp ex] eqn:Hpre. simpl.
      intros Hex. rewrite (IH Hex). reflexivity.
    + destruct (status <? 0); discriminate.
Qed.

Lemma jrpc_serve_loop_app (UR : bytes -> result jrpc_protocol.Request)
    (pre rest : list ReadEvent) :
  snd (jrpc.serve_loop UR pre) = Reading ->
  jrpc.serve_loop UR (pre ++ rest)
  = (fst (jrpc.serve_loop UR pre) ++ fst (jrpc.serve_loop UR rest),
     snd (jrpc.serve_loop UR rest)).
Proof.
  induction pre as [|r pre IH]; simpl.
  - intros _. destruct (jrpc.serve_loop UR rest). reflexivity.
  - destruct r as [mt msg|err status].
    + destruct (negb (MessageType_eqb mt MessageText)); [exact IH|].
      destruct (UR msg) as [req|e]; [|discriminate].
      destruct (jrpc.serve_loop UR pre) as [sp ex] eqn:Hpre. simpl.
      intros Hex. rewrite (IH Hex). reflexivity.
    + destruct (status <? 0); discriminate.
Qed.

(** C2, as the code has it.  When the loop, still reading after the reads
    [pre], gets a frame of its own message type whose bytes do not decode
    into a request, it dispatches nothing for that frame and returns the
    decode error: the connection ends, whatever reads would follow are never
    made, and the handlers dispatched before are the ones of [pre]. *)
Theorem decode_error_ends_the_loop :
  (forall pre msg rest e,
      snd (mrpc.serveHTTP None pre) = Reading ->
      mrpc_protocol.Request_UnmarshalMsg msg = Err e ->
      mrpc.serveHTTP None (pre ++ ReadMsg MessageBinary msg :: rest)
      = (fst (mrpc.serveHTTP None pre), Returned (Some e)))
  /\ (forall (UR : bytes -> result jrpc_protocol.Request) pre msg rest e,
        snd (jrpc.serveHTTP UR None pre) = Reading ->
        UR msg = Err e ->
        jrpc.serveHTTP UR None (pre ++ ReadMsg MessageText msg :: rest)
        = (fst (jrpc.serveHTTP UR None pre), Returned (Some e))).
Proof.
  unfold mrpc.serveHTTP, jrpc.serveHTTP. split.
  - intros pre msg rest e Hpre He.
    rewrite mrpc_serve_loop_app by exact Hpre.
    simpl. rewrite He. simpl. rewrite app_nil_r. reflexivity.
  - intros UR pre msg rest e Hpre He.
    rewrite jrpc_serve_loop_app by exact Hpre.
    simpl. rewrite He. simpl. rewrite app_nil_r. reflexivity.
Qed.

(** An empty frame between two requests of Scenario B, in both encodings:
    the first request is dispatched, the second is never read. *)
Lemma decode_error_ends_the_loop_witness :
  mrpc.serveHTTP None
    ([ReadMsg MessageBinary scenario_B_bytes]
     ++ ReadMsg MessageBinary [] :: [ReadMsg MessageBinary scenario_B_bytes])
  = ([mrpc.For scenario_B (Some mrpc.send_binary)],
     Returned (Some msgp.ErrShortBytes))
  /\ jrpc.serveHTTP sample.Unmarshal_Request None
       ([ReadMsg MessageText scenario_B_text]
        ++ ReadMsg MessageText [] :: [ReadMsg MessageText scenario_B_text])
     = ([jrpc.For scenario_B_json (Some jrpc.send_text)],
        Returned (Some "unexpected end of JSON input")).
Proof.
  split.
  - apply (proj1 decode_error_ends_the_loop
             [ReadMsg MessageBinary scenario_B_bytes] []
             [ReadMsg MessageBinary scenario_B_bytes] msgp.ErrShortBytes);
      reflexivity.
  - apply (proj2 decode_error_ends_the_loop sample.Unmarshal_Request
             [ReadMsg MessageText scenario_B_text] []
             [ReadMsg MessageText scenario_B_text]
             "unexpected end of JSON input");
      reflexivity.
Defined.

(** C2, as the specification has it, fails.  A frame that does not decode
    followed by the request of Scenario B: the loop returns the decode error
    and dispatches nothing, and no response is written, whereas the request
    alone is dispatched and answered while the loop goes on reading. *)
Lemma decode_error_does_not_skip_the_frame :
  mrpc.serveHTTP None
    [ReadMsg MessageBinary []; ReadMsg MessageBinary scenario_B_bytes]
  = ([], Returned (Some msgp.ErrShortBytes))
  /\ mrpc.serveHTTP None [ReadMsg MessageBinary scenario_B_bytes]
     = ([mrpc.For scenario_B (Some mrpc.send_binary)], Reading)
  /\ mrpc.serve (mrpc.init sample.Quote [])
       [ReadMsg MessageBinary []; ReadMsg MessageBinary scenario_B_bytes]
       (mkConn [] None)
     = (mkConn [] None, Returned (Some msgp.ErrShortBytes))
  /\ mrpc.serve (mrpc.init sample.Quote [])
       [ReadMsg MessageBinary scenario_B_bytes] (mkConn [] None)
     = (mkConn [mrpc_frame "2" "fail"
                  (mrpc_fail 404 (function_not_found sample.Quote "nope"))]
               None,
        Reading).
Proof. repeat split. Qed.

Lemma mrpc_serve_loop_filter (reads : list ReadEvent) :
  mrpc.serve_loop reads
  = mrpc.serve_loop (List.filter (fun r => negb (is_text r)) reads).
Proof.
  induction reads as [|r reads IH]; [reflexivity|].
  destruct r as [[|] msg|err status]; simpl.
  - exact IH.
  - rewrite IH. reflexivity.
  - reflexivity.
Qed.

Lemma jrpc_serve_loop_filter (UR : bytes -> result jrpc_protocol.Request)
    (reads : list ReadEvent) :
  jrpc.serve_loop UR reads
  = jrpc.serve_loop UR (List.filter (fun r => negb (is_binary r)) reads).
Proof.
  induction reads as [|r reads IH]; [reflexivity|].
  destruct r as [[|] msg|err status]; simpl.
  - rewrite IH. reflexivity.
  - exact IH.
  - reflexivity.
Qed.

(** C10.  A message of the other type (text for mrpc, binary for jrpc) is
    skipped: the loop goes on as if the message had not been read, so no
    request is decoded from it and no handler is dispatched for it, and what
    is written on the connection is what the other reads produce.  A stream
    of reads is served as the stream without those messages. *)
Theorem other_message_type_is_skipped :
  (forall msg reads,
      mrpc.serveHTTP None (ReadMsg MessageText msg :: reads)
      = mrpc.serveHTTP None reads)
  /\ (forall reads,
        mrpc.serveHTTP None reads
        = mrpc.serveHTTP None (List.filter (fun r => negb (is_text r)) reads))
  /\ (forall cfg msg reads c,
        mrpc.serve cfg (ReadMsg MessageText msg :: reads) c
        = mrpc.serve cfg reads c)
  /\ (forall (UR : bytes -> result jrpc_protocol.Request) msg reads,
        jrpc.serveHTTP UR None (ReadMsg MessageBinary msg :: reads)
        = jrpc.serveHTTP UR None reads)
  /\ (forall (UR : bytes -> result jrpc_protocol.Request) reads,
        jrpc.serveHTTP UR None reads
        = jrpc.serveHTTP UR None
            (List.filter (fun r => negb (is_binary r)) reads))
  /\ (forall (UR : bytes -> result jrpc_protocol.Request) cfg msg reads c,
        jrpc.serve UR cfg (ReadMsg MessageBinary msg :: reads) c
        = jrpc.serve UR cfg reads c).
Proof.
  unfold mrpc.serveHTTP, jrpc.serveHTTP.
  repeat split; intros;
    try reflexivity;
    try apply mrpc_serve_loop_filter;
    try apply jrpc_serve_loop_filter.
Qed.

(** ** The order of hooks *)

Section hook_order.
Local Open Scope nat_scope.

Context {A : Type}.
Variable Provides : A -> option (list string).
Variable DependsOn : A -> option (list string).

(** *** The marks *)

Lemma grows_refl p : grows p p.
Proof. induction p; constructor; auto. Qed.

Lemma grows_trans p1 p2 p3 : grows p1 p2 -> grows p2 p3 -> grows p1 p3.
Proof.
  unfold grows. intros H12. revert p3.
  induction H12 as [|b1 b2 p1 p2 Hb H12 IH]; intros p3 H23.
  - inversion H23. constructor.
  - inversion H23 as [|b2' b3 p2' p3' Hb' H23']; subst.
    constructor; auto.
Qed.

Lemma grows_length p p' : grows p p' -> length p = length p'.
Proof. apply Forall2_length. Qed.

Lemma grows_marked p p' k : grows p p' -> marked p k -> marked p' k.
Proof.
  unfold marked. intros H Hk.
  destruct (Forall2_lookup_l _ _ _ _ _ H Hk) as (b' & Hb' & Himp).
  rewrite Hb'. f_equal. auto.
Qed.

Lemma grows_free p p' : grows p p' -> free p' <= free p.
Proof.
  induction 1 as [|b b' p p' Hb H IH]; simpl; [lia|].
  destruct b, b'; try lia; discriminate (Hb eq_refl).
Qed.

Lemma grows_insert p i : grows p (<[i := true]> p).
Proof.
  revert i. induction p as [|b p IH]; intros i; [constructor|].
  destruct i; simpl; constructor; auto.
  - apply grows_refl.
  - apply IH.
Qed.

Lemma free_insert p i :
  p !! i = Some false -> S (free (<[i := true]> p)) = free p.
Proof.
  revert i. induction p as [|b p IH]; intros i Hi; [discriminate|].
  destruct i; simpl in *.
  - injection Hi as ->. reflexivity.
  - rewrite <- (IH i Hi). destruct b; simpl; lia.
Qed.

Lemma marked_insert p i k :
  i < length p ->
  marked (<[i := true]> p) k <-> marked p k \/ k = i.
Proof.
  intros Hi. unfold marked. rewrite list_lookup_insert_Some. split.
  - intros [(Heq & _ & _)|(Hne & Hk)]; auto.
  - intros [Hk|Heq]; [|subst k].
    + destruct (decide (i = k)) as [->|Hne]; auto.
    + left. auto.
Qed.

(** *** The indices gathered for a dependent hook *)

Lemma elem_of_provide_fold i names (d : gmap string (list nat)) name j :
  j ∈ default [] (fold_left (hook.provide i) names d !! name)
  <-> j ∈ default [] (d !! name) \/ (j = i /\ name ∈ names).
Proof.
  revert d. induction names as [|nm names IH]; intros d; simpl.
  - split; [auto|]. intros [H|[_ H]]; [exact H|]. inversion H.
  - rewrite IH. unfold hook.provide. rewrite lookup_insert.
    destruct (decide (nm = name)) as [->|Hne]; simpl.
    + rewrite elem_of_app, list_elem_of_singleton, elem_of_cons. tauto.
    + rewrite elem_of_cons. split.
      * intros [H|[-> H]]; auto.
      * intros [H|[-> [H|H]]]; auto. congruence.
Qed.

Lemma elem_of_collect i0 (hooks : list A) (d : gmap string (list nat)) name j :
  j ∈ default [] (hook.collect Provides i0 hooks d !! name)
  <-> j ∈ default [] (d !! name)
      \/ exists k h ps, j = i0 + k /\ hooks !! k = Some h
                        /\ Provides h = Some ps /\ name ∈ ps.
Proof.
  revert i0 d. induction hooks as [|h hooks IH]; intros i0 d; simpl.
  - split; [auto|]. intros [H|(k & h & ps & _ & H & _)]; [exact H|].
    discriminate.
  - rewrite IH. split.
    + intros [H|(k & h' & ps & -> & Hk & Hps & Hin)].
      * destruct (Provides h) as [names|] eqn:Hp; [|auto].
        apply elem_of_provide_fold in H as [H|[-> H]]; [auto|].
        right. exists 0, h, names. rewrite Nat.add_0_r. auto.
      * right. exists (S k), h', ps. split; [lia|]. auto.
    + intros [H|(k & h' & ps & -> & Hk & Hps & Hin)].
      * left. destruct (Provides h); [|exact H].
        apply elem_of_provide_fold. auto.
      * destruct k as [|k]; simpl in Hk.
        -- injection Hk as <-. left. rewrite Hps.
           apply elem_of_provide_fold. right. split; [lia|exact Hin].
        -- right. exists k, h', ps. split; [lia|]. auto.
Qed.

Lemma elem_of_gather_acc (d : gmap string (list nat)) names acc j :
  j ∈ fold_left (fun items name => items ++ default [] (d !! name)) names acc
  <-> j ∈ acc \/ exists name, name ∈ names /\ j ∈ default [] (d !! name).
Proof.
  revert acc. induction names as [|nm names IH]; intros acc; simpl.
  - split; [auto|]. intros [H|(name & H & _)]; [exact H|]. inversion H.
  - rewrite IH, elem_of_app. split.
    + intros [[H|H]|(name & Hin & H)]; auto.
      * right. exists nm. split; [left|exact H].
      * right. exists name. split; [right; exact Hin|exact H].
    + intros [H|(name & Hin & H)]; auto.
      apply elem_of_cons in Hin as [->|Hin]; auto.
      right. exists name. auto.
Qed.

(** The items that [place(i)] visits are the indices that [i] depends on. *)
Lemma elem_of_items (hooks : list A) i hook names j :
  hooks !! i = Some hook ->
  DependsOn hook = Some names ->
  j ∈ hook.sort_Ints (hook.gather (hook.collect Provides 0 hooks ∅) names)
  <-> depends Provides DependsOn hooks i j.
Proof.
  intros Hi Hd. unfold hook.sort_Ints. rewrite merge_sort_Permutation.
  unfold hook.gather. rewrite elem_of_gather_acc. split.
  - intros [H|(name & Hin & H)]; [inversion H|].
    apply elem_of_collect in H as [H|(k & h & ps & -> & Hk & Hps & Hp)].
    + rewrite lookup_empty in H. inversion H.
    + exists hook, h, names, ps, name. auto 10.
  - intros (hi & hj & ds & ps & name & Hi' & Hj & Hd' & Hp & Hin & Hin').
    rewrite Hi in Hi'. injection Hi' as <-. rewrite Hd in Hd'. injection Hd' as <-.
    right. exists name. split; [exact Hin|].
    apply elem_of_collect. right. exists j, hj, ps. auto.
Qed.

Lemma depends_lt (hooks : list A) i j :
  depends Provides DependsOn hooks i j -> i < length hooks /\ j < length hooks.
Proof.
  intros (hi & hj & ds & ps & name & Hi & Hj & _).
  split; eapply lookup_lt_Some; eassumption.
Qed.

(** *** The invariant of [place] *)

Variable hooks : list A.

#[local] Abbreviation placing := (placing hooks).
#[local] Abbreviation placed_after := (placed_after Provides DependsOn hooks).
#[local] Abbreviation depends := (depends Provides DependsOn hooks).
#[local] Abbreviation keeps_order := (keeps_order Provides DependsOn hooks).

Lemma placed_after_nil p idxs o :
  placing p idxs o -> placed_after p idxs o [] p [] [].
Proof.
  intros Hinv. unfold placed_after. rewrite !app_nil_r.
  split; [exact Hinv|]. split; [apply grows_refl|].
  split; [intros k; rewrite elem_of_nil; tauto|].
  split; [intros k Hk; inversion Hk|].
  split; [intros t Ht; inversion Ht|].
  intros _ _ Hord. exact Hord.
Qed.

Lemma gray_after p idxs p' new_i g :
  (forall k, marked p' k <-> marked p k \/ k ∈ new_i) ->
  gray p' (idxs ++ new_i) g -> gray p idxs g.
Proof.
  intros Hiff [Hm Hnot]. rewrite elem_of_app in Hnot.
  apply Hiff in Hm. unfold gray. tauto.
Qed.

Lemma placed_after_trans p idxs o T1 p1 n1 o1 T2 p2 n2 o2 :
  placed_after p idxs o T1 p1 n1 o1 ->
  placed_after p1 (idxs ++ n1) (o ++ o1) T2 p2 n2 o2 ->
  placed_after p idxs o (T1 ++ T2) p2 (n1 ++ n2) (o1 ++ o2).
Proof.
  intros (Hinv1 & Hg1 & Hiff1 & Hnew1 & Ht1 & Hord1)
         (Hinv2 & Hg2 & Hiff2 & Hnew2 & Ht2 & Hord2).
  unfold placed_after. rewrite !app_assoc.
  split; [exact Hinv2|]. split; [eapply grows_trans; eassumption|].
  split; [|split; [|split]].
  - intros k. rewrite Hiff2, Hiff1, elem_of_app. tauto.
  - intros k Hk Hm. apply elem_of_app in Hk as [Hk|Hk].
    + exact (Hnew1 k Hk Hm).
    + apply (Hnew2 k Hk). eapply grows_marked; eassumption.
  - intros t Ht. apply elem_of_app in Ht as [Ht|Ht].
    + eapply grows_marked; [exact Hg2|]. auto.
    + auto.
  - intros Hac Hgray Hord. apply Hord2; [exact Hac| |].
    + intros g t Hg Ht. apply Hgray.
      * eapply gray_after; eassumption.
      * apply elem_of_app. auto.
    + apply Hord1; [exact Hac| |exact Hord].
      intros g t Hg Ht. apply Hgray; [exact Hg|]. apply elem_of_app. auto.
Qed.

(** The end of [place(i)]: the items were the dependencies of [i], they have
    been visited, and [i] is appended. *)
Lemma place_finish p idxs o i hook items p' new_i new_o :
  p !! i = Some false ->
  hooks !! i = Some hook ->
  placing p idxs o ->
  placed_after (<[i := true]> p) idxs o items p' new_i new_o ->
  (forall j, depends i j <-> j ∈ items) ->
  placed_after p idxs o [i] p' (new_i ++ [i]) (new_o ++ [hook]).
Proof.
  intros Hpi Hhi (Hlen & Hpicks & Hnd & Hmk)
         ((Hlen' & Hpicks' & Hnd' & Hmk') & Hg & Hiff & Hnew & Ht & Hord)
         Hitems.
  assert (Hi : i < length p) by (eapply lookup_lt_Some; eassumption).
  assert (Hmi : marked p' i).
  { eapply grows_marked; [exact Hg|]. apply marked_insert; auto. }
  assert (Hiff0 : forall k, marked p' k <-> marked p k \/ k ∈ new_i ++ [i]).
  { intros k. rewrite Hiff, marked_insert, elem_of_app, list_elem_of_singleton
      by exact Hi. tauto. }
  assert (Hfresh : i ∉ idxs ++ new_i).
  { rewrite elem_of_app. intros [Hin|Hin].
    - apply Hmk in Hin. unfold marked in Hin. congruence.
    - apply (Hnew i Hin). apply marked_insert; auto. }
  unfold placed_after. rewrite !app_assoc.
  split; [|split; [|split; [|split; [|split]]]].
  - split; [exact Hlen'|]. split; [|split].
    + apply Forall2_app; [exact Hpicks'|]. constructor; [exact Hhi|constructor].
    + apply NoDup_app. split; [exact Hnd'|]. split.
      * intros x Hx Hxi. apply list_elem_of_singleton in Hxi. subst x. auto.
      * apply NoDup_singleton.
    + intros k Hk. apply elem_of_app in Hk as [Hk|Hk]; [auto|].
      apply list_elem_of_singleton in Hk. subst k. exact Hmi.
  - eapply grows_trans; [apply grows_insert|exact Hg].
  - exact Hiff0.
  - intros k Hk Hm. apply elem_of_app in Hk as [Hk|Hk].
    + apply (Hnew k Hk). apply marked_insert; auto.
    + apply list_elem_of_singleton in Hk. subst k.
      unfold marked in Hm. congruence.
  - intros t Hti. apply list_elem_of_singleton in Hti. subst t. exact Hmi.
  - intros Hac Hgray Hordered.
    assert (HL : ordered Provides DependsOn hooks (idxs ++ new_i)).
    { apply Hord; [exact Hac| |exact Hordered].
      intros g t [Hm Hnot] Hin. apply Hitems in Hin.
      apply marked_insert in Hm as [Hm| ->]; [|apply tc_once; exact Hin|exact Hi].
      eapply tc_r; [|exact Hin].
      apply Hgray; [split; assumption|]. apply list_elem_of_singleton. reflexivity. }
    intros a k Ha j Hdep.
    apply lookup_app_Some in Ha as [Ha|[Hge Ha]].
    + destruct (HL a k Ha j Hdep) as (b & Hb & Hbj).
      exists b. split; [exact Hb|]. apply lookup_app_l_Some. exact Hbj.
    + apply list_lookup_singleton_Some in Ha as [Ha <-].
      assert (Hj : j ∈ idxs ++ new_i).
      { pose proof (Ht j (proj1 (Hitems j) Hdep)) as Hmj.
        apply Hiff in Hmj as [Hmj|Hmj]; [|apply elem_of_app; auto].
        apply marked_insert in Hmj as [Hmj|Heq]; [|subst j|exact Hi].
        - destruct (decide (j ∈ idxs)) as [Hin|Hnot]; [apply elem_of_app; auto|].
          exfalso. apply (Hac j). eapply tc_r; [|exact Hdep].
          apply Hgray; [split; assumption|].
          apply list_elem_of_singleton. reflexivity.
        - exfalso. apply (Hac i). apply tc_once. exact Hdep. }
      apply list_elem_of_lookup in Hj as [b Hb].
      exists b. split; [|apply lookup_app_l_Some; exact Hb].
      apply lookup_lt_Some in Hb. lia.
Qed.

Lemma placed_after_refl p idxs o T :
  placing p idxs o -> (forall t, t ∈ T -> marked p t) ->
  placed_after p idxs o T p [] [].
Proof.
  intros Hinv HT.
  destruct (placed_after_nil p idxs o Hinv) as (H1 & H2 & H3 & H4 & _ & H6).
  split; [exact H1|]. split; [exact H2|]. split; [exact H3|].
  split; [exact H4|]. split; [exact HT|].
  rewrite app_nil_r. intros _ _ Hord. exact Hord.
Qed.

Lemma each_ok fuel :
  place_ok Provides DependsOn hooks fuel ->
  forall items p o idxs,
    Forall (fun j => j < length hooks) items ->
    placing p idxs o -> free p < fuel ->
    exists p' new_i new_o,
      hook.each (hook.place DependsOn hooks (hook.collect Provides 0 hooks ∅) fuel)
        items (p, o)
      = Some (p', o ++ new_o)
      /\ placed_after p idxs o items p' new_i new_o.
Proof.
  intros Hplace items. induction items as [|j items IH];
    intros p o idxs Hlt Hinv Hfree.
  - exists p, [], []. rewrite app_nil_r. split; [reflexivity|].
    apply placed_after_nil. exact Hinv.
  - inversion Hlt as [|? ? Hj Hlt']; subst.
    destruct (Hplace j p o idxs Hj Hinv Hfree) as (p1 & n1 & o1 & Hrun1 & Hpost1).
    pose proof Hpost1 as (Hinv1 & Hg1 & _).
    destruct (IH p1 (o ++ o1) (idxs ++ n1) Hlt' Hinv1) as (p2 & n2 & o2 & Hrun2 & Hpost2).
    { pose proof (grows_free _ _ Hg1). lia. }
    exists p2, (n1 ++ n2), (o1 ++ o2). split.
    + simpl. rewrite Hrun1, Hrun2, app_assoc. reflexivity.
    + apply (placed_after_trans p idxs o [j] p1 n1 o1 items p2 n2 o2); assumption.
Qed.

Lemma place_ok_all fuel : place_ok Provides DependsOn hooks fuel.
Proof.
  induction fuel as [|fuel IH]; intros i p o idxs Hi Hinv Hfree; [lia|].
  pose proof Hinv as (Hlen & Hpicks & Hnd & Hmk).
  destruct (lookup_lt_is_Some_2 p i) as [b Hb]; [lia|].
  destruct (lookup_lt_is_Some_2 hooks i Hi) as [hook Hhook].
  cbn [hook.place]. rewrite Hb. destruct b.
  - exists p, [], []. rewrite app_nil_r. split; [reflexivity|].
    apply placed_after_refl; [exact Hinv|].
    intros t Ht. apply list_elem_of_singleton in Ht. subst t. exact Hb.
  - rewrite Hhook.
    assert (Hinv0 : placing (<[i := true]> p) idxs o).
    { split; [rewrite length_insert; exact Hlen|]. split; [exact Hpicks|].
      split; [exact Hnd|]. intros k Hk.
      eapply grows_marked; [apply grows_insert|]. auto. }
    assert (Hfree0 : free (<[i := true]> p) < fuel).
    { pose proof (free_insert p i Hb). lia. }
    destruct (DependsOn hook) as [names|] eqn:Hdep.
    + destruct (each_ok fuel IH
                  (hook.sort_Ints
                     (hook.gather (hook.collect Provides 0 hooks ∅) names))
                  (<[i := true]> p) o idxs) as (p' & new_i & new_o & Hrun & Hpost);
        [|exact Hinv0|exact Hfree0|].
      { apply Forall_forall. intros j Hj.
        apply (elem_of_items hooks i hook names j Hhook Hdep) in Hj.
        apply depends_lt in Hj. tauto. }
      rewrite Hrun. exists p', (new_i ++ [i]), (new_o ++ [hook]).
      split; [rewrite app_assoc; reflexivity|].
      eapply place_finish; try eassumption.
      intros j. symmetry. exact (elem_of_items hooks i hook names j Hhook Hdep).
    + exists (<[i := true]> p), ([] ++ [i]), ([] ++ [hook]).
      split; [reflexivity|].
      eapply (place_finish p idxs o i hook []); try eassumption.
      * apply placed_after_nil. exact Hinv0.
      * intros j. split; [|intros Hj; inversion Hj].
        intros (hi & hj & ds & ps & name & Hi' & _ & Hd' & _).
        rewrite Hhook in Hi'. injection Hi' as <-. congruence.
Qed.

Lemma free_replicate n : free (replicate n false) = n.
Proof. induction n; simpl; auto. Qed.

Lemma picks_omap (idxs : list nat) (out : list A) :
  picks hooks idxs out -> omap (fun i => hooks !! i) idxs = out.
Proof.
  induction 1 as [|i h idxs out Hi H IH]; [reflexivity|].
  simpl. rewrite Hi. f_equal. exact IH.
Qed.

Lemma picks_lt (idxs : list nat) (out : list A) k :
  picks hooks idxs out -> k ∈ idxs -> k < length hooks.
Proof.
  intros H Hk. apply list_elem_of_lookup in Hk as [a Ha].
  destruct (Forall2_lookup_l _ _ _ _ _ H Ha) as (h & _ & Hh).
  eapply lookup_lt_Some. exact Hh.
Qed.

Lemma omap_lookup_seq (l : list A) m k :
  m = length l - k ->
  omap (fun i => l !! i) (seq k m) = drop k l.
Proof.
  revert k. induction m as [|m IH]; intros k Hm; simpl.
  - rewrite drop_ge by lia. reflexivity.
  - destruct (lookup_lt_is_Some_2 l k) as [x Hx]; [lia|].
    rewrite Hx. rewrite (drop_S l x k Hx). f_equal. apply (IH (S k)). lia.
Qed.

(** *** The code and the words of the specification *)

#[local] Abbreviation place :=
  (hook.place DependsOn hooks (hook.collect Provides 0 hooks ∅)).

Lemma each_grows (f : nat -> list bool * list A -> option (list bool * list A)) :
  (forall j p o p' o', f j (p, o) = Some (p', o') -> grows p p') ->
  forall items p o p' o',
    hook.each f items (p, o) = Some (p', o') -> grows p p'.
Proof.
  intros Hf items. induction items as [|j items IH]; intros p o p' o' Hrun.
  - injection Hrun as <- <-. apply grows_refl.
  - simpl in Hrun. destruct (f j (p, o)) as [[p1 o1]|] eqn:Hj; [|discriminate].
    eapply grows_trans; [eapply Hf; exact Hj|]. eapply IH. exact Hrun.
Qed.

Lemma place_marks fuel i p o p' o' :
  place fuel i (p, o) = Some (p', o') -> grows p p' /\ marked p' i.
Proof.
  revert i p o p' o'. induction fuel as [|fuel IH]; intros i p o p' o' Hrun;
    [discriminate|].
  cbn [hook.place] in Hrun.
  destruct (p !! i) as [[|]|] eqn:Hb; [| |discriminate].
  - injection Hrun as <- <-. split; [apply grows_refl|exact Hb].
  - destruct (hooks !! i) as [item|]; [|discriminate].
    assert (Hall : forall items p1 o1,
               hook.each (place fuel) items (<[i := true]> p, o) = Some (p1, o1) ->
               grows p p1 /\ marked p1 i).
    { intros items p1 o1 Heach.
      assert (Hg : grows (<[i := true]> p) p1).
      { eapply (each_grows (place fuel)); [|exact Heach].
        intros j q r q' r' Hj. apply (IH j q r q' r' Hj). }
      split; [eapply grows_trans; [apply grows_insert|exact Hg]|].
      eapply grows_marked; [exact Hg|].
      apply marked_insert; [eapply lookup_lt_Some; exact Hb|auto]. }
    destruct (DependsOn item) as [names|].
    + destruct (hook.each _ _ _) as [[p1 o1]|] eqn:Heach; [|discriminate].
      injection Hrun as <- <-. eapply Hall. exact Heach.
    + injection Hrun as <- <-. apply (Hall [] _ o). reflexivity.
Qed.

(** Placing an index a second time changes nothing. *)
Lemma place_twice fuel i st st' :
  place fuel i st = Some st' -> place fuel i st' = Some st'.
Proof.
  destruct st as [p o], st' as [p' o']. intros Hrun.
  destruct (place_marks fuel i p o p' o' Hrun) as [_ Hm].
  destruct fuel as [|fuel]; [discriminate|].
  cbn [hook.place]. rewrite Hm. reflexivity.
Qed.

Lemma each_ext (f g : nat -> list bool * list A -> option (list bool * list A))
    items st :
  (forall j st, f j st = g j st) -> hook.each f items st = hook.each g items st.
Proof.
  intros Hfg. revert st. induction items as [|j items IH]; intros st; simpl.
  - reflexivity.
  - rewrite Hfg. destruct (g j st); [apply IH|reflexivity].
Qed.

(** A sorted list of items, with its repetitions, is visited as the
    strictly sorted list of the same items. *)
Lemma each_sorted fuel (items : list nat) :
  StronglySorted Nat.le items ->
  forall (strict : list nat) st,
    StronglySorted Nat.lt strict ->
    (forall j, j ∈ items <-> j ∈ strict) ->
    hook.each (place fuel) items st = hook.each (place fuel) strict st.
Proof.
  induction 1 as [|x items Hsorted IH Hle]; intros strict st Hstrict Hsame.
  - destruct strict as [|y strict]; [reflexivity|].
    exfalso. assert (Hy : y ∈ []) by (apply Hsame; left). inversion Hy.
  - destruct strict as [|y strict].
    { exfalso. assert (Hx : x ∈ []) by (apply Hsame; left). inversion Hx. }
    apply StronglySorted_inv in Hstrict as [Hstrict Hlt].
    rewrite Forall_forall in Hle, Hlt.
    assert (Hxy : x = y).
    { assert (Hx : x ∈ y :: strict) by (apply Hsame; left).
      assert (Hy : y ∈ x :: items) by (apply Hsame; left).
      apply elem_of_cons in Hx as [Hx|Hx]; [exact Hx|].
      apply elem_of_cons in Hy as [Hy|Hy]; [auto|].
      pose proof (Hlt x Hx). pose proof (Hle y Hy). lia. }
    subst y.
    assert (Hnotin : x ∉ strict).
    { intros Hx. pose proof (Hlt x Hx). lia. }
    destruct (decide (x ∈ items)) as [Hin|Hnot].
    + simpl. destruct (place fuel x st) as [st'|] eqn:Hx; [|reflexivity].
      rewrite (IH (x :: strict) st').
      * simpl. rewrite (place_twice fuel x st st' Hx). reflexivity.
      * constructor; [exact Hstrict|]. apply Forall_forall. exact Hlt.
      * intros j. rewrite <- Hsame, elem_of_cons. split; [auto|].
        intros [->|Hj]; auto.
    + simpl. destruct (place fuel x st) as [st'|]; [|reflexivity].
      apply IH; [exact Hstrict|].
      intros j. split.
      * intros Hj. assert (Hj' : j ∈ x :: strict) by (apply Hsame; right; exact Hj).
        apply elem_of_cons in Hj' as [->|Hj']; [contradiction|exact Hj'].
      * intros Hj. assert (Hj' : j ∈ x :: items) by (apply Hsame; right; exact Hj).
        apply elem_of_cons in Hj' as [->|Hj']; [contradiction|exact Hj'].
Qed.

Lemma providers_sorted names :
  StronglySorted Nat.lt (providers Provides hooks names).
Proof.
  unfold providers. generalize 0 as k. generalize (length hooks) as m.
  induction m as [|m IH]; intros k; simpl; [constructor|].
  destruct (provides_any Provides hooks names k); [|apply IH].
  constructor; [apply IH|].
  apply Forall_forall. intros j Hj. apply list_elem_of_In in Hj.
  apply filter_In in Hj as [Hj _]. apply in_seq in Hj. lia.
Qed.

Lemma elem_of_providers i item names j :
  hooks !! i = Some item ->
  DependsOn item = Some names ->
  j ∈ providers Provides hooks names <-> depends i j.
Proof.
  intros Hi Hd. unfold providers.
  rewrite list_elem_of_In, filter_In, in_seq. unfold provides_any. split.
  - intros [Hj Hp].
    destruct (hooks !! j) as [hj|] eqn:Hhj; [|discriminate].
    destruct (Provides hj) as [ps|] eqn:Hps; [|discriminate].
    apply existsb_exists in Hp as (name & Hin & Hp).
    apply bool_decide_eq_true in Hp. apply list_elem_of_In in Hin.
    exists item, hj, names, ps, name. auto 10.
  - intros (hi & hj & ds & ps & name & Hi' & Hj & Hd' & Hp & Hin & Hin').
    rewrite Hi in Hi'. injection Hi' as <-. rewrite Hd in Hd'. injection Hd' as <-.
    split; [apply lookup_lt_Some in Hj; lia|].
    rewrite Hj, Hp. apply existsb_exists. exists name.
    split; [apply list_elem_of_In; exact Hin|].
    apply bool_decide_eq_true. exact Hin'.
Qed.

Lemma providers_nil : providers Provides hooks [] = [].
Proof.
  unfold providers. generalize 0 as k. generalize (length hooks) as m.
  induction m as [|m IH]; intros k; simpl; [reflexivity|].
  unfold provides_any at 1.
  destruct (hooks !! k) as [h|]; [destruct (Provides h)|]; simpl; apply IH.
Qed.

Lemma place_in_words_eq fuel i st :
  place fuel i st = place_in_words Provides DependsOn hooks fuel i st.
Proof.
  revert i st. induction fuel as [|fuel IH]; intros i [p o]; [reflexivity|].
  cbn [hook.place place_in_words fst snd].
  destruct (p !! i) as [[|]|]; [reflexivity| |reflexivity].
  destruct (hooks !! i) as [item|] eqn:Hi; [|reflexivity].
  destruct (DependsOn item) as [names|] eqn:Hd; cbn [default].
  - rewrite (each_sorted fuel
               (hook.sort_Ints
                  (hook.gather (hook.collect Provides 0 hooks ∅) names))
               (StronglySorted_merge_sort _ _)
               (providers Provides hooks names)).
    + rewrite (each_ext (place fuel)
                 (place_in_words Provides DependsOn hooks fuel)) by exact IH.
      reflexivity.
    + apply providers_sorted.
    + intros j. rewrite (elem_of_items hooks i item names j Hi Hd).
      symmetry. exact (elem_of_providers i item names j Hi Hd).
  - rewrite providers_nil. reflexivity.
Qed.

Lemma Order_in_words_eq :
  hook.Order Provides DependsOn hooks = Order_in_words Provides DependsOn hooks.
Proof.
  unfold hook.Order, Order_in_words.
  rewrite (each_ext _ (place_in_words Provides DependsOn hooks (S (length hooks))));
    [reflexivity|].
  intros j st. apply place_in_words_eq.
Qed.

(** The loop of [Order] over all the indices. *)
Lemma Order_run :
  exists p' idxs out,
    hook.each
      (hook.place DependsOn hooks (hook.collect Provides 0 hooks ∅)
         (S (length hooks)))
      (seq 0 (length hooks)) (replicate (length hooks) false, [])
    = Some (p', out)
    /\ placed_after (replicate (length hooks) false) [] []
         (seq 0 (length hooks)) p' idxs out.
Proof.
  destruct (each_ok (S (length hooks)) (place_ok_all _)
              (seq 0 (length hooks)) (replicate (length hooks) false) [] [])
    as (p' & idxs & out & Hrun & Hpost).
  - apply Forall_seq. intros j Hj. lia.
  - split; [apply length_replicate|]. split; [constructor|].
    split; [apply NoDup_nil_2|]. intros k Hk. inversion Hk.
  - rewrite free_replicate. lia.
  - exists p', idxs, out. split; [exact Hrun|exact Hpost].
Qed.

End hook_order.

(** C8.  [Order] returns for every list of hooks, cyclic or not (its
    recursion never runs out of the depth it was given and no index is out
    of range), and its result is the one of the depth-first placement in the
    words of the specification: for each item in original order, the items
    that provide a name it depends on are placed first, in ascending index
    order, items already placed being skipped.  The result holds the hooks
    at the indices [idxs], a permutation of all the indices, so every hook
    is placed exactly once.  When no hook depends on itself through a chain
    of dependencies, every hook that provides a name stands in the result
    before every hook that depends on that name. *)
Theorem Order_places_providers_first {A : Type}
    (Provides DependsOn : A -> option (list string)) (hooks : list A) :
  exists out idxs,
    hook.Order Provides DependsOn hooks = Some out
    /\ hook.Order Provides DependsOn hooks
       = Order_in_words Provides DependsOn hooks
    /\ picks hooks idxs out
    /\ idxs ≡ₚ seq 0 (length hooks)
    /\ out ≡ₚ hooks
    /\ (acyclic Provides DependsOn hooks ->
        forall i j, depends Provides DependsOn hooks i j -> before j i idxs).
Proof.
  destruct (Order_run Provides DependsOn hooks)
    as (p' & idxs & out & Hrun & Hpost).
  destruct Hpost as ((Hlen & Hpicks & Hnd & Hmk) & Hg & Hiff & Hnew & Ht & Hord).
  simpl in Hpicks, Hnd, Hmk, Hord.
  assert (Hperm : idxs ≡ₚ seq 0 (length hooks)).
  { apply NoDup_Permutation; [exact Hnd|apply NoDup_seq|].
    intros k. rewrite elem_of_seq. split.
    - intros Hk. pose proof (picks_lt hooks idxs out k Hpicks Hk). lia.
    - intros Hk. assert (Hin : k ∈ seq 0 (length hooks))
        by (apply elem_of_seq; lia).
      apply Ht, Hiff in Hin as [Hin|Hin]; [|exact Hin].
      unfold marked in Hin. apply lookup_replicate in Hin as [Hin _].
      discriminate. }
  exists out, idxs.
  split; [|split; [apply Order_in_words_eq
                  |split; [exact Hpicks|split; [exact Hperm|split]]]].
  - unfold hook.Order. rewrite Hrun. reflexivity.
  - rewrite <- (picks_omap hooks idxs out Hpicks), Hperm.
    rewrite (omap_lookup_seq hooks (length hooks) 0%nat) by lia.
    reflexivity.
  - intros Hac i j Hdep.
    assert (Hordered : ordered Provides DependsOn hooks idxs).
    { apply Hord; [exact Hac| |].
      - intros g t [Hm _]. unfold marked in Hm.
        apply lookup_replicate in Hm as [Hm _]. discriminate.
      - intros a k Ha. rewrite lookup_nil in Ha. discriminate. }
    destruct (depends_lt Provides DependsOn hooks i j Hdep) as [Hi _].
    assert (Hin : i ∈ idxs).
    { rewrite Hperm. apply elem_of_seq. lia. }
    apply list_elem_of_lookup in Hin as [a Ha].
    destruct (Hordered a i Ha j Hdep) as (b & Hb & Hbj).
    exists a, b. auto.
Qed.

Lemma acyclic_of_rank {A : Type}
    (Provides DependsOn : A -> option (list string)) (hooks : list A)
    (rank : nat -> nat) :
  (forall i j, depends Provides DependsOn hooks i j -> (rank j < rank i)%nat) ->
  acyclic Provides DependsOn hooks.
Proof.
  intros Hrank i Hloop.
  assert (Hlt : forall a b, tc (depends Provides DependsOn hooks) a b ->
                            (rank b < rank a)%nat).
  { induction 1 as [a b Hab|a b c Hab Hbc IH].
    - apply Hrank. exact Hab.
    - apply Hrank in Hab. lia. }
  apply Hlt in Hloop. lia.
Qed.

Lemma sample_hooks_acyclic :
  acyclic sample_Provides sample_DependsOn sample_hooks.
Proof.
  apply (acyclic_of_rank _ _ _ (fun i => (3 - i)%nat)).
  intros i j Hdep.
  pose proof (depends_lt _ _ _ _ _ Hdep) as [Hi _]. simpl in Hi.
  destruct i as [|[|[|i]]]; [| | |lia].
  - apply (elem_of_providers sample_Provides sample_DependsOn sample_hooks 0%nat
             _ _ j eq_refl eq_refl) in Hdep.
    vm_compute in Hdep. apply list_elem_of_singleton in Hdep. subst j. lia.
  - apply (elem_of_providers sample_Provides sample_DependsOn sample_hooks 1%nat
             _ _ j eq_refl eq_refl) in Hdep.
    vm_compute in Hdep. apply list_elem_of_singleton in Hdep. subst j. lia.
  - apply (elem_of_providers sample_Provides sample_DependsOn sample_hooks 2%nat
             _ _ j eq_refl eq_refl) in Hdep.
    vm_compute in Hdep. inversion Hdep.
Qed.

Lemma sample_server_depends_on_mux :
  depends sample_Provides sample_DependsOn sample_hooks 0 1.
Proof.
  exists (mkHook "server" ["server"] ["mux"]), (mkHook "mux" ["mux"] ["log"]),
    ["mux"], ["mux"], "mux".
  repeat split; apply list_elem_of_singleton; reflexivity.
Qed.

(** The sample hooks are ordered logger, multiplexer, server, and the
    multiplexer stands before the server that depends on it. *)
Lemma Order_places_providers_first_witness :
  exists out idxs,
    hook.Order sample_Provides sample_DependsOn sample_hooks = Some out
    /\ List.map hook_name out = ["log"; "mux"; "server"]
    /\ before 1 0 idxs.
Proof.
  destruct (Order_places_providers_first sample_Provides sample_DependsOn
              sample_hooks)
    as (out & idxs & Hrun & _ & _ & _ & _ & Hfirst).
  exists out, idxs. split; [exact Hrun|]. split.
  - assert (Hout : hook.Order sample_Provides sample_DependsOn sample_hooks
                   = Some [mkHook "log" ["log"] [];
                           mkHook "mux" ["mux"] ["log"];
                           mkHook "server" ["server"] ["mux"]])
      by (vm_compute; reflexivity).
    rewrite Hrun in Hout. injection Hout as ->. reflexivity.
  - apply (Hfirst sample_hooks_acyclic). exact sample_server_depends_on_mux.
Defined.

(** A cycle is not an error: two hooks that depend on each other come out
    in the best-effort order, the second before the first. *)
Example Order_of_a_cycle :
  hook.Order sample_Provides sample_DependsOn
    [mkHook "a" ["a"] ["b"]; mkHook "b" ["b"] ["a"]]
  = Some [mkHook "b" ["b"] ["a"]; mkHook "a" ["a"] ["b"]].
Proof. vm_compute. reflexivity. Qed.

(** * Further properties of the code *)

(** ** Streams *)

Lemma mrpc_Fail_scope (st : mrpc.State) code msg :
  mrpc.send (fst (final (mrpc.Fail code msg st))) = None.
Proof. destruct (mrpc_Fail_clears st code msg) as (e & c & ->). reflexivity. Qed.

Lemma mrpc_End_scope (st : mrpc.State) :
  mrpc.send (fst (final (mrpc.End st))) = None.
Proof. destruct (mrpc_End_clears st) as (e & c & ->). reflexivity. Qed.

(** X1.  The handler that [StartFn] registers, on a dispatched scope: an
    input that does not decode gives one failure of code 406 whatever the
    stream function is; a stream function that returns an error gives a
    failure of code 500 with its message; one that returns nil gives the
    response [end].  Whenever the handler returns, from any state, the send
    function of the scope is nil. *)
Theorem StartFn_handler_outcomes :
  forall (I : Type) (UI : msgp.Unmarshaler I)
         (fn : M mrpc.State (option error)) req w,
    (forall e,
        msgp.UnmarshalMsg (mrpc_protocol.Input req) = Err e ->
        mrpc.StartFn_handler (I:=I) fn (mrpc_dispatched req w)
        = Done tt
            (mrpc_ended req
               (w ++ [mrpc_frame (mrpc_protocol.ID req) "fail"
                        (mrpc_fail 406 (while_decoding e))])))
    /\ (forall input rest e w',
           msgp.UnmarshalMsg (mrpc_protocol.Input req) = Ok (input, rest) ->
           fn (mrpc_dispatched req w) = Done (Some e) (mrpc_dispatched req w') ->
           mrpc.StartFn_handler (I:=I) fn (mrpc_dispatched req w)
           = Done tt
               (mrpc_ended req
                  (w' ++ [mrpc_frame (mrpc_protocol.ID req) "fail"
                            (mrpc_fail 500 e)])))
    /\ (forall input rest w',
           msgp.UnmarshalMsg (mrpc_protocol.Input req) = Ok (input, rest) ->
           fn (mrpc_dispatched req w) = Done None (mrpc_dispatched req w') ->
           mrpc.StartFn_handler (I:=I) fn (mrpc_dispatched req w)
           = Done tt
               (mrpc_ended req
                  (w' ++ [mrpc_frame (mrpc_protocol.ID req) "end" [xc0]])))
    /\ (forall st st',
           mrpc.StartFn_handler (I:=I) fn st = Done tt st' ->
           mrpc.send (fst st') = None).
Proof.
  intros I UI fn req w. repeat split.
  - intros e He. unfold mrpc.StartFn_handler, bind at 1, get. scope_simpl.
    rewrite He. unfold bind. rewrite mrpc_Fail_dispatched. reflexivity.
  - intros input rest e w' Hin Hfn.
    unfold mrpc.StartFn_handler, bind at 1, get. scope_simpl.
    rewrite Hin. unfold bind at 1. rewrite Hfn.
    unfold bind. rewrite mrpc_Fail_dispatched. reflexivity.
  - intros input rest w' Hin Hfn.
    unfold mrpc.StartFn_handler, bind at 1, get. scope_simpl.
    rewrite Hin. unfold bind at 1. rewrite Hfn.
    unfold bind. rewrite mrpc_End_dispatched. reflexivity.
  - intros st st'. unfold mrpc.StartFn_handler, bind at 1, get.
    destruct (msgp.UnmarshalMsg _) as [[input rest]|e].
    + unfold bind at 1. destruct (fn st) as [[e|] st1|msg st1]; [| |discriminate].
      * unfold bind.
        destruct (mrpc_Fail_clears st1 500 e) as (err & c & ->).
        unfold ret. intros Heq. injection Heq as <-. reflexivity.
      * unfold bind.
        destruct (mrpc_End_clears st1) as (err & c & ->).
        unfold ret. intros Heq. injection Heq as <-. reflexivity.
    + unfold bind.
      destruct (mrpc_Fail_clears st 406 (e +:+ " while decoding input"))
        as (err & c & ->).
      unfold ret. intros Heq. injection Heq as <-. reflexivity.
Qed.

Lemma StartFn_handler_outcomes_witness :
  mrpc.StartFn_handler (I:=string) (ret (Some "boom"))
    (mrpc_dispatched start_ticks [])
  = Done tt
      (mrpc_ended start_ticks [mrpc_frame "7" "fail" (mrpc_fail 500 "boom")])
  /\ mrpc.StartFn_handler (I:=string) (ret None) (mrpc_dispatched start_ticks [])
     = Done tt (mrpc_ended start_ticks [mrpc_frame "7" "end" [xc0]])
  /\ mrpc.StartFn_handler (I:=string) (ret None)
       (mrpc_dispatched call_echo_nil [])
     = Done tt
         (mrpc_ended call_echo_nil
            [mrpc_frame "1" "fail"
               (mrpc_fail 406
                  (while_decoding msgp.ErrShortBytes))])
  /\ mrpc.send
       (fst (mrpc_ended start_ticks [mrpc_frame "7" "end" [xc0]])) = None.
Proof.
  split; [|split; [|split]].
  - destruct (StartFn_handler_outcomes string _ (ret (Some "boom"))
                start_ticks []) as (_ & H500 & _).
    apply (H500 "go" [] "boom" []); reflexivity.
  - destruct (StartFn_handler_outcomes string _ (ret None) start_ticks [])
      as (_ & _ & Hend & _).
    apply (Hend "go" [] []); reflexivity.
  - destruct (StartFn_handler_outcomes string _ (ret None) call_echo_nil [])
      as (H406 & _).
    apply H406. reflexivity.
  - destruct (StartFn_handler_outcomes string _ (ret None) start_ticks [])
      as (_ & _ & _ & Hnil).
    apply (Hnil (mrpc_dispatched start_ticks [])). reflexivity.
Defined.

Lemma yield_each_dispatched req outputs encs w :
  Forall2 encodes_as outputs encs ->
  yield_each outputs (mrpc_dispatched req w)
  = Done None
      (mrpc_dispatched req
         (w ++ List.map (mrpc_frame (mrpc_protocol.ID req) "yield") encs)).
Proof.
  intros Hall. revert w. induction Hall as [|o enc outputs encs Ho Hall IH];
    intros w; simpl.
  - rewrite app_nil_r. reflexivity.
  - unfold bind, mrpc.Yield.
    rewrite (mrpc_Respond_dispatched req w "yield" o enc) by exact Ho.
    rewrite IH, <- app_assoc. reflexivity.
Qed.

(** X2.  A stream whose function yields a list of outputs and returns nil
    writes, on a dispatched scope, one [yield] frame per output, in the
    order of the list, and then exactly one [end] frame, after which the
    scope cannot send. *)
Theorem StartFn_streams_then_ends :
  forall (I : Type) (UI : msgp.Unmarshaler I) req w outputs encs input rest,
    msgp.UnmarshalMsg (mrpc_protocol.Input req) = Ok (input, rest) ->
    Forall2 encodes_as outputs encs ->
    mrpc.StartFn_handler (I:=I) (yield_each outputs) (mrpc_dispatched req w)
    = Done tt
        (mrpc_ended req
           (w ++ List.map (mrpc_frame (mrpc_protocol.ID req) "yield") encs
              ++ [mrpc_frame (mrpc_protocol.ID req) "end" [xc0]])).
Proof.
  intros I UI req w outputs encs input rest Hin Hall.
  unfold mrpc.StartFn_handler, bind at 1, get. scope_simpl.
  rewrite Hin. unfold bind at 1.
  rewrite (yield_each_dispatched req outputs encs w Hall).
  unfold bind. rewrite mrpc_End_dispatched, <- app_assoc. reflexivity.
Qed.

Lemma StartFn_streams_then_ends_witness :
  mrpc.StartFn_handler (I:=string)
    (yield_each [text_output "a"; None; text_output "b"])
    (mrpc_dispatched start_ticks [])
  = Done tt
      (mrpc_ended start_ticks
         [mrpc_frame "7" "yield" (msgp.AppendString [] "a");
          mrpc_frame "7" "yield" [xc0];
          mrpc_frame "7" "yield" (msgp.AppendString [] "b");
          mrpc_frame "7" "end" [xc0]]).
Proof.
  apply (StartFn_streams_then_ends string _ start_ticks []
           [text_output "a"; None; text_output "b"]
           [msgp.AppendString [] "a"; [xc0]; msgp.AppendString [] "b"]
           "go" []).
  - reflexivity.
  - repeat constructor.
Defined.

(** ** Responses that cannot be encoded or sent *)

(** X3.  When the output of a response does not encode, [Respond] returns
    the encoder's error followed by [while encoding response], writes
    nothing and leaves the scope able to send.  The handler of [CallFn]
    discards that error: a call whose output does not encode returns
    normally without any response on the connection.  In jrpc the same holds
    for [respond]; a [Fail] whose response does not encode writes nothing
    either and still ends the scope. *)
Theorem response_lost_when_encoding_fails :
  (forall req w method m e,
      (forall b, msgp.MarshalMsg m b = Err e) ->
      mrpc.Respond method (Some m) (mrpc_dispatched req w)
      = Done (Some (e +:+ " while encoding response")) (mrpc_dispatched req w))
  /\ (forall (I O : Type) (UI : msgp.Unmarshaler I) (MO : msgp.Marshaler O)
             (fn : I -> M mrpc.State (result O)) req w input rest out w' e,
        msgp.UnmarshalMsg (mrpc_protocol.Input req) = Ok (input, rest) ->
        fn input (mrpc_dispatched req w) = Done (Ok out) (mrpc_dispatched req w') ->
        (forall b, msgp.MarshalMsg (msgp.marshal out) b = Err e) ->
        mrpc.CallFn_handler fn (mrpc_dispatched req w)
        = Done tt (mrpc_dispatched req w'))
  /\ (forall (any : Type) (MR : jrpc_protocol.Response any -> result bytes)
             req w r e,
        MR (jrpc_protocol.mkResponse (jrpc_protocol.ID req)
              (jrpc_protocol.Result r) (jrpc_protocol.rsError r)
              (jrpc_protocol.End r)) = Err e ->
        jrpc.respond MR r (jrpc_dispatched req w)
        = Done (Some (e +:+ " while encoding response")) (jrpc_dispatched req w))
  /\ (forall (any : Type) (MR : jrpc_protocol.Response any -> result bytes)
             req w code msg e,
        MR (jrpc_failure (jrpc_protocol.ID req) code msg) = Err e ->
        jrpc.Fail MR code msg (jrpc_dispatched req w)
        = Done (Some (e +:+ " while encoding response")) (jrpc_ended req w)).
Proof.
  assert (Hm : forall req w method m e,
             (forall b, msgp.MarshalMsg m b = Err e) ->
             mrpc.Respond method (Some m) (mrpc_dispatched req w)
             = Done (Some (e +:+ " while encoding response"))
                 (mrpc_dispatched req w)).
  { intros req w method m e He.
    unfold mrpc.Respond, mrpc_dispatched, bind, get. simpl.
    unfold mrpc_protocol.Response_MarshalMsg. simpl. rewrite He. reflexivity. }
  assert (Hj : forall (any : Type)
                      (MR : jrpc_protocol.Response any -> result bytes)
                      req w r e,
             MR (jrpc_protocol.mkResponse (jrpc_protocol.ID req)
                   (jrpc_protocol.Result r) (jrpc_protocol.rsError r)
                   (jrpc_protocol.End r)) = Err e ->
             jrpc.respond MR r (jrpc_dispatched req w)
             = Done (Some (e +:+ " while encoding response"))
                 (jrpc_dispatched req w)).
  { intros any MR req w r e He.
    unfold jrpc.respond, jrpc_dispatched, bind, get. simpl.
    rewrite He. reflexivity. }
  split; [exact Hm|split; [|split; [exact Hj|]]].
  - intros I O UI MO fn req w input rest out w' e Hin Hfn He.
    unfold mrpc.CallFn_handler, bind at 1, get. scope_simpl.
    rewrite Hin. unfold bind at 1. rewrite Hfn.
    unfold bind, mrpc.Succ. rewrite (Hm req w' "succ" _ e He). reflexivity.
  - intros any MR req w code msg e He.
    unfold jrpc.Fail, bind.
    rewrite (Hj any MR req w
               (jrpc_protocol.mkResponse "" None
                  (Some (jrpc_protocol.mkError code msg None)) false) e He).
    reflexivity.
Qed.

Lemma response_lost_when_encoding_fails_witness :
  mrpc.Respond "succ" (Some unencodable) (mrpc_dispatched call_echo_hi [])
  = Done (Some "cannot encode while encoding response")
      (mrpc_dispatched call_echo_hi [])
  /\ mrpc.CallFn_handler opaque_fn (mrpc_dispatched call_echo_hi [])
     = Done tt (mrpc_dispatched call_echo_hi [])
  /\ jrpc.respond Marshal_unsupported
       (jrpc_protocol.mkResponse "" None None false)
       (jrpc_dispatched scenario_B_json [])
     = Done (Some "json: unsupported type while encoding response")
         (jrpc_dispatched scenario_B_json [])
  /\ jrpc.Fail Marshal_unsupported 500 "boom" (jrpc_dispatched scenario_B_json [])
     = Done (Some "json: unsupported type while encoding response")
         (jrpc_ended scenario_B_json []).
Proof.
  destruct response_lost_when_encoding_fails as (Hm & Hcall & Hj & Hfail).
  split; [|split; [|split]].
  - apply (Hm call_echo_hi [] "succ" unencodable "cannot encode"). reflexivity.
  - apply (Hcall string Opaque _ _ opaque_fn call_echo_hi [] "hi" [] mkOpaque []
             "cannot encode"); reflexivity.
  - apply (Hj sample.RawMessage Marshal_unsupported scenario_B_json [] _
             "json: unsupported type").
    reflexivity.
  - apply (Hfail sample.RawMessage Marshal_unsupported scenario_B_json []
             500 "boom" "json: unsupported type").
    reflexivity.
Defined.

(** X4.  The send function given to [For] is the one [Respond] calls: with
    nil every response operation is refused, from the start; otherwise the
    encoded frame is passed to it once and its error is what [Respond]
    returns, the scope staying as it is.  When the send function fails,
    [Fail] (or [End]) returns that error and has ended the scope all the
    same. *)
Theorem For_send_is_what_Respond_calls :
  (forall req c, mrpc_sends_disabled (mrpc.For req None, c))
  /\ (forall req (f : mrpc.SendFn) c method output enc,
        encodes_as output enc ->
        mrpc.Respond method output (mrpc.For req (Some f), c)
        = Done (fst (f (snd (mrpc_frame (mrpc_protocol.ID req) method enc)) c))
            (mrpc.For req (Some f),
             snd (f (snd (mrpc_frame (mrpc_protocol.ID req) method enc)) c)))
  /\ (forall req (f : mrpc.SendFn) c code msg,
        mrpc.Fail code msg (mrpc.For req (Some f), c)
        = Done (fst (f (snd (mrpc_frame (mrpc_protocol.ID req) "fail"
                               (mrpc_fail code msg))) c))
            (mrpc.For req None,
             snd (f (snd (mrpc_frame (mrpc_protocol.ID req) "fail"
                            (mrpc_fail code msg))) c)))
  /\ (forall (any : Type) (MR : jrpc_protocol.Response any -> result bytes)
             req c,
        jrpc_sends_disabled MR (jrpc.For req None, c)).
Proof.
  assert (Hr : forall req (f : mrpc.SendFn) c method output enc,
             encodes_as output enc ->
             mrpc.Respond method output (mrpc.For req (Some f), c)
             = Done (fst (f (snd (mrpc_frame (mrpc_protocol.ID req) method enc)) c))
                 (mrpc.For req (Some f),
                  snd (f (snd (mrpc_frame (mrpc_protocol.ID req) method enc)) c))).
  { intros req f c method output enc Henc.
    unfold mrpc.Respond, bind, get. simpl.
    unfold mrpc_protocol.Response_MarshalMsg, mrpc_frame. simpl.
    destruct output as [m|]; simpl in Henc.
    - rewrite Henc. unfold mrpc.call_send. simpl.
      destruct (f _ c). reflexivity.
    - subst enc. unfold mrpc.call_send. simpl.
      unfold msgp.AppendNil. destruct (f _ c). reflexivity. }
  split; [|split; [exact Hr|split]].
  - intros req c. apply mrpc_nil_sends_disabled. reflexivity.
  - intros req f c code msg. unfold mrpc.Fail, bind.
    rewrite (Hr req f c "fail" _ (mrpc_fail code msg))
      by (intros b; apply mrpc_fail_marshal).
    reflexivity.
  - intros any MR req c. apply jrpc_nil_sends_disabled. reflexivity.
Qed.

Lemma For_send_is_what_Respond_calls_witness :
  mrpc.Respond "yield" (text_output "a")
    (mrpc.For start_ticks (Some send_closed), mkConn [] None)
  = Done (Some "use of closed network connection")
      (mrpc.For start_ticks (Some send_closed), mkConn [] None).
Proof.
  destruct For_send_is_what_Respond_calls as (_ & Hr & _).
  apply (Hr start_ticks send_closed (mkConn [] None) "yield"
           (text_output "a") (msgp.AppendString [] "a")).
  intros b. reflexivity.
Defined.

(** ** Notifications and calls to the client (jrpc) *)

(** X5.  On a scope that can send, [Notify] writes the encoded notification
    as one text frame and [Call] the encoded request (without an id, its
    parameters encoded first); both return nil and leave the scope as it is,
    so they neither count as the response of the request nor end it.  If an
    encoding fails they return the encoder's error and write nothing. *)
Theorem Notify_and_Call_write_one_frame :
  forall (any : Type)
         (MN : jrpc_protocol.Notification any -> result bytes)
         (MA : option any -> result bytes)
         (MQ : jrpc_protocol.Request -> result bytes) req w method params,
    (forall js,
        MN (jrpc_protocol.mkNotification method params) = Ok js ->
        jrpc.Notify MN method params (jrpc_dispatched req w)
        = Done None (jrpc_dispatched req (w ++ [(MessageText, js)])))
    /\ (forall e st,
           MN (jrpc_protocol.mkNotification method params) = Err e ->
           jrpc.Notify MN method params st = Done (Some e) st)
    /\ (forall js1 js2,
           MA params = Ok js1 ->
           MQ (jrpc_protocol.mkRequest "" method js1) = Ok js2 ->
           jrpc.Call MA MQ method params (jrpc_dispatched req w)
           = Done None (jrpc_dispatched req (w ++ [(MessageText, js2)])))
    /\ (forall e st,
           MA params = Err e ->
           jrpc.Call MA MQ method params st = Done (Some e) st)
    /\ (forall js1 e st,
           MA params = Ok js1 ->
           MQ (jrpc_protocol.mkRequest "" method js1) = Err e ->
           jrpc.Call MA MQ method params st = Done (Some e) st).
Proof.
  intros any MN MA MQ req w method params. repeat split.
  - intros js Hjs. unfold jrpc.Notify. rewrite Hjs. reflexivity.
  - intros e st He. unfold jrpc.Notify. rewrite He. reflexivity.
  - intros js1 js2 H1 H2. unfold jrpc.Call. rewrite H1, H2. reflexivity.
  - intros e st He. unfold jrpc.Call. rewrite He. reflexivity.
  - intros js1 e st H1 He. unfold jrpc.Call. rewrite H1, He. reflexivity.
Qed.

(** X6.  [Notify] and [Call] call the send function without the nil check of
    [respond]: on a scope whose send function is nil (created so, or ended
    by [Fail]) they panic as soon as the encoding has succeeded, instead of
    returning the error [response not supported]. *)
Theorem Notify_and_Call_panic_on_an_ended_scope :
  forall (any : Type)
         (MN : jrpc_protocol.Notification any -> result bytes)
         (MA : option any -> result bytes)
         (MQ : jrpc_protocol.Request -> result bytes)
         (MR : jrpc_protocol.Response any -> result bytes) method params,
    (forall js st,
        jrpc.send (fst st) = None ->
        MN (jrpc_protocol.mkNotification method params) = Ok js ->
        jrpc.Notify MN method params st
        = Panic "runtime error: invalid memory address or nil pointer dereference" st)
    /\ (forall js1 js2 st,
           jrpc.send (fst st) = None ->
           MA params = Ok js1 ->
           MQ (jrpc_protocol.mkRequest "" method js1) = Ok js2 ->
           jrpc.Call MA MQ method params st
           = Panic "runtime error: invalid memory address or nil pointer dereference" st)
    /\ (forall js st code msg,
           MN (jrpc_protocol.mkNotification method params) = Ok js ->
           (run jrpc.Fail MR code msg; jrpc.Notify MN method params) st
           = Panic "runtime error: invalid memory address or nil pointer dereference"
               (final (jrpc.Fail MR code msg st))).
Proof.
  intros any MN MA MQ MR method params.
  assert (Hn : forall js st,
             jrpc.send (fst st) = None ->
             MN (jrpc_protocol.mkNotification method params) = Ok js ->
             jrpc.Notify MN method params st
             = Panic "runtime error: invalid memory address or nil pointer dereference" st).
  { intros js st Hnil Hjs. unfold jrpc.Notify. rewrite Hjs.
    unfold jrpc.call_send. rewrite Hnil. reflexivity. }
  split; [exact Hn|split].
  - intros js1 js2 st Hnil H1 H2. unfold jrpc.Call. rewrite H1, H2.
    unfold jrpc.call_send. rewrite Hnil. reflexivity.
  - intros js st code msg Hjs. unfold bind at 1.
    destruct (jrpc_Fail_clears MR st code msg) as (err & c & Hfail).
    rewrite Hfail. simpl. apply (Hn js); [reflexivity|exact Hjs].
Qed.

Lemma Notify_and_Call_panic_on_an_ended_scope_witness :
  (run jrpc.Fail sample.Marshal_Response 500 "boom";
   jrpc.Notify sample.Marshal_Notification "tick" None)
    (jrpc_dispatched scenario_B_json [])
  = Panic "runtime error: invalid memory address or nil pointer dereference"
      (final (jrpc.Fail sample.Marshal_Response 500 "boom"
                (jrpc_dispatched scenario_B_json []))).
Proof.
  destruct (Notify_and_Call_panic_on_an_ended_scope sample.RawMessage
              sample.Marshal_Notification (fun _ => Ok [])
              (fun _ => Ok []) sample.Marshal_Response "tick" None)
    as (_ & _ & Hafter).
  eapply Hafter. reflexivity.
Defined.

(** X7.  The handler that [Proc] registers for a notification: an input that
    does not decode is answered with a failure of code 406 and the user
    function is not called; otherwise the handler is the user function on
    the decoded input and nothing else, so the wrapper itself never writes
    a response. *)
Theorem Proc_handler_outcomes :
  forall (any : Type) (MR : jrpc_protocol.Response any -> result bytes)
         (I : Type) (UI : jrpc_protocol.Unmarshal I)
         (fn : I -> M jrpc.State unit) req w,
    (forall e js,
        jrpc_protocol.json_Unmarshal (jrpc_protocol.Params req) = Err e ->
        MR (jrpc_failure (jrpc_protocol.ID req) 406 (while_decoding e)) = Ok js ->
        jrpc.Proc_handler MR fn (jrpc_dispatched req w)
        = Done tt (jrpc_ended req (w ++ [(MessageText, js)])))
    /\ (forall input,
           jrpc_protocol.json_Unmarshal (jrpc_protocol.Params req) = Ok input ->
           jrpc.Proc_handler MR fn (jrpc_dispatched req w)
           = fn input (jrpc_dispatched req w)).
Proof.
  intros any MR I UI fn req w. split.
  - intros e js He Hjs. unfold jrpc.Proc_handler, bind at 1, get. scope_simpl.
    rewrite He. unfold bind.
    erewrite jrpc_Fail_dispatched by exact Hjs. reflexivity.
  - intros input Hin. unfold jrpc.Proc_handler, bind at 1, get. scope_simpl.
    rewrite Hin. reflexivity.
Qed.

(** ** The connection loop *)

(** X8.  How [serveHTTP] ends.  If the upgrade to a WebSocket fails, nothing
    is read or dispatched and the error of [Accept] is returned.  Otherwise
    the first failing [Read] ends the loop, whatever would follow: when the
    error carries a close status (the peer closed the connection) the loop
    returns nil, and with any other error (status -1) it returns that
    error.  The requests read before have been dispatched and are not
    affected. *)
Theorem read_error_ends_the_loop :
  (forall err reads, mrpc.serveHTTP (Some err) reads = ([], Returned (Some err)))
  /\ (forall pre err status rest,
        snd (mrpc.serveHTTP None pre) = Reading ->
        mrpc.serveHTTP None (pre ++ ReadErr err status :: rest)
        = (fst (mrpc.serveHTTP None pre),
           Returned (if status <? 0 then Some err else None)))
  /\ (forall UR err reads,
        jrpc.serveHTTP UR (Some err) reads = ([], Returned (Some err)))
  /\ (forall UR pre err status rest,
        snd (jrpc.serveHTTP UR None pre) = Reading ->
        jrpc.serveHTTP UR None (pre ++ ReadErr err status :: rest)
        = (fst (jrpc.serveHTTP UR None pre),
           Returned (if status <? 0 then Some err else None))).
Proof.
  unfold mrpc.serveHTTP, jrpc.serveHTTP.
  split; [reflexivity|split; [|split; [reflexivity|]]].
  - intros pre err status rest Hpre.
    rewrite mrpc_serve_loop_app by exact Hpre. simpl.
    destruct (status <? 0); simpl; rewrite app_nil_r; reflexivity.
  - intros UR pre err status rest Hpre.
    rewrite jrpc_serve_loop_app by exact Hpre. simpl.
    destruct (status <? 0); simpl; rewrite app_nil_r; reflexivity.
Qed.

Lemma read_error_ends_the_loop_witness :
  mrpc.serveHTTP None
    ([ReadMsg MessageBinary scenario_B_bytes]
     ++ ReadErr "EOF" (-1) :: [ReadMsg MessageBinary scenario_B_bytes])
  = ([mrpc.For scenario_B (Some mrpc.send_binary)], Returned (Some "EOF"))
  /\ jrpc.serveHTTP sample.Unmarshal_Request None
       ([ReadMsg MessageText scenario_B_text]
        ++ ReadErr "status = StatusNormalClosure" 1000
             :: [ReadMsg MessageText scenario_B_text])
     = ([jrpc.For scenario_B_json (Some jrpc.send_text)], Returned None).
Proof.
  destruct read_error_ends_the_loop as (_ & Hm & _ & Hj).
  split.
  - apply (Hm [ReadMsg MessageBinary scenario_B_bytes] "EOF" (-1)
             [ReadMsg MessageBinary scenario_B_bytes]).
    reflexivity.
  - apply (Hj sample.Unmarshal_Request [ReadMsg MessageText scenario_B_text]
             "status = StatusNormalClosure" 1000
             [ReadMsg MessageText scenario_B_text]).
    reflexivity.
Defined.

(** X9.  Frames of the loop's own message type that all decode are
    dispatched one scope each, in the order they were read; every scope
    holds its decoded request and the send function of the connection (so
    it can respond), bytes that follow the request in a MessagePack frame
    are ignored, and the loop goes on reading. *)
Theorem requests_are_dispatched_in_order :
  (forall msgs reqs,
      Forall2 (fun msg req =>
                 exists rest,
                   mrpc_protocol.Request_UnmarshalMsg msg = Ok (req, rest))
        msgs reqs ->
      mrpc.serveHTTP None (map (ReadMsg MessageBinary) msgs)
      = (map (fun req => mrpc.For req (Some mrpc.send_binary)) reqs, Reading))
  /\ (forall UR msgs reqs,
        Forall2 (fun msg req => UR msg = Ok req) msgs reqs ->
        jrpc.serveHTTP UR None (map (ReadMsg MessageText) msgs)
        = (map (fun req => jrpc.For req (Some jrpc.send_text)) reqs, Reading)).
Proof.
  unfold mrpc.serveHTTP, jrpc.serveHTTP. split.
  - intros msgs reqs Hall.
    induction Hall as [|msg req msgs reqs (rest & Hmsg) Hall IH]; simpl.
    + reflexivity.
    + rewrite Hmsg, IH. reflexivity.
  - intros UR msgs reqs Hall.
    induction Hall as [|msg req msgs reqs Hmsg Hall IH]; simpl.
    + reflexivity.
    + rewrite Hmsg, IH. reflexivity.
Qed.

Lemma requests_are_dispatched_in_order_witness :
  mrpc.serveHTTP None
    (map (ReadMsg MessageBinary) [scenario_B_bytes; scenario_B_bytes ++ [x00]])
  = (map (fun req => mrpc.For req (Some mrpc.send_binary))
       [scenario_B; scenario_B],
     Reading).
Proof.
  apply (proj1 requests_are_dispatched_in_order).
  constructor; [exists []; reflexivity|].
  constructor; [exists [x00]; reflexivity|constructor].
Defined.

(** ** Middleware and registrations *)

(** X10.  [Use] and the registrations work on different fields of the
    configuration, so they commute: middleware wraps the functions that are
    registered after it as well as those registered before.  The handler
    that serves a configuration built from [Use(mw)] followed by
    registrations is [mw] around the dispatch over the final tables, and
    that dispatch finds a function registered last. *)
Theorem Use_commutes_with_registration :
  (forall (I O : Type) (UI : msgp.Unmarshaler I) (MO : msgp.Marshaler O)
          mw f (fn : I -> M mrpc.State (result O)) cfg,
      mrpc.Use mw (mrpc.CallFn f fn cfg) = mrpc.CallFn f fn (mrpc.Use mw cfg))
  /\ (forall (I : Type) (UI : msgp.Unmarshaler I) mw f fn cfg,
        mrpc.Use mw (mrpc.StartFn (I:=I) f fn cfg)
        = mrpc.StartFn (I:=I) f fn (mrpc.Use mw cfg))
  /\ (forall (I O : Type) (UI : msgp.Unmarshaler I) (MO : msgp.Marshaler O)
             Quote mw opts f (fn : I -> M mrpc.State (result O)) id input w,
        let cfg := mrpc.init Quote (mrpc.Use mw :: opts ++ [mrpc.CallFn f fn]) in
        Forall (fun opt => forall c,
                    mrpc.handler (opt c) = mrpc.handler c) opts ->
        mrpc.handler cfg (mrpc.tables cfg)
        = mw (mrpc.handleRequest Quote (mrpc.tables cfg))
        /\ mrpc.handleRequest Quote (mrpc.tables cfg)
             (mrpc_dispatched (mrpc_protocol.mkRequest id "call" f input) w)
           = mrpc.CallFn_handler fn
               (mrpc_dispatched (mrpc_protocol.mkRequest id "call" f input) w))
  /\ (forall (any : Type) (MR : jrpc_protocol.Response any -> result bytes)
             (I : Type) (UI : jrpc_protocol.Unmarshal I) mw f
             (fn : I -> M jrpc.State (result (option any))) cfg,
        jrpc.Use mw (jrpc.Fn MR f fn cfg) = jrpc.Fn MR f fn (jrpc.Use mw cfg))
  /\ (forall (any : Type) (MR : jrpc_protocol.Response any -> result bytes)
             (I : Type) (UI : jrpc_protocol.Unmarshal I) mw f
             (fn : I -> M jrpc.State unit) cfg,
        jrpc.Use mw (jrpc.Proc MR f fn cfg) = jrpc.Proc MR f fn (jrpc.Use mw cfg)).
Proof.
  split; [reflexivity|split; [reflexivity|split; [|split; reflexivity]]].
  intros I O UI MO Quote mw opts f fn id input w cfg Hopts.
  assert (Hh : forall c,
             mrpc.handler (fold_left (fun cfg opt => opt cfg) opts c)
             = mrpc.handler c).
  { induction Hopts as [|opt opts Hopt Hopts IH]; intros c; simpl.
    - reflexivity.
    - rewrite IH. apply Hopt. }
  subst cfg. unfold mrpc.init. simpl. rewrite fold_left_app. simpl.
  rewrite Hh. split; [reflexivity|].
  rewrite mrpc_handleRequest_call by reflexivity. scope_simpl.
  cbn [mrpc.tables mrpc.callHandlers mrpc_protocol.Function].
  rewrite lookup_insert_eq. reflexivity.
Qed.

(** ** The order of hooks *)

Section hook_stability.
Local Open Scope nat_scope.

Context {A : Type}.
Variable Provides : A -> option (list string).
Variable DependsOn : A -> option (list string).

(** Placing hooks that are all marked changes nothing. *)
Lemma each_place_marked (hooks : list A) d fuel items p o :
  (forall j, j ∈ items -> marked p j) ->
  hook.each (hook.place DependsOn hooks d (S fuel)) items (p, o) = Some (p, o).
Proof.
  induction items as [|j items IH]; intros Hall; [reflexivity|].
  cbn [hook.each hook.place].
  rewrite (Hall j) by left.
  apply IH. intros k Hk. apply Hall. right. exact Hk.
Qed.

(** One call of [place] on a hook that is not marked. *)
Lemma place_unmarked (hooks : list A) d fuel i p o item :
  p !! i = Some false ->
  hooks !! i = Some item ->
  hook.place DependsOn hooks d (S fuel) i (p, o)
  = match
      match DependsOn item with
      | Some names =>
          hook.each (hook.place DependsOn hooks d fuel)
            (hook.sort_Ints (hook.gather d names)) (<[i := true]> p, o)
      | None => Some (<[i := true]> p, o)
      end
    with
    | None => None
    | Some (placed, order) => Some (placed, order ++ [item])
    end.
Proof. intros Hp Hi. cbn [hook.place]. rewrite Hp, Hi. reflexivity. Qed.

(** The last loop of [Order] from the index [i] on, when the hooks before
    [i] have been placed in their original order and every dependency
    points to the hook itself or to an earlier one. *)
Lemma Order_loop_stable (hooks : list A) fuel :
  (forall i j, depends Provides DependsOn hooks i j -> j <= i) ->
  forall m i p,
    i + m = length hooks -> length p = length hooks ->
    (forall k, k < i -> marked p k) ->
    (forall k, i <= k -> k < length hooks -> p !! k = Some false) ->
    exists p',
      hook.each
        (hook.place DependsOn hooks (hook.collect Provides 0 hooks ∅)
           (S (S fuel)))
        (seq i m) (p, take i hooks)
      = Some (p', hooks).
Proof.
  intros Hdeps m. induction m as [|m IH]; intros i p Him Hlen Hlow Hhigh.
  - exists p. rewrite take_ge by lia. reflexivity.
  - assert (Hi : i < length hooks) by lia.
    destruct (lookup_lt_is_Some_2 hooks i Hi) as [item Hitem].
    assert (Hstep :
              hook.place DependsOn hooks (hook.collect Provides 0 hooks ∅)
                (S (S fuel)) i (p, take i hooks)
              = Some (<[i := true]> p, take (S i) hooks)).
    { rewrite (place_unmarked hooks _ (S fuel) i p _ item) by (auto with lia).
      rewrite (take_S_r hooks i item Hitem).
      destruct (DependsOn item) as [names|] eqn:Hnames; [|reflexivity].
      rewrite each_place_marked; [reflexivity|].
      intros j Hj.
      apply (elem_of_items Provides DependsOn hooks i item names j Hitem Hnames)
        in Hj.
      apply Hdeps in Hj. apply marked_insert; [lia|].
      destruct (decide (j = i)) as [->|Hne]; [right; reflexivity|].
      left. apply Hlow. lia. }
    cbn [seq hook.each]. rewrite Hstep.
    apply IH.
    + lia.
    + rewrite length_insert. exact Hlen.
    + intros k Hk. apply marked_insert; [lia|].
      destruct (decide (k = i)) as [->|Hne]; [right; reflexivity|].
      left. apply Hlow. lia.
    + intros k Hk1 Hk2. rewrite list_lookup_insert_ne by lia.
      apply Hhigh; lia.
Qed.

Lemma Order_stable (hooks : list A) :
  (forall i j, depends Provides DependsOn hooks i j -> j <= i) ->
  hook.Order Provides DependsOn hooks = Some hooks.
Proof.
  intros Hdeps. unfold hook.Order.
  destruct (Order_loop_stable hooks (Nat.pred (length hooks)) Hdeps
              (length hooks) 0 (replicate (length hooks) false))
    as [p' Hrun].
  - reflexivity.
  - apply length_replicate.
  - intros k Hk. lia.
  - intros k _ Hk. apply lookup_replicate. split; [reflexivity|exact Hk].
  - destruct hooks as [|item hooks]; [reflexivity|].
    cbn [length Nat.pred take] in *. rewrite Hrun. reflexivity.
Qed.

(** What [Order] returns: the hooks at indices that are all different,
    every index being there, and, without cycles, every index after the
    indices it depends on. *)
Lemma Order_result (hooks : list A) :
  exists out idxs,
    hook.Order Provides DependsOn hooks = Some out
    /\ picks hooks idxs out
    /\ NoDup idxs
    /\ idxs ≡ₚ seq 0 (length hooks)
    /\ (acyclic Provides DependsOn hooks ->
        ordered Provides DependsOn hooks idxs).
Proof.
  destruct (Order_run Provides DependsOn hooks)
    as (p' & idxs & out & Hrun & Hpost).
  destruct Hpost as ((Hlen & Hpicks & Hnd & Hmk) & Hg & Hiff & Hnew & Ht & Hord).
  simpl in Hpicks, Hnd, Hmk, Hord.
  exists out, idxs.
  split; [unfold hook.Order; rewrite Hrun; reflexivity|].
  split; [exact Hpicks|]. split; [exact Hnd|]. split.
  - apply NoDup_Permutation; [exact Hnd|apply NoDup_seq|].
    intros k. rewrite elem_of_seq. split.
    + intros Hk. pose proof (picks_lt hooks idxs out k Hpicks Hk). lia.
    + intros Hk. assert (Hin : k ∈ seq 0 (length hooks))
        by (apply elem_of_seq; lia).
      apply Ht, Hiff in Hin as [Hin|Hin]; [|exact Hin].
      unfold marked in Hin. apply lookup_replicate in Hin as [Hin _].
      discriminate.
  - intros Hac. apply Hord; [exact Hac| |].
    + intros g t [Hm _]. unfold marked in Hm.
      apply lookup_replicate in Hm as [Hm _]. discriminate.
    + intros a k Ha. rewrite lookup_nil in Ha. discriminate.
Qed.

(** In the result of [Order] on hooks without cycles, every dependency
    points to an earlier position. *)
Lemma Order_result_ordered (hooks out : list A) :
  acyclic Provides DependsOn hooks ->
  hook.Order Provides DependsOn hooks = Some out ->
  forall a b, depends Provides DependsOn out a b -> b < a.
Proof.
  intros Hac Hout a b (ha & hb & ds & ps & name & Ha & Hb & Hds & Hps & Hin1 & Hin2).
  destruct (Order_result hooks) as (out' & idxs & Hrun & Hpicks & Hnd & _ & Hord).
  rewrite Hrun in Hout. injection Hout as ->.
  specialize (Hord Hac).
  destruct (Forall2_lookup_r _ _ _ _ _ Hpicks Ha) as (i & Hia & Hi).
  destruct (Forall2_lookup_r _ _ _ _ _ Hpicks Hb) as (j & Hjb & Hj).
  assert (Hdep : depends Provides DependsOn hooks i j).
  { exists ha, hb, ds, ps, name. auto 10. }
  destruct (Hord a i Hia j Hdep) as (b' & Hlt & Hb').
  assert (b' = b) by (eapply NoDup_lookup; eassumption).
  subst b'. exact Hlt.
Qed.

End hook_stability.

(** X11.  [Order] preserves the original order where it can: a list in
    which no hook depends on a name provided by a later hook (a hook may
    depend on what it provides itself) is returned as it is.  In particular
    hooks without dependencies keep their order. *)
Theorem Order_keeps_an_ordered_list {A : Type}
    (Provides DependsOn : A -> option (list string)) (hooks : list A) :
  (forall i j, depends Provides DependsOn hooks i j -> (j <= i)%nat) ->
  hook.Order Provides DependsOn hooks = Some hooks.
Proof. apply Order_stable. Qed.

Lemma ordered_hooks_depend_backwards :
  forall i j,
    depends sample_Provides sample_DependsOn ordered_hooks i j -> (j <= i)%nat.
Proof.
  intros i j Hdep.
  pose proof (depends_lt _ _ _ _ _ Hdep) as [Hi _]. simpl in Hi.
  destruct i as [|[|[|i]]]; [| | |lia].
  - apply (elem_of_providers sample_Provides sample_DependsOn ordered_hooks 0%nat
             _ _ j eq_refl eq_refl) in Hdep.
    vm_compute in Hdep. inversion Hdep.
  - apply (elem_of_providers sample_Provides sample_DependsOn ordered_hooks 1%nat
             _ _ j eq_refl eq_refl) in Hdep.
    vm_compute in Hdep. apply list_elem_of_singleton in Hdep. subst j. lia.
  - apply (elem_of_providers sample_Provides sample_DependsOn ordered_hooks 2%nat
             _ _ j eq_refl eq_refl) in Hdep.
    vm_compute in Hdep. apply list_elem_of_singleton in Hdep. subst j. lia.
Qed.

Lemma Order_keeps_an_ordered_list_witness :
  hook.Order sample_Provides sample_DependsOn ordered_hooks = Some ordered_hooks.
Proof.
  apply (Order_keeps_an_ordered_list sample_Provides sample_DependsOn
           ordered_hooks).
  exact ordered_hooks_depend_backwards.
Defined.

(** X12.  Without cycles [Order] is idempotent: ordering its result again
    returns the same list, so a configuration whose hooks are ordered at
    every [Apply] settles after the first. *)
Theorem Order_is_idempotent {A : Type}
    (Provides DependsOn : A -> option (list string)) (hooks : list A) :
  acyclic Provides DependsOn hooks ->
  exists out,
    hook.Order Provides DependsOn hooks = Some out
    /\ hook.Order Provides DependsOn out = Some out.
Proof.
  intros Hac.
  destruct (Order_result Provides DependsOn hooks) as (out & idxs & Hrun & _).
  exists out. split; [exact Hrun|].
  apply Order_stable. intros a b Hdep.
  pose proof (Order_result_ordered Provides DependsOn hooks out Hac Hrun a b Hdep).
  lia.
Qed.

Lemma Order_is_idempotent_witness :
  exists out,
    hook.Order sample_Provides sample_DependsOn sample_hooks = Some out
    /\ hook.Order sample_Provides sample_DependsOn out = Some out.
Proof.
  apply (Order_is_idempotent sample_Provides sample_DependsOn sample_hooks).
  exact sample_hooks_acyclic.
Defined.

(** ** rig: applying options *)

Lemma each_option_app {A : Type} (pre post : list (@rig.Option A)) cfg :
  rig.each_option (pre ++ post) cfg
  = match rig.each_option pre cfg with
    | (Some err, cfg') => (Some err, cfg')
    | (None, cfg') => rig.each_option post cfg'
    end.
Proof.
  revert cfg. induction pre as [|opt pre IH]; intros cfg; simpl.
  - reflexivity.
  - destruct (opt cfg) as [[err|] cfg']; [reflexivity|apply IH].
Qed.

(** X13.  [Config.Apply] on a rig that has not been run, when every option
    succeeds: it does not panic in [hook.Order], it returns nil, and the
    configuration is the one the options left with its hooks reordered and
    nothing else changed.  No hook is lost or duplicated; when the hooks
    have no cycle every provider of a name stands before every hook that
    depends on it, and applying no further options afterwards changes
    nothing. *)
Theorem Config_Apply_orders_the_hooks {A : Type}
    (Provides DependsOn : A -> option (list string))
    (options : list (@rig.Option A)) (cfg cfg' : rig.Config) :
  rig.serving cfg = false -> rig.serve cfg = false ->
  rig.each_option options cfg = (None, cfg') ->
  exists out idxs,
    let cfg'' :=
      rig.mkConfig (rig.serve cfg') (rig.serving cfg') (rig.worker cfg') out
        (rig.watch cfg') in
    rig.Config_Apply Provides DependsOn options cfg = Some (None, cfg'')
    /\ picks (rig.hooks cfg') idxs out
    /\ out ≡ₚ rig.hooks cfg'
    /\ (acyclic Provides DependsOn (rig.hooks cfg') ->
        forall i j,
          depends Provides DependsOn (rig.hooks cfg') i j -> before j i idxs)
    /\ (acyclic Provides DependsOn (rig.hooks cfg') ->
        rig.serving cfg' = false -> rig.serve cfg' = false ->
        rig.Config_Apply Provides DependsOn [] cfg'' = Some (None, cfg'')).
Proof.
  intros Hserving Hserve Hopts.
  destruct (Order_result Provides DependsOn (rig.hooks cfg'))
    as (out & idxs & Hrun & Hpicks & Hnd & Hperm & Hord).
  exists out, idxs. cbn zeta.
  split; [|split; [exact Hpicks|split; [|split]]].
  - unfold rig.Config_Apply. rewrite Hserving, Hserve, Hopts, Hrun. reflexivity.
  - rewrite <- (picks_omap (rig.hooks cfg') idxs out Hpicks), Hperm.
    rewrite (omap_lookup_seq (rig.hooks cfg') (length (rig.hooks cfg')) 0%nat)
      by lia.
    reflexivity.
  - intros Hac i j Hdep.
    destruct (depends_lt Provides DependsOn (rig.hooks cfg') i j Hdep) as [Hi _].
    assert (Hin : i ∈ idxs) by (rewrite Hperm; apply elem_of_seq; lia).
    apply list_elem_of_lookup in Hin as [a Ha].
    destruct (Hord Hac a i Ha j Hdep) as (b & Hb & Hbj).
    exists a, b. auto.
  - intros Hac Hserving' Hserve'.
    unfold rig.Config_Apply. cbn [rig.serving rig.serve rig.each_option rig.hooks].
    rewrite Hserving', Hserve'.
    rewrite (Order_stable Provides DependsOn out); [reflexivity|].
    intros a b Hdep.
    pose proof (Order_result_ordered Provides DependsOn (rig.hooks cfg') out
                  Hac Hrun a b Hdep).
    lia.
Qed.

Lemma Config_Apply_orders_the_hooks_witness :
  exists out,
    rig.New sample_Provides sample_DependsOn
      [hook_option [mkHook "server" ["server"] ["mux"]];
       rig.Watch "web" ["*.ts"];
       hook_option [mkHook "mux" ["mux"] ["log"]; mkHook "log" ["log"] []]]
    = Some (Ok (rig.mkConfig false false false out [("web", ["*.ts"])]))
    /\ out ≡ₚ sample_hooks.
Proof.
  destruct (Config_Apply_orders_the_hooks sample_Provides sample_DependsOn
              [hook_option [mkHook "server" ["server"] ["mux"]];
               rig.Watch "web" ["*.ts"];
               hook_option [mkHook "mux" ["mux"] ["log"]; mkHook "log" ["log"] []]]
              rig.zero
              (rig.mkConfig false false false sample_hooks [("web", ["*.ts"])])
              eq_refl eq_refl eq_refl)
    as (out & idxs & Happly & _ & Hperm & _).
  exists out. split; [|exact Hperm].
  unfold rig.New. rewrite Happly. reflexivity.
Defined.

(** X14.  When [Config.Apply] refuses or stops.  While the rig is serving,
    and once it has been run, no option is applied and the configuration is
    not touched.  Otherwise the first option that fails ends [Apply] with
    its error: the options after it are not applied, and the hooks are left
    as the options before it left them, without being reordered.  [New]
    then returns the error and no configuration. *)
Theorem Config_Apply_refuses_or_stops {A : Type}
    (Provides DependsOn : A -> option (list string)) :
  (forall options (cfg : rig.Config),
      rig.serving cfg = true ->
      rig.Config_Apply Provides DependsOn options cfg
      = Some (Some "cannot apply options while a rig is running", cfg))
  /\ (forall options (cfg : rig.Config),
        rig.serving cfg = false -> rig.serve cfg = true ->
        rig.Config_Apply Provides DependsOn options cfg
        = Some (Some "cannot apply options after a rig has been run", cfg))
  /\ (forall pre option rest err (cfg cfg1 cfg2 : rig.Config),
        rig.serving cfg = false -> rig.serve cfg = false ->
        rig.each_option pre cfg = (None, cfg1) ->
        option cfg1 = (Some err, cfg2) ->
        rig.Config_Apply Provides DependsOn (pre ++ option :: rest) cfg
        = Some (Some err, cfg2))
  /\ (forall pre option rest err (cfg1 cfg2 : rig.Config),
        rig.each_option pre rig.zero = (None, cfg1) ->
        option cfg1 = (Some err, cfg2) ->
        rig.New Provides DependsOn (pre ++ option :: rest) = Some (Err err)).
Proof.
  assert (Hstop : forall pre option rest err (cfg cfg1 cfg2 : rig.Config),
             rig.serving cfg = false -> rig.serve cfg = false ->
             rig.each_option pre cfg = (None, cfg1) ->
             option cfg1 = (Some err, cfg2) ->
             rig.Config_Apply Provides DependsOn (pre ++ option :: rest) cfg
             = Some (Some err, cfg2)).
  { intros pre option rest err cfg cfg1 cfg2 Hserving Hserve Hpre Hopt.
    unfold rig.Config_Apply. rewrite Hserving, Hserve.
    rewrite each_option_app, Hpre. simpl. rewrite Hopt. reflexivity. }
  split; [|split; [|split; [exact Hstop|]]].
  - intros options cfg Hserving. unfold rig.Config_Apply.
    rewrite Hserving. reflexivity.
  - intros options cfg Hserving Hserve. unfold rig.Config_Apply.
    rewrite Hserving, Hserve. reflexivity.
  - intros pre option rest err cfg1 cfg2 Hpre Hopt. unfold rig.New.
    rewrite (Hstop pre option rest err rig.zero cfg1 cfg2 eq_refl eq_refl
               Hpre Hopt).
    reflexivity.
Qed.

Lemma Config_Apply_refuses_or_stops_witness :
  rig.Config_Apply sample_Provides sample_DependsOn
    ([hook_option sample_hooks]
     ++ failing_option "no such directory" :: [rig.Watch "web" ["*.ts"]])
    rig.zero
  = Some (Some "no such directory",
          rig.mkConfig false false false sample_hooks []).
Proof.
  destruct (Config_Apply_refuses_or_stops sample_Provides sample_DependsOn)
    as (_ & _ & Hstop & _).
  apply (Hstop [hook_option sample_hooks] (failing_option "no such directory")
           [rig.Watch "web" ["*.ts"]] "no such directory" rig.zero
           (rig.mkConfig false false false sample_hooks [])
           (rig.mkConfig false false false sample_hooks []));
    reflexivity.
Defined.

(** X15.  [rig.Apply] groups options without any effect of its own: a
    list of options with a group in it is applied as the list with the
    options of the group in its place, by [Config.Apply] and by [New], with
    the same error and the same configuration. *)
Theorem Apply_is_transparent {A : Type}
    (Provides DependsOn : A -> option (list string))
    (pre inner post : list (@rig.Option A)) (cfg : rig.Config) :
  rig.Config_Apply Provides DependsOn (pre ++ rig.Apply inner :: post) cfg
  = rig.Config_Apply Provides DependsOn (pre ++ inner ++ post) cfg
  /\ rig.New Provides DependsOn (pre ++ rig.Apply inner :: post)
     = rig.New Provides DependsOn (pre ++ inner ++ post).
Proof.
  assert (Heach : forall c,
             rig.each_option (pre ++ rig.Apply inner :: post) c
             = rig.each_option (pre ++ inner ++ post) c).
  { intros c. rewrite !each_option_app.
    destruct (rig.each_option pre c) as [[err|] c1]; [reflexivity|].
    rewrite each_option_app. simpl. unfold rig.Apply.
    destruct (rig.each_option inner c1) as [[err|] c2]; reflexivity. }
  assert (Happly : forall c,
             rig.Config_Apply Provides DependsOn (pre ++ rig.Apply inner :: post) c
             = rig.Config_Apply Provides DependsOn (pre ++ inner ++ post) c).
  { intros c. unfold rig.Config_Apply. rewrite Heach. reflexivity. }
  split; [apply Happly|].
  unfold rig.New. rewrite Happly. reflexivity.
Qed.

(** ** api: handlers and their middleware *)

Section api_properties.

Variable H : Type.

Lemma api_apply_failed (options : list (api.Option H)) cfg e :
  api.err H cfg = Some e -> api.apply H options cfg = cfg.
Proof.
  intros He. destruct options as [|option options]; simpl; [reflexivity|].
  rewrite He. reflexivity.
Qed.

Lemma api_apply_app (pre post : list (api.Option H)) cfg :
  api.apply H (pre ++ post) cfg = api.apply H post (api.apply H pre cfg).
Proof.
  revert cfg. induction pre as [|option pre IH]; intros cfg; simpl.
  - reflexivity.
  - destruct (api.err H cfg) as [e|] eqn:He.
    + destruct (pre ++ post) as [|o l], post as [|o' l']; simpl;
        rewrite ?He; reflexivity.
    + destruct (option cfg) as [e' cfg']. apply IH.
Qed.

Lemma api_apply_Use (fs : list (H -> H)) cfg :
  api.err H cfg = None ->
  api.apply H (map (api.Use H) fs) cfg
  = api.mkConfig H (api.middleware H cfg ++ fs) (api.patternHandlers H cfg) None.
Proof.
  revert cfg. induction fs as [|f fs IH]; intros cfg He; simpl.
  - rewrite app_nil_r. destruct cfg as [m p e]. simpl in He. subst e.
    reflexivity.
  - rewrite He. rewrite IH by reflexivity. simpl.
    rewrite <- app_assoc. reflexivity.
Qed.

Lemma api_group_each_Use (fs : list (H -> H)) (rest : list (api.Option H)) cfg :
  api.group_each H (map (api.Use H) fs ++ rest) cfg
  = api.group_each H rest
      (api.mkConfig H (api.middleware H cfg ++ fs) (api.patternHandlers H cfg)
         (api.err H cfg)).
Proof.
  revert cfg. induction fs as [|f fs IH]; intros cfg; simpl.
  - rewrite app_nil_r. destruct cfg. reflexivity.
  - rewrite IH. simpl. rewrite <- app_assoc. reflexivity.
Qed.

Lemma api_Handle_first_outermost pattern (h : H) cfg :
  api.Handle H pattern h cfg
  = (None,
     api.mkConfig H (api.middleware H cfg)
       (api.patternHandlers H cfg
        ++ [(pattern, first_outermost (api.middleware H cfg) h)])
       (api.err H cfg)).
Proof.
  unfold api.Handle, api.Handle_closure, first_outermost. cbn [snd].
  rewrite <- fold_left_rev_right, rev_involutive. reflexivity.
Qed.

Lemma api_FS_patterns (fs : H) patterns phs :
  fold_left (fun phs pattern => phs ++ [(pattern, fs)]) patterns phs
  = phs ++ map (fun pattern : string => (pattern, fs)) patterns.
Proof.
  revert phs. induction patterns as [|p patterns IH]; intros phs; simpl.
  - rewrite app_nil_r. reflexivity.
  - rewrite IH, <- app_assoc. reflexivity.
Qed.

End api_properties.

(** X16.  In the package api the middleware of [Use] applies to the
    handlers registered after it only, the earliest [Use] outermost: after
    [Use(f1)], ..., [Use(fn)], [Handle(pattern, h)] and further [Use(g1)],
    ..., the handler registered for the pattern is [f1(...(fn(h)))]; the
    later middleware is kept for the handlers to come.  [FS] registers the
    file server at each of its patterns as it is, whatever middleware is in
    use. *)
Theorem api_middleware_wraps_later_handlers (H : Type) :
  (forall (fs gs : list (H -> H)) pattern (h : H),
      api.apply H
        (map (api.Use H) fs ++ api.Handle H pattern h :: map (api.Use H) gs)
        (api.zero H)
      = api.mkConfig H (fs ++ gs) [(pattern, first_outermost fs h)] None)
  /\ (forall (fs : list (H -> H)) (server : H) patterns,
        api.apply H (map (api.Use H) fs ++ [api.FS H server patterns])
          (api.zero H)
        = api.mkConfig H fs (map (fun pattern => (pattern, server)) patterns)
            None).
Proof.
  split.
  - intros fs gs pattern h.
    rewrite api_apply_app, api_apply_Use by reflexivity.
    cbn [api.apply api.err api.zero api.middleware api.patternHandlers app].
    rewrite api_Handle_first_outermost.
    cbn [api.err api.middleware api.patternHandlers app].
    rewrite api_apply_Use by reflexivity. reflexivity.
  - intros fs server patterns.
    rewrite api_apply_app, api_apply_Use by reflexivity.
    cbn [api.apply api.err api.zero api.middleware api.patternHandlers app
         api.FS].
    rewrite api_FS_patterns. reflexivity.
Qed.

(** X17.  [Group] isolates middleware: whatever its options do and whether
    they fail or not, the middleware in use after the group is the one in
    use before it, and the error of the group is the error of its first
    failing option.  Inside the group the middleware of the enclosing scope
    still applies, outside of the group's own: a handler registered in the
    group after [Use(g1)], ..., [Use(gm)] is wrapped as
    [f1(...(fn(g1(...(gm(h))))))], where [f1], ..., [fn] were in use
    before the group. *)
Theorem Group_isolates_middleware (H : Type) :
  (forall (options : list (api.Option H)) cfg,
      api.middleware H (snd (api.Group H options cfg)) = api.middleware H cfg
      /\ fst (api.Group H options cfg) = fst (api.group_each H options cfg))
  /\ (forall (gs : list (H -> H)) pattern (h : H) cfg,
        api.Group H (map (api.Use H) gs ++ [api.Handle H pattern h]) cfg
        = (None,
           api.mkConfig H (api.middleware H cfg)
             (api.patternHandlers H cfg
              ++ [(pattern, first_outermost (api.middleware H cfg ++ gs) h)])
             (api.err H cfg))).
Proof.
  split.
  - intros options cfg. unfold api.Group.
    destruct (api.group_each H options cfg) as [e cfg']. split; reflexivity.
  - intros gs pattern h cfg. unfold api.Group.
    rewrite api_group_each_Use.
    cbn [api.group_each]. rewrite api_Handle_first_outermost. reflexivity.
Qed.

(** X18.  [config.apply] stops at the first option that fails and keeps its
    error: the options after it are not applied, so the handlers they would
    register are missing.  [Rig] nevertheless gives the rig an option that
    hooks this configuration and returns nil: the error of an api option is
    never reported to [rig.New] or [Config.Apply]. *)
Theorem api_errors_are_not_reported (H : Type) :
  (forall (pre rest : list (api.Option H)) option e cfg cfg',
      api.err H (api.apply H pre cfg) = None ->
      option (api.apply H pre cfg) = (Some e, cfg') ->
      api.apply H (pre ++ option :: rest) cfg
      = api.mkConfig H (api.middleware H cfg') (api.patternHandlers H cfg')
          (Some e))
  /\ (forall (options : list (api.Option H)) r,
        api.Rig H options r
        = (None, rig.Hook [api.apply H options (api.zero H)] r))
  /\ (forall (Provides DependsOn : api.config H -> option (list string))
             (options : list (api.Option H)),
        exists out,
          rig.New Provides DependsOn [api.Rig H options]
          = Some (Ok (rig.mkConfig false false false out []))
          /\ out ≡ₚ [api.apply H options (api.zero H)]).
Proof.
  split; [|split].
  - intros pre rest option e cfg cfg' Hpre Hopt.
    rewrite api_apply_app. cbn [api.apply]. rewrite Hpre, Hopt.
    apply (api_apply_failed H rest _ e). reflexivity.
  - reflexivity.
  - intros Provides DependsOn options.
    destruct (Order_result Provides DependsOn
                [api.apply H options (api.zero H)])
      as (out & idxs & Hrun & Hpicks & _ & Hperm & _).
    exists out. split.
    + unfold rig.New, rig.Config_Apply. simpl. rewrite Hrun. reflexivity.
    + rewrite <- (picks_omap _ idxs out Hpicks), Hperm. reflexivity.
Qed.

Lemma api_errors_are_not_reported_witness :
  api.apply nat
    ([api.Handle nat "/a" 1%nat]
     ++ (fun cfg => (Some "bad pattern", cfg)) :: [api.Handle nat "/b" 2%nat])
    (api.zero nat)
  = api.mkConfig nat [] [("/a", 1%nat)] (Some "bad pattern").
Proof.
  destruct (api_errors_are_not_reported nat) as (Hstop & _).
  apply (Hstop [api.Handle nat "/a" 1%nat] [api.Handle nat "/b" 2%nat]
           (fun cfg => (Some "bad pattern", cfg)) "bad pattern" (api.zero nat)
           (api.mkConfig nat [] [("/a", 1%nat)] None));
    reflexivity.
Defined.

(** ** watcher: the names that raise an alert *)

(** X19.  [shouldInclude]: a name is included exactly when it matches an
    include pattern, or there is none, and it matches no exclude pattern.
    So a name that matches an include and an exclude pattern is excluded,
    and further exclude patterns never add a name. *)
Theorem shouldInclude_exclude_wins (Glob : Type) (Match : Glob -> string -> bool)
    (includes excludes : list Glob) (name : string) :
  (watcher.shouldInclude Glob Match includes excludes name = true
   <-> (includes = [] \/ exists rx, rx ∈ includes /\ Match rx name = true)
       /\ forall rx, rx ∈ excludes -> Match rx name = false)
  /\ (forall rx, rx ∈ excludes -> Match rx name = true ->
        watcher.shouldInclude Glob Match includes excludes name = false)
  /\ (forall more,
        watcher.shouldInclude Glob Match includes (excludes ++ more) name = true ->
        watcher.shouldInclude Glob Match includes excludes name = true).
Proof.
  assert (Hiff : forall excl,
             watcher.shouldInclude Glob Match includes excl name = true
             <-> (includes = [] \/ exists rx, rx ∈ includes /\ Match rx name = true)
                 /\ forall rx, rx ∈ excl -> Match rx name = false).
  { intros excl. unfold watcher.shouldInclude.
    assert (Hinc : (Nat.eqb (length includes) 0
                    || existsb (fun rx => Match rx name) includes)%bool = true
                   <-> includes = [] \/ exists rx, rx ∈ includes /\ Match rx name = true).
    { rewrite orb_true_iff, existsb_exists. split.
      - intros [Hlen|(rx & Hin & Hm)].
        + left. destruct includes; [reflexivity|discriminate].
        + right. exists rx. split; [apply list_elem_of_In; exact Hin|exact Hm].
      - intros [->|(rx & Hin & Hm)]; [left; reflexivity|].
        right. exists rx. split; [apply list_elem_of_In; exact Hin|exact Hm]. }
    assert (Hexc : negb (existsb (fun rx => Match rx name) excl) = true
                   <-> forall rx, rx ∈ excl -> Match rx name = false).
    { rewrite negb_true_iff. split.
      - intros Hnone rx Hin. apply list_elem_of_In in Hin.
        destruct (Match rx name) eqn:Hm; [|reflexivity].
        assert (Hex : existsb (fun rx => Match rx name) excl = true)
          by (apply existsb_exists; exists rx; auto).
        congruence.
      - intros Hall.
        destruct (existsb (fun rx => Match rx name) excl) eqn:Hex; [|reflexivity].
        apply existsb_exists in Hex as (rx & Hin & Hm).
        apply list_elem_of_In in Hin. rewrite (Hall rx Hin) in Hm. discriminate. }
    destruct (Nat.eqb (length includes) 0
              || existsb (fun rx => Match rx name) includes)%bool; simpl.
    - rewrite Hexc. split; [intros Hall; split; [apply Hinc; reflexivity|exact Hall]
                           |intros [_ Hall]; exact Hall].
    - split; [discriminate|]. intros [Hin _]. apply Hinc in Hin. discriminate. }
  split; [apply Hiff|split].
  - intros rx Hin Hm.
    destruct (watcher.shouldInclude Glob Match includes excludes name) eqn:Hs;
      [|reflexivity].
    apply Hiff in Hs as [_ Hall]. rewrite (Hall rx Hin) in Hm. discriminate.
  - intros more Hs. apply Hiff in Hs as [Hinc Hall]. apply Hiff.
    split; [exact Hinc|]. intros rx Hin. apply Hall.
    apply elem_of_app. left. exact Hin.
Qed.

(** ** Instances of the properties above *)

Lemma Notify_and_Call_write_one_frame_witness :
  exists js,
    sample.Marshal_Notification (jrpc_protocol.mkNotification "tick" None) = Ok js
    /\ jrpc.Notify sample.Marshal_Notification "tick" None
         (jrpc_dispatched scenario_B_json [])
       = Done None (jrpc_dispatched scenario_B_json ([] ++ [(MessageText, js)])).
Proof.
  eexists. split; [reflexivity|].
  destruct (Notify_and_Call_write_one_frame sample.RawMessage
              sample.Marshal_Notification (fun _ => Ok []) (fun _ => Ok [])
              scenario_B_json [] "tick" None) as (Hnotify & _).
  apply Hnotify. reflexivity.
Defined.

Lemma Proc_handler_outcomes_witness :
  jrpc.Proc_handler sample.Marshal_Response
    (fun input : sample.RawMessage => ret tt)
    (jrpc_dispatched scenario_B_json [])
  = Done tt (jrpc_dispatched scenario_B_json []).
Proof.
  destruct (Proc_handler_outcomes sample.RawMessage sample.Marshal_Response
              sample.RawMessage _ (fun input : sample.RawMessage => ret tt)
              scenario_B_json []) as (_ & Hfn).
  eapply eq_trans; [eapply Hfn; reflexivity|reflexivity].
Defined.

Lemma Use_commutes_with_registration_witness :
  mrpc.handleRequest sample.Quote
    (mrpc.tables
       (mrpc.init sample.Quote
          (mrpc.Use (tag "seen")
             :: [mrpc.CallFn "boom" boom] ++ [mrpc.CallFn "echo" echo])))
    (mrpc_dispatched call_echo_hi [])
  = mrpc.CallFn_handler echo (mrpc_dispatched call_echo_hi []).
Proof.
  destruct Use_commutes_with_registration as (_ & _ & Hlate & _).
  apply (Hlate string string _ _ sample.Quote (tag "seen")
           [mrpc.CallFn "boom" boom] "echo" echo "1"
           (msgp.AppendString [] "hi") []).
  repeat constructor.
Defined.

(** X20.  The closure of [Handle] keeps the handler it has wrapped: the
    first call stores the handler under the middleware then in use, the
    earliest outermost, and a further call of the same option value, on the
    same or on another configuration, wraps that wrapped handler again
    instead of the handler given to [Handle].  With the one middleware [f]
    in use both times the second call stores [f(f(h))]. *)
Theorem Handle_reused_wraps_again (H : Type) (pattern : string) (h : H)
    (cfg1 cfg2 : api.config H) :
  let first := api.Handle_closure H pattern h cfg1 in
  let second := api.Handle_closure H pattern (fst first) cfg2 in
  snd first = api.Handle H pattern h cfg1
  /\ fst first = first_outermost (api.middleware H cfg1) h
  /\ api.patternHandlers H (snd (snd second))
     = api.patternHandlers H cfg2
       ++ [(pattern,
            first_outermost (api.middleware H cfg2)
              (first_outermost (api.middleware H cfg1) h))]
  /\ (forall f : H -> H,
        api.middleware H cfg1 = [f] -> api.middleware H cfg2 = [f] ->
        api.patternHandlers H (snd (snd second))
        = api.patternHandlers H cfg2 ++ [(pattern, f (f h))]).
Proof.
  assert (Hwrap : forall (fs : list (H -> H)) (base : H),
             fold_left (fun h fn => fn h) (rev fs) base
             = first_outermost fs base).
  { intros fs base. unfold first_outermost.
    rewrite <- fold_left_rev_right, rev_involutive. reflexivity. }
  cbv zeta. unfold api.Handle, api.Handle_closure. cbn [fst snd api.patternHandlers].
  rewrite !Hwrap.
  split; [reflexivity|]. split; [reflexivity|]. split; [reflexivity|].
  intros f H1 H2. rewrite H1, H2. reflexivity.
Qed.

Lemma Handle_reused_wraps_again_witness :
  api.patternHandlers nat
    (snd (snd (api.Handle_closure nat "/a"
                 (fst (api.Handle_closure nat "/a" 0%nat
                         (api.mkConfig nat [S] [] None)))
                 (api.mkConfig nat [S] [] None))))
  = [] ++ [("/a", 2%nat)].
Proof.
  destruct (Handle_reused_wraps_again nat "/a" 0%nat
              (api.mkConfig nat [S] [] None) (api.mkConfig nat [S] [] None))
    as (_ & _ & _ & Htwice).
  apply (Htwice S); reflexivity.
Defined.
